(** * CodeSweep: the task execution engine

    A shallow embedding of the task runner ([runTask]), the scheduler
    ([executeWithConcurrency], [executeTasks]) and the retry helper
    ([retryWithBackoff]) of the CodeSweep scripts.

    Conventions of the embedding.
    - A JavaScript string is a [string]; a character stands for one
      code unit in the range 0..255.
    - JavaScript numbers that hold integers (milliseconds, exit codes,
      retry counts) are [Z]; the two counters of the scheduler and the
      concurrency bound, which count things, are [nat].  The code
      computes on double-precision numbers: a property that depends on
      this arithmetic carries, as hypotheses, the bounds within which
      it is the arithmetic of the integers (counts and milliseconds
      below [2^53]; a positive initial delay, so that its product with
      a power of two is that product or [Infinity], never [NaN]).
    - An [async] function is a value of [Proc A]: a finite tree whose
      nodes are the effects the function performs (file system, clock,
      child processes, module-level variables) and whose leaves are the
      value it returns or the value it throws.  [try]/[catch] is the
      combinator [try_catch].
    - Console output carries no data flow and is left out, except in
      [retryWithBackoff], whose notices carry the operation label. *)

From stdpp Require Import base tactics option list strings pretty sorting relations.
From Stdlib Require Import ZArith Lia Ascii.

Local Open Scope string_scope.
Local Open Scope Z_scope.
Local Open Scope list_scope.

(** ** Values thrown and promises settled *)

(** The [ProcessOutput] of a zx [$] command. *)
Record ProcessOutput := {
  exitCode : Z;
  stdout : string;
  output_message : string
}.

(** What a [throw] or a rejected promise carries: an [Error] with its
    message, or the [ProcessOutput] of a child process that exited
    non-zero. *)
Inductive Thrown :=
| JsError (msg : string)
| ProcessFailed (out : ProcessOutput).

(** [error.message] *)
Definition message (t : Thrown) : string :=
  match t with
  | JsError m => m
  | ProcessFailed out => output_message out
  end.

Inductive Settled (A : Type) :=
| Fulfilled (a : A)
| Rejected (t : Thrown).
Arguments Fulfilled {A} a.
Arguments Rejected {A} t.

(** ** Effects *)

(** The two shell commands of the task runner. *)
Inductive Command :=
| WhichClaude
    (* bash -ic 'which claude' 2>/dev/null *)
| RunClaude (cwd taskContent : string) (exe : option string) (log : string).
    (* cd cwd && echo taskContent | exe -p "Execute this task" ... > log 2>&1 *)

Inductive E : Type -> Type :=
| ProcessEnvHome : E string                        (* process.env.HOME *)
| FsPathExists (p : string) : E (Settled bool)     (* fs.pathExists(p) *)
| FsReadFile (p : string) : E (Settled string)     (* fs.readFile(p, 'utf-8') *)
| FsEnsureDir (p : string) : E (Settled unit)      (* fs.ensureDir(p) *)
| FsReaddir (p : string) : E (Settled (list string))  (* fs.readdir(p) *)
| FsStatIsDirectory (p : string) : E (Settled bool)   (* (await fs.stat(p)).isDirectory() *)
| Dollar (c : Command) : E ProcessOutput           (* the child process of a zx $ *)
| NewDateISO : E string                            (* new Date().toISOString() *)
| DateNow : E Z                                    (* Date.now() *)
| ReadClaudePath : E (option string)               (* read of the module variable claudePath *)
| WriteClaudePath (p : string) : E unit.           (* claudePath = p *)

(** ** Asynchronous computations *)

Inductive Proc (A : Type) : Type :=
| Ret (a : A)
| Throw (t : Thrown)
| Vis {X : Type} (e : E X) (k : X -> Proc A).
Arguments Ret {A} a.
Arguments Throw {A} t.
Arguments Vis {A X} e k.

Fixpoint bind {A B} (p : Proc A) (f : A -> Proc B) : Proc B :=
  match p with
  | Ret a => f a
  | Throw t => Throw t
  | Vis e k => Vis e (fun x => bind (k x) f)
  end.

(** [try { p } catch (error) { h error }] *)
Fixpoint try_catch {A} (p : Proc A) (h : Thrown -> Proc A) : Proc A :=
  match p with
  | Ret a => Ret a
  | Throw t => h t
  | Vis e k => Vis e (fun x => try_catch (k x) h)
  end.

#[global] Instance proc_ret : MRet Proc := @Ret.
#[global] Instance proc_bind : MBind Proc := fun A B f p => bind p f.

Definition trigger {X} (e : E X) : Proc X := Vis e Ret.

(** [await] of a promise the environment settles. *)
Definition await {X} (e : E (Settled X)) : Proc X :=
  Vis e (fun r => match r with
                  | Fulfilled x => Ret x
                  | Rejected t => Throw t
                  end).

(** A zx [$] command: resolves with the output when the process exits
    0, rejects with it otherwise. *)
Definition dollar (c : Command) : Proc ProcessOutput :=
  Vis (Dollar c) (fun out => if exitCode out =? 0 then Ret out
                             else Throw (ProcessFailed out)).

(** ** Node's [path] module

    The functions of [path] the scripts call, as an interface. *)
Class PathApi := {
  path_dirname : string -> string;
  path_basename : string -> string;
  path_join : string -> string -> string;
  path_resolve : string -> string
}.

(** ** utils.mjs *)

Module Utils.

(** [s.replace(a, b)] for one-character [a] and [b]: the first
    occurrence only. *)
Fixpoint replace_first (a b : ascii) (s : string) : string :=
  match s with
  | EmptyString => EmptyString
  | String c s' => if Ascii.eqb c a then String b s'
                   else String c (replace_first a b s')
  end.

(** [iso.replace('T', ' ').substring(0, 19)] *)
Definition timestamp_of (iso : string) : string :=
  String.substring 0%nat 19%nat (replace_first "T"%char " "%char iso).

Definition formatTimestamp : Proc string :=
  iso ← trigger NewDateISO;
  mret (timestamp_of iso).

(** [Math.floor((endTime - startTime) / 1000)] *)
Definition calculateDuration (startTime endTime : Z) : Z :=
  (endTime - startTime) / 1000.

Definition formatDuration (durationSeconds : Z) : string :=
  let hours := durationSeconds / 3600 in
  let minutes := Z.rem durationSeconds 3600 / 60 in
  let seconds := Z.rem durationSeconds 60 in
  if 0 <? hours then
    pretty hours +:+ "h " +:+ pretty minutes +:+ "m " +:+ pretty seconds +:+ "s"
  else if 0 <? minutes then
    pretty minutes +:+ "m " +:+ pretty seconds +:+ "s"
  else
    pretty seconds +:+ "s".

End Utils.

(** ** [retryWithBackoff] *)

Module Retry.

Record RetryOptions := {
  maxRetries : Z;
  initialDelay : Z;
  maxDelay : Z;
  operationName : string
}.

(** The defaults of the destructuring pattern. *)
Definition default_options : RetryOptions :=
  {| maxRetries := 5; initialDelay := 1000; maxDelay := 30000;
     operationName := "Operation" |}.

(** The three console notices, by the operation label and the counts
    they print.  The third also prints the delay, as the text
    [(delay / 1000).toFixed(1)]; that text is not part of the notice
    here. *)
Inductive Notice :=
| FailedAfter (name : string) (attempts : Z)
    (* console.error: name failed after (maxRetries + 1) attempts *)
| AttemptFailed (name : string) (retryNumber total : Z)
    (* console.log: name failed (attempt retryNumber/total) *)
| RetryingIn (remainingRetries : Z).
    (* console.log: Retrying in ...s... (remainingRetries retries remaining) *)

(** What the retrier does, in order. *)
Inductive Action :=
| Call (attempt : nat)      (* await fn() *)
| Emit (n : Notice)
| Sleep (delay : Z).        (* await new Promise(resolve => setTimeout(resolve, delay)) *)

(** How the retrier ends: [return] of a value, or [throw lastError],
    where [lastError] is [None] as long as nothing was assigned to
    it. *)
Inductive Outcome (A : Type) :=
| Returned (a : A)
| Raised (lastError : option Thrown).
Arguments Returned {A} a.
Arguments Raised {A} lastError.

Section Loop.
Context {A : Type}.
(** [fn n] is how the [n]-th call of the operation settles. *)
Variable fn : nat -> Settled A.
Variable options : RetryOptions.

(** The [for] loop from [attempt] on; [fuel] is the number of
    iterations the loop condition still admits. *)
Fixpoint retry_loop (fuel attempt : nat) (lastError : option Thrown)
  : Outcome A * list Action :=
  match fuel with
  | O => (Raised lastError, [])
  | S fuel' =>
      match fn attempt with
      | Fulfilled a => (Returned a, [Call attempt])
      | Rejected error =>
          if Z.of_nat attempt =? maxRetries options then
            (Raised (Some error),
             [Call attempt;
              Emit (FailedAfter (operationName options) (maxRetries options + 1))])
          else
            let delay := Z.min (initialDelay options * 2 ^ Z.of_nat attempt)
                               (maxDelay options) in
            let retryNumber := Z.of_nat attempt + 1 in
            let remainingRetries := maxRetries options - Z.of_nat attempt in
            let '(r, acts) := retry_loop fuel' (S attempt) (Some error) in
            (r, Call attempt
                :: Emit (AttemptFailed (operationName options) retryNumber
                                       (maxRetries options + 1))
                :: Emit (RetryingIn remainingRetries)
                :: Sleep delay
                :: acts)
      end
  end.

Definition retryWithBackoff : Outcome A * list Action :=
  retry_loop (Z.to_nat (maxRetries options + 1)) 0 None.

End Loop.

(** An operation that fails at every call. *)
Definition always_fails {A} (fn : nat -> Settled A) : Prop :=
  forall n, exists t, fn n = Rejected t.

Definition call_of (a : Action) : option nat :=
  match a with Call n => Some n | _ => None end.
Definition sleep_of (a : Action) : option Z :=
  match a with Sleep d => Some d | _ => None end.
Definition notice_of (a : Action) : option Notice :=
  match a with Emit n => Some n | _ => None end.

(** The attempts made, and the delays waited, in order. *)
Definition attempts (acts : list Action) : list nat := omap call_of acts.
Definition delays (acts : list Action) : list Z := omap sleep_of acts.
Definition notices (acts : list Action) : list Notice := omap notice_of acts.

End Retry.

(** ** The task runner *)

Module Runner.
Import Utils.

(** *** Regular expressions of [extractRepoPaths]

    [content.match(/^PREFIX(.+)$/m)]: with the [m] flag [^] and [$]
    match at line boundaries and [.] stops at a line terminator, so the
    match is the first line that starts with PREFIX and goes on for at
    least one more character; the capture is the rest of that line. *)

Definition is_line_terminator (c : ascii) : bool :=
  Ascii.eqb c "010" || Ascii.eqb c "013".

Fixpoint lines (s : string) : list string :=
  match s with
  | EmptyString => [""]
  | String c s' =>
      if is_line_terminator c then "" :: lines s'
      else match lines s' with
           | l :: ls => String c l :: ls
           | [] => [String c ""]
           end
  end.

Fixpoint strip_prefix (pre s : string) : option string :=
  match pre, s with
  | EmptyString, _ => Some s
  | String a pre', String b s' =>
      if Ascii.eqb a b then strip_prefix pre' s' else None
  | String _ _, EmptyString => None
  end.

Fixpoint first_capture (pre : string) (ls : list string) : option string :=
  match ls with
  | [] => None
  | l :: ls' =>
      match strip_prefix pre l with
      | Some (String c r) => Some (String c r)
      | _ => first_capture pre ls'
      end
  end.

Definition regexp_match (pre content : string) : option string :=
  first_capture pre (lines content).

(** [s.trim()] *)
Definition is_white_space (c : ascii) : bool :=
  let n := Ascii.nat_of_ascii c in
  ((9 <=? n)%nat && (n <=? 13)%nat) || (n =? 32)%nat || (n =? 160)%nat.

Fixpoint trim_start (s : string) : string :=
  match s with
  | EmptyString => EmptyString
  | String c s' => if is_white_space c then trim_start s' else s
  end.

Definition trim (s : string) : string :=
  String.rev (trim_start (String.rev (trim_start s))).

(** *** Results *)

Record RepoPaths := {
  taskDirPath : string;
  repoCodePath : string
}.

(** The object [runTask] returns.  [logFile] and [error] are [None]
    where the object literal has no such property. *)
Record TaskResult := {
  success : bool;
  taskName : string;
  startTimestamp : string;
  endTimestamp : string;
  duration : Z;
  formattedDuration : string;
  logFile : option string;
  error : option string
}.

Section WithPath.
Context `{PathApi}.

(** *** [detectClaudePath] *)

(** [process.env.HOME] is read as the template literal renders it. *)
Definition candidate_paths (home : string) : list string :=
  [ home +:+ "/.claude/local/node_modules/.bin/claude";
    home +:+ "/.claude/local/claude";
    home +:+ "/.local/bin/claude";
    "/usr/local/bin/claude";
    "/opt/homebrew/bin/claude" ].

(** The [for (const p of paths)] loop, followed by [otherwise]. *)
Fixpoint first_existing (paths : list string) (otherwise : Proc string)
  : Proc string :=
  match paths with
  | [] => otherwise
  | p :: ps =>
      found ← try_catch (await (FsPathExists p)) (fun _ => mret false);
      if found : bool then mret p else first_existing ps otherwise
  end.

Definition detectClaudePath : Proc string :=
  home ← trigger ProcessEnvHome;
  first_existing (candidate_paths home)
    (found ← try_catch
       (result ← dollar WhichClaude;
        let detectedPath := trim (stdout result) in
        if bool_decide (detectedPath = "") then mret None
        else
          there ← await (FsPathExists detectedPath);
          if there : bool then mret (Some detectedPath) else mret None)
       (fun _ => mret None);
     match found with
     | Some detectedPath => mret detectedPath
     | None => mret "claude"
     end).

(** *** [extractRepoPaths] *)

(** The part of [extractRepoPaths] that follows the read: the two
    matches on [content], with the [throw] of each as a rejection. *)
Definition parseRepoPaths (content : string) : Settled RepoPaths :=
  match regexp_match "- **Task Directory**: " content with
  | None =>
      Rejected (JsError "Could not extract task directory from task file")
  | Some taskDirMatch =>
      match regexp_match "- **Repository Code**: " content with
      | None =>
          Rejected
            (JsError "Could not extract repository code path from task file")
      | Some repoCodeMatch =>
          Fulfilled {| taskDirPath := trim taskDirMatch;
                       repoCodePath := trim repoCodeMatch |}
      end
  end.

Definition extractRepoPaths (taskFile : string) : Proc RepoPaths :=
  content ← await (FsReadFile taskFile);
  match parseRepoPaths content with
  | Fulfilled paths => mret paths
  | Rejected t => Throw t
  end.

(** *** [runTask] *)

(** [!claudePath] *)
Definition not_cached (c : option string) : bool :=
  match c with
  | None => true
  | Some p => bool_decide (p = "")
  end.

(** The clock readings made at each of the three [return] sites:
    [endTimestamp], [duration], [formattedDuration]. *)
Definition stop_clock (startTime : Z) : Proc (string * Z * string) :=
  endTimestamp ← formatTimestamp;
  endTime ← trigger DateNow;
  let duration := calculateDuration startTime endTime in
  mret (endTimestamp, duration, formatDuration duration).

Definition runTask (taskFile logFile : string) : Proc TaskResult :=
  let taskDir := path_dirname taskFile in
  let taskName := path_basename taskDir in
  startTimestamp ← formatTimestamp;
  startTime ← trigger DateNow;
  try_catch
    (cached ← trigger ReadClaudePath;
     (if not_cached cached
      then detected ← detectClaudePath; trigger (WriteClaudePath detected)
      else mret tt);;
     paths ← extractRepoPaths taskFile;
     there ← await (FsPathExists (repoCodePath paths));
     if negb there then
       Throw (JsError ("Repository code directory does not exist: "
                       +:+ repoCodePath paths))
     else
       taskContent ← await (FsReadFile taskFile);
       await (FsEnsureDir (path_dirname logFile));;
       let absoluteLogFile := path_resolve logFile in
       failed ← try_catch
         (claudePath ← trigger ReadClaudePath;
          dollar (RunClaude (repoCodePath paths) taskContent claudePath
                            absoluteLogFile);;
          mret None)
         (fun _ =>
            '(endTimestamp, duration, formattedDuration) ← stop_clock startTime;
            mret (Some {| success := false;
                          taskName := taskName;
                          startTimestamp := startTimestamp;
                          endTimestamp := endTimestamp;
                          duration := duration;
                          formattedDuration := formattedDuration;
                          logFile := Some logFile;
                          error := None |}));
       match failed with
       | Some result => mret result
       | None =>
           '(endTimestamp, duration, formattedDuration) ← stop_clock startTime;
           mret {| success := true;
                   taskName := taskName;
                   startTimestamp := startTimestamp;
                   endTimestamp := endTimestamp;
                   duration := duration;
                   formattedDuration := formattedDuration;
                   logFile := Some logFile;
                   error := None |}
       end)
    (fun error =>
       '(endTimestamp, duration, formattedDuration) ← stop_clock startTime;
       mret {| success := false;
               taskName := taskName;
               startTimestamp := startTimestamp;
               endTimestamp := endTimestamp;
               duration := duration;
               formattedDuration := formattedDuration;
               logFile := None;
               error := Some (message error) |}).

End WithPath.
End Runner.

(** ** Semantics of asynchronous computations *)

(** One effect together with the answer it received. *)
Inductive Obs :=
| Observed {X : Type} (e : E X) (x : X).

(** [runs p tr r]: [p] can perform the effects [tr], in this order and
    with these answers, and then settle as [r].  The environment is
    free to answer every effect as it likes. *)
Inductive runs {A} : Proc A -> list Obs -> Settled A -> Prop :=
| runs_ret a : runs (Ret a) [] (Fulfilled a)
| runs_throw t : runs (Throw t) [] (Rejected t)
| runs_vis {X} (e : E X) k x tr r :
    runs (k x) tr r -> runs (Vis e k) (Observed e x :: tr) r.

(** [wp p Q]: every run of [p] ends in [Q]. *)
Fixpoint wp {A} (p : Proc A) (Q : list Obs -> Settled A -> Prop) : Prop :=
  match p with
  | Ret a => Q [] (Fulfilled a)
  | Throw t => Q [] (Rejected t)
  | Vis e k => forall x, wp (k x) (fun tr r => Q (Observed e x :: tr) r)
  end.

(** The child processes of kind [RunClaude] in a trace, with their
    outputs. *)
Definition spawn_of (o : Obs) : option (Command * ProcessOutput) :=
  match o with
  | @Observed X e x =>
      match e in E X return X -> option (Command * ProcessOutput) with
      | Dollar (RunClaude cwd content exe log) =>
          fun out => Some (RunClaude cwd content exe log, out)
      | _ => fun _ => None
      end x
  end.

Definition spawns (tr : list Obs) : list (Command * ProcessOutput) :=
  omap spawn_of tr.

(** *** A fixed environment

    The file system, the process table and the clock as functions: the
    answers one unit sees when nothing else changes the environment
    while it runs.  [clock_iso n] and [clock_now n] are the [n]-th
    readings of the clock. *)
Record World := {
  env_home : string;
  fs_pathExists : string -> Settled bool;
  fs_readFile : string -> Settled string;
  fs_ensureDir : string -> Settled unit;
  fs_readdir : string -> Settled (list string);
  fs_isDirectory : string -> Settled bool;
  run_process : Command -> ProcessOutput;
  clock_iso : nat -> string;
  clock_now : nat -> Z
}.

(** The state a computation threads: the module variable [claudePath],
    the number of clock readings so far, the effects so far. *)
Record Machine := {
  claudePath : option string;
  clock_reads : nat;
  history : list Obs
}.

Definition respond (w : World) {X} (e : E X) (m : Machine) : X :=
  match e in E X return X with
  | ProcessEnvHome => env_home w
  | FsPathExists p => fs_pathExists w p
  | FsReadFile p => fs_readFile w p
  | FsEnsureDir p => fs_ensureDir w p
  | FsReaddir p => fs_readdir w p
  | FsStatIsDirectory p => fs_isDirectory w p
  | Dollar c => run_process w c
  | NewDateISO => clock_iso w (clock_reads m)
  | DateNow => clock_now w (clock_reads m)
  | ReadClaudePath => claudePath m
  | WriteClaudePath _ => tt
  end.

Definition record {X} (e : E X) (x : X) (m : Machine) : Machine :=
  {| claudePath := match e with
                   | WriteClaudePath p => Some p
                   | _ => claudePath m
                   end;
     clock_reads := match e with
                    | NewDateISO | DateNow => S (clock_reads m)
                    | _ => clock_reads m
                    end;
     history := history m ++ [Observed e x] |}.

Fixpoint interp {A} (w : World) (p : Proc A) (m : Machine) : Settled A * Machine :=
  match p with
  | Ret a => (Fulfilled a, m)
  | Throw t => (Rejected t, m)
  | Vis e k => let x := respond w e m in interp w (k x) (record e x m)
  end.

(** ** The scheduler *)

Module Scheduler.
Import Runner.

(** The object [executeWithConcurrency] returns. *)
Record ExecutionSummary := {
  summary_successful : nat;
  summary_failed : nat;
  summary_results : list TaskResult
}.

(** What an observer of the pool sees: a callback of [limit] entered,
    a callback left. *)
Inductive Event :=
| Started (index : nat) (taskFile : string)
| Finished (index : nat) (result : Settled TaskResult).

(** One call of [executeWithConcurrency] in progress.
    - [pending]: the callbacks handed to [limit] that have not been
      entered, oldest first, each with the index of its promise in
      [taskPromises];
    - [active]: the callbacks entered and not yet left, each with what
      is left of it to run;
    - [settled]: the value slots of [Promise.all(taskPromises)];
    - [successful], [failed]: the two counters;
    - [claudePathVar]: the module variable [claudePath];
    - [rejection]: the reason [Promise.all] rejected with, if it did;
    - [timeline]: the events so far, oldest first. *)
Record Sched := {
  pending : list (nat * string);
  active : list (nat * Proc TaskResult);
  settled : list (option TaskResult);
  successful : nat;
  failed : nat;
  claudePathVar : option string;
  rejection : option Thrown;
  timeline : list Event
}.

Section WithPath.
Context `{PathApi}.

(** The callback [async () => { ... }] for one task file, up to the
    resumption after [await runTask(taskFile, logFile)]. *)
Definition task (taskFile : string) : Proc TaskResult :=
  let taskDir := path_dirname taskFile in
  let logFile := path_join taskDir "execution.log" in
  runTask taskFile logFile.

(** [taskFiles.map(taskFile => limit(...))]: every callback is queued,
    in the order of the array. *)
Definition submit (taskFiles : list string) (cache : option string) : Sched :=
  {| pending := imap (fun i taskFile => (i, taskFile)) taskFiles;
     active := [];
     settled := replicate (length taskFiles) None;
     successful := 0;
     failed := 0;
     claudePathVar := cache;
     rejection := None;
     timeline := [] |}.

(** The answers the module variable allows, and the value it holds
    after an effect; every other effect is answered by the
    environment, in any way. *)
Definition allowed (c : option string) {X} (e : E X) (x : X) : Prop :=
  match e in E X return X -> Prop with
  | ReadClaudePath => fun x => x = c
  | _ => fun _ => True
  end x.

Definition written (c : option string) {X} (e : E X) : option string :=
  match e with
  | WriteClaudePath p => Some p
  | _ => c
  end.

(** Modelled from the spec: the limiter [pLimit(maxJobs)], which the
    script imports from the package p-limit.  "At most
    [maxConcurrency] Task Runner invocations may be in flight
    simultaneously; remaining units queue until a slot frees": the
    limiter enters a queued callback, the oldest first, only while
    fewer than [maxJobs] callbacks are entered and not yet left.  The
    limiter's check of its argument is not modelled. *)
Definition slot_free (maxJobs : nat) (active : list (nat * Proc TaskResult))
  : Prop :=
  (length active < maxJobs)%nat.

(** One step of a call: the limiter enters the oldest queued callback
    ([step_start]); an entered callback performs its next effect
    ([step_effect]); an entered callback comes to its end, which frees
    its slot ([step_finish], [step_reject]). *)
Inductive step (maxJobs : nat) : Sched -> Sched -> Prop :=
| step_start s i taskFile rest :
    pending s = (i, taskFile) :: rest ->
    slot_free maxJobs (active s) ->
    step maxJobs s
      {| pending := rest;
         active := active s ++ [(i, task taskFile)];
         settled := settled s;
         successful := successful s;
         failed := failed s;
         claudePathVar := claudePathVar s;
         rejection := rejection s;
         timeline := timeline s ++ [Started i taskFile] |}
| step_effect s before i {X} (e : E X) k after x :
    active s = before ++ (i, Vis e k) :: after ->
    allowed (claudePathVar s) e x ->
    step maxJobs s
      {| pending := pending s;
         active := before ++ (i, k x) :: after;
         settled := settled s;
         successful := successful s;
         failed := failed s;
         claudePathVar := written (claudePathVar s) e;
         rejection := rejection s;
         timeline := timeline s |}
| step_finish s before i result after :
    (* const result = await runTask(...); the counters; return result *)
    active s = before ++ (i, Ret result) :: after ->
    step maxJobs s
      {| pending := pending s;
         active := before ++ after;
         settled := <[i := Some result]> (settled s);
         successful := if success result then S (successful s) else successful s;
         failed := if success result then failed s else S (failed s);
         claudePathVar := claudePathVar s;
         rejection := rejection s;
         timeline := timeline s ++ [Finished i (Fulfilled result)] |}
| step_reject s before i t after :
    (* runTask threw: the callback's promise rejects, and Promise.all with it *)
    active s = before ++ (i, Throw t) :: after ->
    step maxJobs s
      {| pending := pending s;
         active := before ++ after;
         settled := settled s;
         successful := successful s;
         failed := failed s;
         claudePathVar := claudePathVar s;
         rejection := Some (default t (rejection s));
         timeline := timeline s ++ [Finished i (Rejected t)] |}.

(** [await Promise.all(taskPromises)] and the [return]: the call throws
    once a promise has rejected, and returns the counters and the values
    once every slot is filled. *)
Definition returned (s : Sched) : option (Settled ExecutionSummary) :=
  match rejection s with
  | Some t => Some (Rejected t)
  | None =>
      match mapM id (settled s) with
      | Some allResults =>
          Some (Fulfilled {| summary_successful := successful s;
                             summary_failed := failed s;
                             summary_results := allResults |})
      | None => None
      end
  end.

(** The states of a call [executeWithConcurrency(taskFiles, maxJobs)]
    when the module variable holds [cache] at the call.  (The default
    [maxJobs = 4] of the parameter is the caller's business here.) *)
Definition reachable (taskFiles : list string) (maxJobs : nat)
    (cache : option string) (s : Sched) : Prop :=
  rtc (step maxJobs) (submit taskFiles cache) s.

(** [executeWithConcurrency taskFiles maxJobs cache r]: the call can end
    with [r], a summary it returns or a value it throws. *)
Definition executeWithConcurrency (taskFiles : list string) (maxJobs : nat)
    (cache : option string) (r : Settled ExecutionSummary) : Prop :=
  exists s, reachable taskFiles maxJobs cache s /\ returned s = Some r.

(** *** [executeTasks] *)

(** The [for (const item of allItems)] loop; [taskFiles] is the array
    built so far. *)
Fixpoint scan (outputDir : string) (allItems taskFiles : list string)
  : Proc (list string) :=
  match allItems with
  | [] => mret taskFiles
  | item :: items =>
      let itemPath := path_join outputDir item in
      isDirectory ← await (FsStatIsDirectory itemPath);
      if isDirectory : bool then
        let taskFilePath := path_join itemPath "task.md" in
        there ← await (FsPathExists taskFilePath);
        if there : bool then scan outputDir items (taskFiles ++ [taskFilePath])
        else scan outputDir items taskFiles
      else scan outputDir items taskFiles
  end.

(** [executeTasks] up to the call of [executeWithConcurrency]: the
    value is the array [taskFiles] that call receives. *)
Definition executeTasks_taskFiles (outputDir : string) : Proc (list string) :=
  there ← await (FsPathExists outputDir);
  if negb there then
    Throw (JsError (outputDir +:+
      " directory not found. Please ensure task generation was successful"))
  else
    allItems ← await (FsReaddir outputDir);
    taskFiles ← scan outputDir allItems [];
    let taskFiles := merge_sort String.le taskFiles in
    if bool_decide (taskFiles = []) then
      Throw (JsError ("No task.md files found in " +:+ outputDir +:+
        ". Please ensure task generation was successful"))
    else mret taskFiles.

(** The unit identifier of a task file: the [taskName] of its result. *)
Definition identifier (taskFile : string) : string :=
  path_basename (path_dirname taskFile).

End WithPath.

(** The task files entered so far, in the order they were entered. *)
Definition started_file (ev : Event) : option string :=
  match ev with Started _ taskFile => Some taskFile | Finished _ _ => None end.

Definition started (evs : list Event) : list string := omap started_file evs.

(** Events without their payload, and the events of a strictly
    sequential run of the first [n] units: each unit is entered and
    left before the next is entered. *)
Inductive Mark := Enter (index : nat) | Leave (index : nat).

Definition mark (ev : Event) : Mark :=
  match ev with Started i _ => Enter i | Finished i _ => Leave i end.

Definition sequential_marks (n : nat) : list Mark :=
  flat_map (fun i => [Enter i; Leave i]) (seq 0 n).

End Scheduler.

(** ** A small instance of the [path] interface

    POSIX paths in normal form: no trailing slash, no [.] or [..]
    segment, no doubled slash.  On such paths the functions below agree
    with Node's; [path_resolve] takes the working directory to be
    [/work].  The instance serves the examples. *)

Module Posix.

(** The text before and after the last slash. *)
Fixpoint split_last (s : string) : option (string * string) :=
  match s with
  | EmptyString => None
  | String c s' =>
      match split_last s' with
      | Some (d, b) => Some (String c d, b)
      | None => if Ascii.eqb c "/" then Some (EmptyString, s') else None
      end
  end.

Definition dirname (s : string) : string :=
  match split_last s with
  | Some (EmptyString, _) => "/"
  | Some (d, _) => d
  | None => "."
  end.

Definition basename (s : string) : string :=
  match split_last s with
  | Some (_, b) => b
  | None => s
  end.

Definition join (a b : string) : string := a +:+ "/" +:+ b.

Definition resolve (s : string) : string :=
  match s with
  | String "/" _ => s
  | _ => "/work/" +:+ s
  end.

#[export] Instance posix : PathApi := {|
  path_dirname := dirname;
  path_basename := basename;
  path_join := join;
  path_resolve := resolve
|}.

End Posix.

(** What [detectClaudePath] is known to do in every environment: it
    starts no [RunClaude] process and returns a non-empty string. *)
Definition detected (tr : list Obs) (r : Settled string) : Prop :=
  spawns tr = [] /\ exists p, r = Fulfilled p /\ p <> "".

Section Postconditions.
Import Runner.
Context `{PathApi}.

(** The three ways [runTask taskFile log] ends, told apart by the child
    process it started: none, and the result is a failure with an error
    detail and no log file; or one, and the result has the log file and
    no error detail, and succeeds exactly when the process exited 0. *)
Definition runTask_post (taskFile log : string)
    (tr : list Obs) (r : Settled TaskResult) : Prop :=
  exists o,
    r = Fulfilled o
    /\ taskName o = path_basename (path_dirname taskFile)
    /\ match spawns tr with
       | [] =>
           success o = false /\ logFile o = None
           /\ exists t, error o = Some (message t)
       | [(_, out)] =>
           success o = bool_decide (exitCode out = 0)
           /\ logFile o = Some log /\ error o = None
       | _ => False
       end.

(** The clock readings around a unit: [runTask] reads the clock first
    and last, and the timestamps and the duration of its result are
    those readings. *)
Definition runTask_timing (tr : list Obs) (r : Settled TaskResult) : Prop :=
  exists o iso0 t0 mid iso1 t1,
    r = Fulfilled o
    /\ tr = Observed NewDateISO iso0 :: Observed DateNow t0
            :: mid ++ [Observed NewDateISO iso1; Observed DateNow t1]
    /\ startTimestamp o = Utils.timestamp_of iso0
    /\ endTimestamp o = Utils.timestamp_of iso1
    /\ duration o = Utils.calculateDuration t0 t1
    /\ formattedDuration o = Utils.formatDuration (duration o).

End Postconditions.

(** ** Example environments *)

Module Examples.
Import Runner Posix.

(** A task file as the generator writes it. *)
Definition task_md : string :=
  "# Task
- **Task Directory**: /tasks/001_repo_main
- **Repository Code**: /tasks/001_repo_main/repo
Upgrade the dependencies.".

(** An environment with one task file, [/tasks/001_repo_main/task.md];
    the repository directory exists or not, the agent exits with
    [agentExit], and no agent executable is installed in any of the
    usual places. *)
Definition world (repoExists : bool) (agentExit : Z) : World :=
  {| env_home := "/home/dev";
     fs_pathExists := fun p =>
       Fulfilled (repoExists && bool_decide (p = "/tasks/001_repo_main/repo"));
     fs_readFile := fun p =>
       if bool_decide (p = "/tasks/001_repo_main/task.md")
       then Fulfilled task_md
       else Rejected (JsError "ENOENT: no such file or directory");
     fs_ensureDir := fun _ => Fulfilled tt;
     fs_readdir := fun _ => Fulfilled ["001_repo_main"];
     fs_isDirectory := fun _ => Fulfilled true;
     run_process := fun c =>
       match c with
       | WhichClaude => {| exitCode := 1; stdout := ""; output_message := "exit code: 1" |}
       | RunClaude _ _ _ _ =>
           {| exitCode := agentExit; stdout := ""; output_message := "agent" |}
       end;
     clock_iso := fun n => "2025-01-01T00:00:0" +:+ pretty n +:+ ".000Z";
     clock_now := fun n => 1000 * Z.of_nat n |}.

Definition boot : Machine :=
  {| claudePath := None; clock_reads := 0; history := [] |}.

(** The environment [world true 0] on a machine without the agent: the
    shell finds no command [claude] and exits with 127; under any other
    path the agent runs and exits 0. *)
Definition agent_not_found : World :=
  {| env_home := "/home/dev";
     fs_pathExists := fun p =>
       Fulfilled (bool_decide (p = "/tasks/001_repo_main/repo"));
     fs_readFile := fun p =>
       if bool_decide (p = "/tasks/001_repo_main/task.md")
       then Fulfilled task_md
       else Rejected (JsError "ENOENT: no such file or directory");
     fs_ensureDir := fun _ => Fulfilled tt;
     fs_readdir := fun _ => Fulfilled ["001_repo_main"];
     fs_isDirectory := fun _ => Fulfilled true;
     run_process := fun c =>
       match c with
       | WhichClaude => {| exitCode := 1; stdout := ""; output_message := "exit code: 1" |}
       | RunClaude _ _ exe _ =>
           if bool_decide (exe = Some "claude")
           then {| exitCode := 127; stdout := ""; output_message := "exit code: 127" |}
           else {| exitCode := 0; stdout := ""; output_message := "" |}
       end;
     clock_iso := fun n => "2025-01-01T00:00:0" +:+ pretty n +:+ ".000Z";
     clock_now := fun n => 1000 * Z.of_nat n |}.

(** The same machine with the agent installed as
    [/usr/local/bin/claude]. *)
Definition agent_installed : World :=
  {| env_home := env_home agent_not_found;
     fs_pathExists := fun p =>
       Fulfilled (bool_decide (p = "/tasks/001_repo_main/repo")
                  || bool_decide (p = "/usr/local/bin/claude"));
     fs_readFile := fs_readFile agent_not_found;
     fs_ensureDir := fs_ensureDir agent_not_found;
     fs_readdir := fs_readdir agent_not_found;
     fs_isDirectory := fs_isDirectory agent_not_found;
     run_process := run_process agent_not_found;
     clock_iso := clock_iso agent_not_found;
     clock_now := clock_now agent_not_found |}.

(** An output directory [tasks] with the task directories [repo] and
    [repo-docs], each holding a [task.md]. *)
Definition two_tasks : World :=
  {| env_home := "/home/dev";
     fs_pathExists := fun _ => Fulfilled true;
     fs_readFile := fun _ => Fulfilled task_md;
     fs_ensureDir := fun _ => Fulfilled tt;
     fs_readdir := fun _ => Fulfilled ["repo"; "repo-docs"];
     fs_isDirectory := fun _ => Fulfilled true;
     run_process := fun _ =>
       {| exitCode := 0; stdout := ""; output_message := "" |};
     clock_iso := fun n => "2025-01-01T00:00:0" +:+ pretty n +:+ ".000Z";
     clock_now := fun n => 1000 * Z.of_nat n |}.

End Examples.

(** ** Notions used to state the properties of the scheduler *)

(** [residual p0 p]: [p] is what is left of [p0] after some effects;
    whatever [p] goes on to do completes a run of [p0]. *)
Definition residual {A} (p0 p : Proc A) : Prop :=
  exists hist, forall tr r, runs p tr r -> runs p0 (hist ++ tr) r.

(** The results counted by each counter. *)
Definition successes (rs : list Runner.TaskResult) : nat :=
  length (filter (fun r => Runner.success r = true) rs).

Definition failures (rs : list Runner.TaskResult) : nat :=
  length (filter (fun r => Runner.success r = false) rs).

(** An answer the environment may give to an effect when the module
    variable holds [c]. *)
Definition some_answer (c : option string) {X} (e : E X) : X :=
  match e in E X return X with
  | ProcessEnvHome => ""
  | FsPathExists _ => Fulfilled false
  | FsReadFile _ => Rejected (JsError "ENOENT")
  | FsEnsureDir _ => Fulfilled tt
  | FsReaddir _ => Fulfilled []
  | FsStatIsDirectory _ => Fulfilled false
  | Dollar _ => {| exitCode := 1; stdout := ""; output_message := "" |}
  | NewDateISO => ""
  | DateNow => 0
  | ReadClaudePath => c
  | WriteClaudePath _ => tt
  end.

Section Invariant.
Import Runner Scheduler.
Context `{PathApi}.
Variable taskFiles : list string.
Variable maxJobs : nat.

(** What holds of every state of a call
    [executeWithConcurrency(taskFiles, maxJobs)]; [k] is the number of
    callbacks entered so far. *)
Definition invariant (s : Sched) : Prop :=
  exists k : nat,
    (k <= length taskFiles)%nat
    /\ pending s = drop k (imap (fun i taskFile => (i, taskFile)) taskFiles)
    /\ started (timeline s) = take k taskFiles
    /\ NoDup (active s).*1
    /\ (forall i p, (i, p) ∈ active s ->
          (i < k)%nat /\ settled s !! i = Some None
          /\ exists taskFile, taskFiles !! i = Some taskFile
                              /\ residual (task taskFile) p)
    /\ length (settled s) = length taskFiles
    /\ (forall i, (k <= i)%nat -> (i < length taskFiles)%nat ->
          settled s !! i = Some None)
    /\ (forall i, (i < k)%nat -> settled s !! i = Some None ->
          i ∈ (active s).*1)
    /\ (forall i o, settled s !! i = Some (Some o) ->
          exists taskFile hist,
            taskFiles !! i = Some taskFile
            /\ runs (task taskFile) hist (Fulfilled o))
    /\ successful s = successes (omap id (settled s))
    /\ failed s = failures (omap id (settled s))
    /\ rejection s = None
    /\ (length (active s) <= maxJobs)%nat.

(** With [maxJobs = 1]: the timeline is that of a sequential run, with
    at most the last unit entered and not yet left. *)
Definition sequential (s : Sched) : Prop :=
  exists k : nat,
    pending s = drop k (imap (fun i taskFile => (i, taskFile)) taskFiles)
    /\ ((active s = [] /\ mark <$> timeline s = sequential_marks k)
        \/ (exists j p,
              active s = [(j, p)] /\ k = S j
              /\ mark <$> timeline s = sequential_marks j ++ [Enter j])).

End Invariant.

(** [ran taskFile o]: [o] is what the callback for [taskFile] returned
    on some run of it. *)
Definition ran `{PathApi} (taskFile : string) (o : Runner.TaskResult) : Prop :=
  exists hist, runs (Scheduler.task taskFile) hist (Fulfilled o).

(** ** Notions used to bound the length of a run *)

(** [height_le p n]: no run of [p] performs more than [n] effects. *)
Fixpoint height_le {A} (p : Proc A) (n : nat) : Prop :=
  match p with
  | Ret _ | Throw _ => True
  | Vis e k =>
      match n with
      | O => False
      | S n' => forall x, height_le (k x) n'
      end
  end.




(** ** Notions used to state further properties *)



(** ** repository.mjs

    The helpers that fork, clone and configure a repository.  Their
    child processes are [gh] and [git] commands; what a command does
    to the remote or to the clone is the environment's business, the
    helpers see its exit code and its output only. *)

Module Repository.
Import Runner.

(** The child processes of the helpers. *)
Inductive Shell :=
| GhApiUser
    (* gh api user --jq '.login' *)
| GhRepoListForks (username : string)
    (* gh repo list username --fork --json name --jq '.[].name' *)
| GhRepoFork (org repo : string)
    (* gh repo fork org/repo --clone=false *)
| GitCloneBare (username repo repoDir : string)
    (* git clone --bare https://github.com/username/repo.git repoDir *)
| GitRemoteGetUrl (repoDir : string)
    (* git -C repoDir remote get-url upstream *)
| GitRemoteSetUrl (repoDir url : string)
    (* git -C repoDir remote set-url upstream url *)
| GitRemoteAdd (repoDir url : string)
    (* git -C repoDir remote add upstream url *)
| GitFetchAll (repoDir : string).
    (* git -C repoDir fetch --all *)

(** The environment of one call: [host_process n c] is the output of
    the child process [c] when it is the [n]-th process the call
    starts, counted from 0; [host_pathExists p] is how
    [fs.pathExists(p)] settles. *)
Record Host := {
  host_process : nat -> Shell -> ProcessOutput;
  host_pathExists : string -> Settled bool
}.

(** What a call has done so far: the child processes it ran, with
    their outputs, and the delays it waited. *)
Inductive Did :=
| Ran (c : Shell) (out : ProcessOutput)
| Waited (delay : Z).

Definition ran_of (d : Did) : option (Shell * ProcessOutput) :=
  match d with
  | Ran c out => Some (c, out)
  | Waited _ => None
  end.

Definition processes (log : list Did) : list (Shell * ProcessOutput) :=
  omap ran_of log.

(** An [async] function of the module: from the environment and the
    log so far to the way it settles and the log then. *)
Definition Script (A : Type) : Type :=
  Host -> list Did -> Settled A * list Did.

#[global] Instance script_ret : MRet Script :=
  fun A a _ log => (Fulfilled a, log).

#[global] Instance script_bind : MBind Script :=
  fun A B f p host log =>
    match p host log with
    | (Fulfilled a, log') => f a host log'
    | (Rejected t, log') => (Rejected t, log')
    end.

Definition throw {A} (t : Thrown) : Script A :=
  fun _ log => (Rejected t, log).

(** [try { p } catch (error) { h error }] *)
Definition catch {A} (p : Script A) (h : Thrown -> Script A) : Script A :=
  fun host log =>
    match p host log with
    | (Fulfilled a, log') => (Fulfilled a, log')
    | (Rejected t, log') => h t host log'
    end.

(** The promise of a zx [$]: resolved with the output when the process
    exits 0, rejected with it otherwise. *)
Definition settle (out : ProcessOutput) : Settled ProcessOutput :=
  if exitCode out =? 0 then Fulfilled out else Rejected (ProcessFailed out).

(** [await $`c`] *)
Definition sh (c : Shell) : Script ProcessOutput :=
  fun host log =>
    let out := host_process host (length (processes log)) c in
    (settle out, log ++ [Ran c out]).

(** [await fs.pathExists(p)] *)
Definition pathExists (p : string) : Script bool :=
  fun host log => (host_pathExists host p, log).

(** [s.split(sep)] for a one-character separator. *)
Fixpoint split (sep : ascii) (s : string) : list string :=
  match s with
  | EmptyString => [""]
  | String c s' =>
      if Ascii.eqb c sep then "" :: split sep s'
      else match split sep s' with
           | l :: ls => String c l :: ls
           | [] => [String c ""]
           end
  end.

Definition getCurrentGitHubUser : Script string :=
  catch
    (result ← sh GhApiUser;
     mret (trim (stdout result)))
    (fun _ =>
       throw (JsError
         "Could not get current GitHub user. Please check gh authentication.")).

Definition hasFork (username repo : string) : Script bool :=
  catch
    (result ← sh (GhRepoListForks username);
     let repos := split "010" (trim (stdout result)) in
     mret (bool_decide (repo ∈ repos)))
    (fun _ => mret false).

Definition createFork (org repo : string) : Script bool :=
  catch
    (sh (GhRepoFork org repo);;
     mret true)
    (fun _ => mret false).

(** The options [cloneRepository] passes to the retrier. *)
Definition clone_options (username repo : string) : Retry.RetryOptions :=
  {| Retry.maxRetries := 5;
     Retry.initialDelay := 1000;
     Retry.maxDelay := 30000;
     Retry.operationName := "Cloning " +:+ username +:+ "/" +:+ repo |}.

(** What an action of the retrier leaves in the log when the operation
    is [async () => { await $`c`; }] and its first call starts the
    [n0]-th process. *)
Definition did_of (host : Host) (n0 : nat) (c : Shell) (a : Retry.Action)
  : option Did :=
  match a with
  | Retry.Call n => Some (Ran c (host_process host (n0 + n) c))
  | Retry.Sleep delay => Some (Waited delay)
  | Retry.Emit _ => None
  end.

Definition cloneRepository (username repo repoDir : string) : Script bool :=
  fun host log =>
    let c := GitCloneBare username repo repoDir in
    let n0 := length (processes log) in
    let fn := fun n : nat =>
      match settle (host_process host (n0 + n) c) with
      | Fulfilled _ => Fulfilled tt
      | Rejected t => Rejected t
      end in
    let '(outcome, acts) :=
      Retry.retryWithBackoff fn (clone_options username repo) in
    (Fulfilled match outcome with
               | Retry.Returned _ => true      (* return true *)
               | Retry.Raised _ => false       (* catch: return false *)
               end,
     log ++ omap (did_of host n0 c) acts).

(** [`https://github.com/${org}/${repo}.git`] *)
Definition upstream_url (org repo : string) : string :=
  "https://github.com/" +:+ org +:+ "/" +:+ repo +:+ ".git".

Definition configureUpstream (repoDir org repo : string) : Script bool :=
  let upstreamUrl := upstream_url org repo in
  catch
    (hasUpstream ← catch (sh (GitRemoteGetUrl repoDir);; mret true)
                         (fun _ => mret false);
     (if hasUpstream : bool
      then sh (GitRemoteSetUrl repoDir upstreamUrl)
      else sh (GitRemoteAdd repoDir upstreamUrl));;
     mret true)
    (fun _ => mret false).

Definition updateUpstreamRemote (repoDir org repo : string) : Script bool :=
  catch
    (currentUpstream ← catch (result ← sh (GitRemoteGetUrl repoDir);
                              mret (trim (stdout result)))
                             (fun _ => mret "");
     let expectedUpstream := upstream_url org repo in
     (if bool_decide (currentUpstream <> expectedUpstream) then
        if bool_decide (currentUpstream <> "")
        then sh (GitRemoteSetUrl repoDir expectedUpstream);; mret tt
        else sh (GitRemoteAdd repoDir expectedUpstream);; mret tt
      else mret tt);;
     mret true)
    (fun _ => mret false).

Definition fetchLatestBranches (repoDir : string) : Script bool :=
  catch
    (sh (GitFetchAll repoDir);;
     mret true)
    (fun _ => mret false).

Section WithPath.
Context `{PathApi}.

(** The three early [return false] are the [else] branches of the
    nested conditionals. *)
Definition ensureRepoExists (org repo workspaceDir : string) : Script bool :=
  let repoDir := path_join workspaceDir repo in
  there ← pathExists repoDir;
  if there : bool then
    updateUpstreamRemote repoDir org repo;;
    fetchLatestBranches repoDir;;
    mret true
  else
    currentUser ← getCurrentGitHubUser;
    forkExists ← hasFork currentUser repo;
    created ← (if negb forkExists then createFork org repo else mret true);
    if negb created then mret false
    else
      cloned ← cloneRepository currentUser repo repoDir;
      if negb cloned then mret false
      else
        configured ← configureUpstream repoDir org repo;
        if negb configured then mret false
        else
          fetchLatestBranches repoDir;;
          mret true.

End WithPath.

End Repository.

(** *** Example environments *)

Module RepositoryExamples.
Import Repository.

Definition succeeded (text : string) : ProcessOutput :=
  {| exitCode := 0; stdout := text; output_message := "" |}.

Definition failed (code : Z) : ProcessOutput :=
  {| exitCode := code; stdout := "";
     output_message := "exit code: " +:+ pretty code |}.

(** A workspace that does not hold the clone yet.  The user [dev] has
    the forks [repo-docs] and [other]; the network is down while the
    first five processes run, so that the first two attempts to clone
    fail; the clone has no upstream remote. *)
Definition fresh : Host :=
  {| host_process := fun n c =>
       match c with
       | GhApiUser => succeeded "dev
"
       | GhRepoListForks _ => succeeded "repo-docs
other
"
       | GhRepoFork _ _ => succeeded ""
       | GitCloneBare _ _ _ => if (n <? 5)%nat then failed 128 else succeeded ""
       | GitRemoteGetUrl _ => failed 2
       | GitRemoteSetUrl _ _ => succeeded ""
       | GitRemoteAdd _ _ => succeeded ""
       | GitFetchAll _ => succeeded ""
       end;
     host_pathExists := fun _ => Fulfilled false |}.

(** A workspace that holds the clone, with the upstream remote set to
    [upstream]; the network is down, so that fetching fails. *)
Definition cloned (upstream : string) : Host :=
  {| host_process := fun n c =>
       match c with
       | GitRemoteGetUrl _ => succeeded (upstream +:+ "
")
       | GitFetchAll _ => failed 128
       | _ => succeeded ""
       end;
     host_pathExists := fun _ => Fulfilled true |}.

End RepositoryExamples.

(** The forks a call asked [gh] to create. *)
Definition fork_of (d : Repository.Did) : option (string * string) :=
  match d with
  | Repository.Ran (Repository.GhRepoFork org repo) _ => Some (org, repo)
  | _ => None
  end.

Definition forks (log : list Repository.Did) : list (string * string) :=
  omap fork_of log.

(** The three ways [ensureRepoExists] ends when the clone [repoDir] is
    not in the workspace, with what the call has done then: it throws
    after a failed [gh api user] and nothing else; it returns [true]
    after a clone from the fork of the current user and a write of the
    upstream remote that both exited 0, followed by a fetch; it returns
    [false] right after a fork, a clone or a write of the upstream
    remote that failed. *)
Definition ensure_outcome (org repo repoDir : string) (r : Settled bool)
    (log' : list Repository.Did) : Prop :=
  let url := Repository.upstream_url org repo in
  match r with
  | Rejected t =>
      t = JsError
            "Could not get current GitHub user. Please check gh authentication."
      /\ exists out,
           log' = [Repository.Ran Repository.GhApiUser out]
           /\ exitCode out <> 0
  | Fulfilled true =>
      exists out_u mid out_c out_r write out_w out_f,
        log' = Repository.Ran Repository.GhApiUser out_u
               :: mid
               ++ [Repository.Ran
                     (Repository.GitCloneBare (Runner.trim (stdout out_u))
                                              repo repoDir) out_c;
                   Repository.Ran (Repository.GitRemoteGetUrl repoDir) out_r;
                   Repository.Ran write out_w;
                   Repository.Ran (Repository.GitFetchAll repoDir) out_f]
        /\ exitCode out_u = 0 /\ exitCode out_c = 0 /\ exitCode out_w = 0
        /\ (write = Repository.GitRemoteSetUrl repoDir url
            \/ write = Repository.GitRemoteAdd repoDir url)
  | Fulfilled false =>
      exists c out,
        last log' = Some (Repository.Ran c out)
        /\ exitCode out <> 0
        /\ (c = Repository.GhRepoFork org repo
            \/ (exists user, c = Repository.GitCloneBare user repo repoDir)
            \/ c = Repository.GitRemoteSetUrl repoDir url
            \/ c = Repository.GitRemoteAdd repoDir url)
  end.

(** ** [executeTasks], from the scan to the report *)

(** The object [executeTasks] returns. *)
Record ExecutionReport := {
  report_successful : nat;
  report_failed : nat;
  report_totalTasks : nat;
  report_startTimestamp : string;
  report_endTimestamp : string;
  report_duration : string;
  report_outputDir : string
}.

Section ExecuteTasks.
Context `{PathApi}.

(** [executeTasks outputDir maxJobs cache r]: the call
    [executeTasks(outputDir, config)] can end with [r], a report it
    returns or a value it throws, when [config.maxJobs] is [maxJobs]
    ([None] for [undefined], for which the default 4 of
    [executeWithConcurrency] applies) and the module variable
    [claudePath] holds [cache].  The clock is read before and after the
    call of [executeWithConcurrency]. *)
Definition executeTasks (outputDir : string) (maxJobs : option nat)
    (cache : option string) (r : Settled ExecutionReport) : Prop :=
  exists tr found,
    runs (Scheduler.executeTasks_taskFiles outputDir) tr found
    /\ match found with
       | Rejected t => r = Rejected t
       | Fulfilled taskFiles =>
           exists (executionStartTimestamp : string) (executionStartTime : Z)
                  result,
             Scheduler.executeWithConcurrency taskFiles (default 4%nat maxJobs)
               cache result
             /\ match result with
                | Rejected t => r = Rejected t
                | Fulfilled result =>
                    exists (executionEndTimestamp : string)
                           (executionEndTime : Z),
                      r = Fulfilled
                            {| report_successful :=
                                 Scheduler.summary_successful result;
                               report_failed := Scheduler.summary_failed result;
                               report_totalTasks := length taskFiles;
                               report_startTimestamp :=
                                 Utils.timestamp_of executionStartTimestamp;
                               report_endTimestamp :=
                                 Utils.timestamp_of executionEndTimestamp;
                               report_duration :=
                                 Utils.formatDuration
                                   (Utils.calculateDuration executionStartTime
                                                            executionEndTime);
                               report_outputDir := outputDir |}
                end
       end.

(** The task file of a directory entry in a fixed environment: the
    [task.md] of an entry that is a directory and holds one. *)
Definition task_file_in (w : World) (outputDir item : string) : option string :=
  let itemPath := path_join outputDir item in
  let taskFilePath := path_join itemPath "task.md" in
  match fs_isDirectory w itemPath, fs_pathExists w taskFilePath with
  | Fulfilled true, Fulfilled true => Some taskFilePath
  | _, _ => None
  end.

(** An entry the scan can inspect: [fs.stat] resolves, and so does
    [fs.pathExists] when it is asked. *)
Definition inspectable (w : World) (outputDir item : string) : Prop :=
  let itemPath := path_join outputDir item in
  match fs_isDirectory w itemPath with
  | Fulfilled true =>
      exists there, fs_pathExists w (path_join itemPath "task.md") = Fulfilled there
  | Fulfilled false => True
  | Rejected _ => False
  end.

End ExecuteTasks.

(** ** Notions used to state the properties of [extractRepoPaths] *)

(** A string without line terminator. *)
Definition one_line (s : string) : Prop :=
  Forall (fun c => Runner.is_line_terminator c = false)
         (String.list_ascii_of_string s).

(** The line feed, as a string. *)
Definition line_feed : string := String "010" "".

(** ** Notions used to state the properties of the cached executable *)

(** The child processes started in a trace, of either kind. *)
Definition command_of (o : Obs) : option Command :=
  match o with
  | Observed e _ =>
      match e with
      | Dollar c => Some c
      | _ => None
      end
  end.

Definition commands (tr : list Obs) : list Command := omap command_of tr.

(** The values assigned to the module variable [claudePath] in a
    trace. *)
Definition write_of (o : Obs) : option string :=
  match o with
  | Observed e _ =>
      match e with
      | WriteClaudePath p => Some p
      | _ => None
      end
  end.

Definition writes (tr : list Obs) : list string := omap write_of tr.

(** [agent_prepared taskFile log tr]: every agent process in [tr] was
    started after the checks and preparations [runTask] makes for it.
    Its working directory was found to exist, its input is a content
    read from the task file, the directory of the log file was
    ensured, and its output goes to the resolved path of the log
    file. *)
Definition agent_prepared `{PathApi} (taskFile log : string) (tr : list Obs)
  : Prop :=
  forall cmd out,
    (cmd, out) ∈ spawns tr ->
    exists cwd content exe before after,
      cmd = RunClaude cwd content exe (path_resolve log)
      /\ tr = before ++ Observed (Dollar cmd) out :: after
      /\ Observed (FsPathExists cwd) (Fulfilled true) ∈ before
      /\ Observed (FsReadFile taskFile) (Fulfilled content) ∈ before
      /\ Observed (FsEnsureDir (path_dirname log)) (Fulfilled tt) ∈ before.

(** The delays a call of the repository helpers waited, in order. *)
Definition waited_of (d : Repository.Did) : option Z :=
  match d with
  | Repository.Waited delay => Some delay
  | Repository.Ran _ _ => None
  end.

Definition waits (log : list Repository.Did) : list Z := omap waited_of log.

(** ** Notions used to follow a call step by step *)

(** What one step of a call does: the limiter enters the callback of a
    task file, a callback performs an effect and gets its answer, a
    callback comes to its end. *)
Inductive Act :=
| Entered (index : nat) (taskFile : string)
| Performed (index : nat) (o : Obs)
| Ended (index : nat) (result : Settled Runner.TaskResult).

(** The effects the callback with index [i] performed, in order, and
    the callbacks entered, in order. *)
Definition effect_of (i : nat) (a : Act) : option Obs :=
  match a with
  | Performed j o => if decide (j = i) then Some o else None
  | _ => None
  end.

Definition effects_of (i : nat) (acts : list Act) : list Obs :=
  omap (effect_of i) acts.

Definition entered_of (a : Act) : option (nat * string) :=
  match a with
  | Entered i taskFile => Some (i, taskFile)
  | _ => None
  end.

Definition entered (acts : list Act) : list (nat * string) :=
  omap entered_of acts.

Section Followed.
Import Scheduler.
Context `{PathApi}.

(** [does maxJobs s a s']: the steps of [Scheduler.step], each with
    what it does. *)
Inductive does (maxJobs : nat) : Sched -> Act -> Sched -> Prop :=
| does_start s i taskFile rest :
    pending s = (i, taskFile) :: rest ->
    slot_free maxJobs (active s) ->
    does maxJobs s (Entered i taskFile)
      {| pending := rest;
         active := active s ++ [(i, task taskFile)];
         settled := settled s;
         successful := successful s;
         failed := failed s;
         claudePathVar := claudePathVar s;
         rejection := rejection s;
         timeline := timeline s ++ [Started i taskFile] |}
| does_effect s before i {X} (e : E X) k after x :
    active s = before ++ (i, Vis e k) :: after ->
    allowed (claudePathVar s) e x ->
    does maxJobs s (Performed i (Observed e x))
      {| pending := pending s;
         active := before ++ (i, k x) :: after;
         settled := settled s;
         successful := successful s;
         failed := failed s;
         claudePathVar := written (claudePathVar s) e;
         rejection := rejection s;
         timeline := timeline s |}
| does_finish s before i result after :
    active s = before ++ (i, Ret result) :: after ->
    does maxJobs s (Ended i (Fulfilled result))
      {| pending := pending s;
         active := before ++ after;
         settled := <[i := Some result]> (settled s);
         successful := if Runner.success result then S (successful s) else successful s;
         failed := if Runner.success result then failed s else S (failed s);
         claudePathVar := claudePathVar s;
         rejection := rejection s;
         timeline := timeline s ++ [Finished i (Fulfilled result)] |}
| does_reject s before i t after :
    active s = before ++ (i, Throw t) :: after ->
    does maxJobs s (Ended i (Rejected t))
      {| pending := pending s;
         active := before ++ after;
         settled := settled s;
         successful := successful s;
         failed := failed s;
         claudePathVar := claudePathVar s;
         rejection := Some (default t (rejection s));
         timeline := timeline s ++ [Finished i (Rejected t)] |}.

(** [transcript maxJobs s0 acts s]: the steps [acts], in this order,
    lead from [s0] to [s]. *)
Inductive transcript (maxJobs : nat) (s0 : Sched) : list Act -> Sched -> Prop :=
| transcript_nil : transcript maxJobs s0 [] s0
| transcript_snoc acts s a s' :
    transcript maxJobs s0 acts s ->
    does maxJobs s a s' ->
    transcript maxJobs s0 (acts ++ [a]) s'.

(** [call taskFiles maxJobs cache acts r cache']: a call
    [executeWithConcurrency(taskFiles, maxJobs)], made when the module
    variable holds [cache], takes the steps [acts] and then ends with
    [r], leaving [cache'] in the module variable. *)
Definition call (taskFiles : list string) (maxJobs : nat) (cache : option string)
    (acts : list Act) (r : Settled ExecutionSummary) (cache' : option string)
  : Prop :=
  exists s,
    transcript maxJobs (submit taskFiles cache) acts s
    /\ returned s = Some r
    /\ claudePathVar s = cache'.

(** *** One unit after the other, in a fixed environment *)

(** The steps of one callback from [p] on, and of the callbacks of
    [units] entered one after the other, each one when the one before
    has come to its end; the state the environment is left in. *)
Fixpoint acts_of_unit (w : World) (i : nat) (p : Proc Runner.TaskResult)
    (m : Machine) : list Act :=
  match p with
  | Ret result => [Ended i (Fulfilled result)]
  | Throw t => [Ended i (Rejected t)]
  | Vis e k =>
      let x := respond w e m in
      Performed i (Observed e x) :: acts_of_unit w i (k x) (record e x m)
  end.

Fixpoint sequential_acts (w : World) (units : list (nat * string)) (m : Machine)
  : list Act :=
  match units with
  | [] => []
  | (i, taskFile) :: rest =>
      Entered i taskFile
      :: acts_of_unit w i (task taskFile) m
      ++ sequential_acts w rest (interp w (task taskFile) m).2
  end.

Fixpoint machine_after (w : World) (units : list (nat * string)) (m : Machine)
  : Machine :=
  match units with
  | [] => m
  | (_, taskFile) :: rest => machine_after w rest (interp w (task taskFile) m).2
  end.

End Followed.

(** * Properties *)

(** The examples use the POSIX instance of the [path] interface. *)
#[local] Existing Instance Posix.posix.

(** ** The embedding on small inputs *)

Example formatDuration_hours : Utils.formatDuration 3725 = "1h 2m 5s".
Proof. reflexivity. Qed.

Example formatDuration_minutes : Utils.formatDuration 125 = "2m 5s".
Proof. reflexivity. Qed.

Example formatDuration_seconds : Utils.formatDuration 59 = "59s".
Proof. reflexivity. Qed.

Example calculateDuration_floors : Utils.calculateDuration 1000 3999 = 2.
Proof. reflexivity. Qed.

Example timestamp_of_iso :
  Utils.timestamp_of "2025-01-02T03:04:05.678Z" = "2025-01-02 03:04:05".
Proof. reflexivity. Qed.

Example trim_both_ends : Runner.trim "  /tasks/001 repo  " = "/tasks/001 repo".
Proof. reflexivity. Qed.

Example parse_task_md :
  Runner.parseRepoPaths Examples.task_md
  = Fulfilled {| Runner.taskDirPath := "/tasks/001_repo_main";
                 Runner.repoCodePath := "/tasks/001_repo_main/repo" |}.
Proof. reflexivity. Qed.

Example parse_without_fields :
  Runner.parseRepoPaths "# Task"
  = Rejected (JsError "Could not extract task directory from task file").
Proof. reflexivity. Qed.

Example parse_empty_field :
  Runner.parseRepoPaths "- **Task Directory**: 
- **Repository Code**: /r"
  = Rejected (JsError "Could not extract task directory from task file").
Proof. reflexivity. Qed.

Example posix_identifier :
  Scheduler.identifier "/tasks/001_repo_main/task.md" = "001_repo_main".
Proof. reflexivity. Qed.

Example runTask_succeeds :
  (fst (interp (Examples.world true 0)
          (Runner.runTask "/tasks/001_repo_main/task.md"
                          "/tasks/001_repo_main/execution.log") Examples.boot))
  = Fulfilled {| Runner.success := true;
                 Runner.taskName := "001_repo_main";
                 Runner.startTimestamp := "2025-01-01 00:00:00";
                 Runner.endTimestamp := "2025-01-01 00:00:02";
                 Runner.duration := 2;
                 Runner.formattedDuration := "2s";
                 Runner.logFile := Some "/tasks/001_repo_main/execution.log";
                 Runner.error := None |}.
Proof. vm_compute. reflexivity. Qed.

Example retry_three_times :
  Retry.delays
    (snd (Retry.retryWithBackoff
            (fun _ => Rejected (JsError "network") : Settled unit)
            {| Retry.maxRetries := 3; Retry.initialDelay := 1000;
               Retry.maxDelay := 8000; Retry.operationName := "Cloning o/r" |}))
  = [1000; 2000; 4000].
Proof. reflexivity. Qed.

Example retry_default_options :
  length (Retry.attempts
            (snd (Retry.retryWithBackoff
                    (fun _ => Rejected (JsError "network") : Settled unit)
                    Retry.default_options)))
  = 6%nat.
Proof. reflexivity. Qed.

(** ** The retrier *)

Section RetryFacts.
Import Retry.
Context {A : Type}.
Implicit Types (fn : nat -> Settled A) (o : RetryOptions).

Lemma attempts_retry n a b d acts :
  attempts (Call n :: Emit a :: Emit b :: Sleep d :: acts) = n :: attempts acts.
Proof. reflexivity. Qed.

Lemma delays_retry n a b d acts :
  delays (Call n :: Emit a :: Emit b :: Sleep d :: acts) = d :: delays acts.
Proof. reflexivity. Qed.

Lemma notices_retry n a b d acts :
  notices (Call n :: Emit a :: Emit b :: Sleep d :: acts) = a :: b :: notices acts.
Proof. reflexivity. Qed.

Lemma retry_loop_exhausted fn o fuel attempt lastError :
  Z.of_nat attempt + Z.of_nat fuel = maxRetries o + 1 ->
  (0 < fuel)%nat ->
  (forall j, Z.of_nat j <= maxRetries o -> exists t, fn j = Rejected t) ->
  exists t acts,
    retry_loop fn o fuel attempt lastError = (Raised (Some t), acts)
    /\ fn (Z.to_nat (maxRetries o)) = Rejected t
    /\ attempts acts = seq attempt fuel
    /\ delays acts
       = map (fun k : nat => Z.min (initialDelay o * 2 ^ Z.of_nat k) (maxDelay o))
             (seq attempt (fuel - 1))
    /\ last (notices acts)
       = Some (FailedAfter (operationName o) (maxRetries o + 1)).
Proof.
  revert attempt lastError.
  induction fuel as [|fuel IH]; intros attempt lastError Hsum Hpos Hfail; [lia|].
  destruct (Hfail attempt) as [t Ht]; [lia|]. simpl. rewrite Ht.
  destruct (Z.eqb_spec (Z.of_nat attempt) (maxRetries o)) as [Heq|Hne].
  - assert (fuel = 0%nat) as -> by lia.
    exists t, [Call attempt; Emit (FailedAfter (operationName o) (maxRetries o + 1))].
    rewrite <- Heq, Nat2Z.id. auto.
  - destruct (IH (S attempt) (Some t)) as (t' & acts & Hrun & Hlast & Hatt & Hdel & Hnot);
      [lia | lia | assumption |].
    rewrite Hrun. eexists _, _. split; [reflexivity|].
    split; [assumption|].
    rewrite attempts_retry, delays_retry, notices_retry, Hatt, Hdel.
    split; [reflexivity|]. split.
    + destruct fuel as [|fuel']; [lia|]. simpl. rewrite Nat.sub_0_r. reflexivity.
    + destruct (notices acts) as [|n ns] eqn:E; [discriminate|].
      destruct ns; exact Hnot.
Qed.

Lemma retry_loop_first_success fn o fuel attempt lastError k a :
  (k < fuel)%nat ->
  Z.of_nat attempt + Z.of_nat fuel = maxRetries o + 1 ->
  (forall j, (j < k)%nat -> exists t, fn (attempt + j)%nat = Rejected t) ->
  fn (attempt + k)%nat = Fulfilled a ->
  exists acts,
    retry_loop fn o fuel attempt lastError = (Returned a, acts)
    /\ attempts acts = seq attempt (S k)
    /\ delays acts
       = map (fun k : nat => Z.min (initialDelay o * 2 ^ Z.of_nat k) (maxDelay o))
             (seq attempt k).
Proof.
  revert attempt lastError k.
  induction fuel as [|fuel IH]; intros attempt lastError k Hk Hsum Hfail Hok; [lia|].
  simpl. destruct k as [|k].
  - rewrite Nat.add_0_r in Hok. rewrite Hok. eexists. repeat split.
  - destruct (Hfail 0%nat) as [t Ht]; [lia|]. rewrite Nat.add_0_r in Ht. rewrite Ht.
    destruct (Z.eqb_spec (Z.of_nat attempt) (maxRetries o)) as [Heq|Hne]; [lia|].
    destruct (IH (S attempt) (Some t) k) as (acts & Hrun & Hatt & Hdel).
    + lia.
    + lia.
    + intros j Hj. destruct (Hfail (S j)) as [t' Ht']; [lia|].
      exists t'. rewrite <- Ht'. f_equal. lia.
    + rewrite <- Hok. f_equal. lia.
    + rewrite Hrun. eexists. split; [reflexivity|].
      rewrite attempts_retry, delays_retry, Hatt, Hdel. auto.
Qed.

(** The actions of the loop, in blocks: one block for every attempt
    that is followed by another. *)
Lemma retry_loop_trace fn o fuel attempt lastError r acts :
  Z.of_nat attempt + Z.of_nat fuel = maxRetries o + 1 ->
  (0 < fuel)%nat ->
  retry_loop fn o fuel attempt lastError = (r, acts) ->
  exists n : nat,
    (n < fuel)%nat
    /\ delays acts
       = map (fun k : nat => Z.min (initialDelay o * 2 ^ Z.of_nat k) (maxDelay o))
             (seq attempt n)
    /\ notices acts
       = flat_map (fun k : nat =>
                     [AttemptFailed (operationName o) (Z.of_nat k + 1)
                                    (maxRetries o + 1);
                      RetryingIn (maxRetries o - Z.of_nat k)])
                  (seq attempt n)
         ++ match r with
            | Raised _ => [FailedAfter (operationName o) (maxRetries o + 1)]
            | Returned _ => []
            end
    /\ attempts acts = seq attempt (S n).
Proof.
  revert attempt lastError r acts.
  induction fuel as [|fuel IH]; intros attempt lastError r acts Hsum Hpos; [lia|].
  simpl. destruct (fn attempt) as [a|error].
  { intros [= <- <-]. exists 0%nat. split_and!; [lia|reflexivity..]. }
  destruct (Z.eqb_spec (Z.of_nat attempt) (maxRetries o)) as [Heq|Hne].
  { intros [= <- <-]. exists 0%nat. split_and!; [lia|reflexivity..]. }
  destruct (retry_loop fn o fuel (S attempt) (Some error)) as [r' acts'] eqn:Hrec.
  intros [= <- <-].
  apply IH in Hrec as (n & Hn & Hdel & Hnot & Hatt); [|lia..].
  exists (S n). split_and!; [lia| | |].
  - rewrite delays_retry, Hdel. reflexivity.
  - rewrite notices_retry, Hnot. reflexivity.
  - rewrite attempts_retry, Hatt. reflexivity.
Qed.

End RetryFacts.

(** C4. Against an operation that always fails, with a retry count
    [0 <= maxRetries < 2^53] (which the loop counter reaches exactly)
    and an initial delay [initialDelay > 0] (whose product with a power
    of two is that product, or [Infinity], which the cap replaces), the
    retrier makes exactly [maxRetries + 1] attempts; the delay before
    retry [k] (counted from 0) is [min (initialDelay * 2^k) maxDelay];
    with [maxRetries = 0] there is one attempt and no delay; with 3
    retries from 1000 ms the delays are 1000, 2000, 4000 ms under a cap
    of 8000 ms and 1000, 2000, 3000 ms under a cap of 3000 ms. *)
Theorem retry_attempts_and_delays {A} (fn : nat -> Settled A) (o : Retry.RetryOptions) :
  0 <= Retry.maxRetries o < 2 ^ 53 ->
  0 < Retry.initialDelay o ->
  Retry.always_fails fn ->
  let acts := (Retry.retryWithBackoff fn o).2 in
  Retry.attempts acts = seq 0 (Z.to_nat (Retry.maxRetries o) + 1)
  /\ length (Retry.delays acts) = Z.to_nat (Retry.maxRetries o)
  /\ (forall k : nat, (k < Z.to_nat (Retry.maxRetries o))%nat ->
        Retry.delays acts !! k
        = Some (Z.min (Retry.initialDelay o * 2 ^ Z.of_nat k) (Retry.maxDelay o)))
  /\ (Retry.maxRetries o = 0 ->
        Retry.attempts acts = [0%nat] /\ Retry.delays acts = [])
  /\ (Retry.maxRetries o = 3 -> Retry.initialDelay o = 1000 ->
      Retry.maxDelay o = 8000 ->
        length (Retry.attempts acts) = 4%nat
        /\ Retry.delays acts = [1000; 2000; 4000])
  /\ (Retry.maxRetries o = 3 -> Retry.initialDelay o = 1000 ->
      Retry.maxDelay o = 3000 ->
        length (Retry.attempts acts) = 4%nat
        /\ Retry.delays acts = [1000; 2000; 3000]).
Proof.
  intros [Hm _] _ Hfail acts.
  destruct (retry_loop_exhausted fn o (Z.to_nat (Retry.maxRetries o + 1)) 0 None)
    as (t & acts' & Hrun & _ & Hatt & Hdel & _).
  { lia. } { lia. } { intros j _. apply Hfail. }
  assert (acts = acts') as -> by (subst acts; unfold Retry.retryWithBackoff; now rewrite Hrun).
  replace (Z.to_nat (Retry.maxRetries o + 1) - 1)%nat
    with (Z.to_nat (Retry.maxRetries o)) in Hdel by lia.
  replace (Z.to_nat (Retry.maxRetries o + 1))
    with (Z.to_nat (Retry.maxRetries o) + 1)%nat in Hatt by lia.
  split; [exact Hatt|].
  split; [rewrite Hdel, length_map, length_seq; reflexivity|].
  split.
  { intros k Hk. rewrite Hdel, list_lookup_fmap, lookup_seq_lt by assumption.
    reflexivity. }
  split.
  { intros E0. rewrite Hatt, Hdel, E0. split; reflexivity. }
  split; intros E1 E2 E3; rewrite Hatt, Hdel, E1, E2, E3; split; reflexivity.
Qed.

Lemma retry_attempts_and_delays_witness :
  let o := {| Retry.maxRetries := 3; Retry.initialDelay := 1000;
              Retry.maxDelay := 3000; Retry.operationName := "Cloning o/r" |} in
  let acts := (Retry.retryWithBackoff
                 (fun _ => Rejected (JsError "network") : Settled unit) o).2 in
  length (Retry.attempts acts) = 4%nat
  /\ Retry.delays acts = [1000; 2000; 3000].
Proof.
  intros o acts.
  apply (retry_attempts_and_delays
           (fun _ => Rejected (JsError "network") : Settled unit) o);
    [ simpl; lia | simpl; lia | intros n; eexists; reflexivity | reflexivity .. ].
Defined.

(** C5, as the claim states it, fails: the value raised on exhaustion is
    the operation's own last failure, the same whatever the operation
    label is, so no label can be read off it.  Under the labels
    [Cloning o/r] and [Fetching o/r] an operation that always fails with
    [timeout] makes the retrier raise the very same value. *)
Lemma retry_raise_carries_no_label :
  let fn := fun _ : nat => Rejected (JsError "timeout") : Settled unit in
  let o1 := {| Retry.maxRetries := 1; Retry.initialDelay := 1000;
               Retry.maxDelay := 30000; Retry.operationName := "Cloning o/r" |} in
  let o2 := {| Retry.maxRetries := 1; Retry.initialDelay := 1000;
               Retry.maxDelay := 30000; Retry.operationName := "Fetching o/r" |} in
  ((Retry.retryWithBackoff fn o1).1 = Retry.Raised (Some (JsError "timeout"))
   /\ (Retry.retryWithBackoff fn o2).1 = Retry.Raised (Some (JsError "timeout")))
  /\ ~ (exists label_of : Thrown -> string,
          forall (f : nat -> Settled unit) (o : Retry.RetryOptions) (t : Thrown),
            (Retry.retryWithBackoff f o).1 = Retry.Raised (Some t) ->
            label_of t = Retry.operationName o).
Proof.
  intros fn o1 o2. split; [split; reflexivity|].
  intros [label_of Hlabel].
  pose proof (Hlabel fn o1 (JsError "timeout") eq_refl) as H1.
  pose proof (Hlabel fn o2 (JsError "timeout") eq_refl) as H2.
  rewrite H1 in H2. discriminate H2.
Qed.

(** C5, amended.  When attempt [k] is the first to succeed, and is one
    of the [maxRetries + 1] attempts the policy admits, the retrier
    returns that attempt's result after exactly [k + 1] attempts.  When
    every attempt up to the last, attempt [maxRetries], fails, the
    retrier raises the failure of the last attempt, unchanged.  The
    operation label is printed only: once in the notice of every failed
    attempt that is followed by another, and once in the notice that
    precedes the raise.  (The counts printed are exact below [2^53].) *)
Theorem retry_result {A} (fn : nat -> Settled A) (o : Retry.RetryOptions) :
  Retry.maxRetries o < 2 ^ 53 ->
  let failed_attempts := fun k : nat =>
    flat_map (fun j : nat =>
                [Retry.AttemptFailed (Retry.operationName o) (Z.of_nat j + 1)
                                     (Retry.maxRetries o + 1);
                 Retry.RetryingIn (Retry.maxRetries o - Z.of_nat j)])
             (seq 0 k) in
  (forall (k : nat) (a : A),
      Z.of_nat k <= Retry.maxRetries o ->
      (forall j, (j < k)%nat -> exists t, fn j = Rejected t) ->
      fn k = Fulfilled a ->
      exists acts,
        Retry.retryWithBackoff fn o = (Retry.Returned a, acts)
        /\ Retry.attempts acts = seq 0 (S k)
        /\ Retry.notices acts = failed_attempts k)
  /\ (forall n : nat,
        Z.of_nat n = Retry.maxRetries o ->
        (forall j : nat, (j <= n)%nat -> exists t, fn j = Rejected t) ->
        exists t acts,
          Retry.retryWithBackoff fn o = (Retry.Raised (Some t), acts)
          /\ fn n = Rejected t
          /\ Retry.attempts acts = seq 0 (S n)
          /\ Retry.notices acts
             = failed_attempts n
               ++ [Retry.FailedAfter (Retry.operationName o)
                                     (Retry.maxRetries o + 1)]).
Proof.
  intros _ failed_attempts. split.
  - intros k a Hk Hbefore Hok.
    destruct (retry_loop_first_success fn o (Z.to_nat (Retry.maxRetries o + 1))
                0 None k a) as (acts & Hrun & Hatt & Hdel); try assumption; try lia.
    exists acts. split_and!; try assumption.
    unfold Retry.retryWithBackoff in Hrun.
    apply retry_loop_trace in Hrun as (n & _ & Hdel' & Hnot & _); [|lia..].
    assert (n = k) as ->.
    { apply (f_equal length) in Hdel, Hdel'.
      rewrite length_map, length_seq in Hdel, Hdel'. congruence. }
    rewrite Hnot, app_nil_r. reflexivity.
  - intros n Hn Hfail.
    destruct (retry_loop_exhausted fn o (Z.to_nat (Retry.maxRetries o + 1)) 0 None)
      as (t & acts & Hrun & Hlast & Hatt & Hdel & _); try lia.
    { intros j Hj. apply Hfail. lia. }
    exists t, acts. split; [exact Hrun|].
    replace (Z.to_nat (Retry.maxRetries o)) with n in Hlast by lia.
    replace (Z.to_nat (Retry.maxRetries o + 1)) with (S n) in * by lia.
    split_and!; try assumption.
    apply retry_loop_trace in Hrun as (n' & _ & Hdel' & Hnot & _); [|lia..].
    assert (n' = n) as ->.
    { apply (f_equal length) in Hdel, Hdel'.
      rewrite length_map, length_seq in Hdel, Hdel'. simpl in Hdel. lia. }
    exact Hnot.
Qed.

Lemma retry_result_witness :
  let o := {| Retry.maxRetries := 2; Retry.initialDelay := 1000;
              Retry.maxDelay := 30000; Retry.operationName := "Cloning o/r" |} in
  let recovers := fun n : nat => if (n <? 1)%nat then Rejected (JsError "timeout")
                                 else Fulfilled n in
  let fails := fun _ : nat => Rejected (JsError "timeout") : Settled nat in
  (exists acts,
     Retry.retryWithBackoff recovers o = (Retry.Returned 1%nat, acts)
     /\ Retry.attempts acts = [0%nat; 1%nat]
     /\ Retry.notices acts
        = [Retry.AttemptFailed "Cloning o/r" 1 3; Retry.RetryingIn 2])
  /\ (exists t acts,
        Retry.retryWithBackoff fails o = (Retry.Raised (Some t), acts)
        /\ fails 2%nat = Rejected t
        /\ Retry.attempts acts = [0%nat; 1%nat; 2%nat]
        /\ Retry.notices acts
           = [Retry.AttemptFailed "Cloning o/r" 1 3; Retry.RetryingIn 2;
              Retry.AttemptFailed "Cloning o/r" 2 3; Retry.RetryingIn 1;
              Retry.FailedAfter "Cloning o/r" 3]).
Proof.
  intros o recovers fails.
  assert (Hm : Retry.maxRetries o < 2 ^ 53) by (simpl; lia).
  split.
  - refine (proj1 (retry_result recovers o Hm) 1%nat 1%nat _ _ _).
    + simpl. lia.
    + intros j Hj. exists (JsError "timeout").
      destruct j as [|j]; [reflexivity | lia].
    + reflexivity.
  - refine (proj2 (retry_result fails o Hm) 2%nat _ _).
    + reflexivity.
    + intros j _. exists (JsError "timeout"). reflexivity.
Defined.

(** ** Reasoning about asynchronous computations *)

Section Logic.
Context {A : Type}.
Implicit Types (p : Proc A) (Q : list Obs -> Settled A -> Prop).

Lemma wp_mono p Q Q' :
  (forall tr r, Q tr r -> Q' tr r) -> wp p Q -> wp p Q'.
Proof.
  revert Q Q'. induction p as [a|t|X e k IH]; simpl; intros Q Q' HQ Hp; auto.
  intros x. eapply IH; [|apply Hp]. simpl. auto.
Qed.

Lemma runs_inv p tr r :
  runs p tr r ->
  match p with
  | Ret a => tr = [] /\ r = Fulfilled a
  | Throw t => tr = [] /\ r = Rejected t
  | Vis e k => exists x tr', tr = Observed e x :: tr' /\ runs (k x) tr' r
  end.
Proof. destruct 1; eauto. Qed.

Lemma wp_runs p Q : wp p Q <-> forall tr r, runs p tr r -> Q tr r.
Proof.
  revert Q. induction p as [a|t|X e k IH]; simpl; intros Q.
  - split; [intros HQ tr r Hr; apply runs_inv in Hr as [-> ->]; exact HQ|].
    intros HQ. apply HQ. constructor.
  - split; [intros HQ tr r Hr; apply runs_inv in Hr as [-> ->]; exact HQ|].
    intros HQ. apply HQ. constructor.
  - split.
    + intros Hk tr r Hr. apply runs_inv in Hr as (x & tr' & -> & Hr).
      specialize (Hk x). rewrite IH in Hk. apply Hk. assumption.
    + intros HQ x. rewrite IH. intros tr r Hr. apply HQ. constructor. assumption.
Qed.

Lemma wp_trivial p : wp p (fun _ _ => True).
Proof. induction p; simpl; auto. Qed.

Lemma wp_catch p h Q :
  wp p (fun tr r =>
          match r with
          | Fulfilled a => Q tr (Fulfilled a)
          | Rejected t => wp (h t) (fun tr' r' => Q (tr ++ tr') r')
          end) ->
  wp (try_catch p h) Q.
Proof.
  revert Q. induction p as [a|t|X e k IH]; simpl; intros Q Hp; auto.
Qed.

End Logic.

Lemma wp_bind {A B} (p : Proc A) (f : A -> Proc B) Q :
  wp p (fun tr r =>
          match r with
          | Fulfilled a => wp (f a) (fun tr' r' => Q (tr ++ tr') r')
          | Rejected t => Q tr (Rejected t)
          end) ->
  wp (bind p f) Q.
Proof.
  revert Q. induction p as [a|t|X e k IH]; simpl; intros Q Hp; auto.
Qed.

(** Steps of a derivation: a leaf, and an effect followed by a leaf. *)
Ltac wp_leaf :=
  lazymatch goal with
  | |- wp (Ret ?a) ?Q => change (Q [] (Fulfilled a)); cbv beta iota
  | |- wp (mret ?a) ?Q => change (Q [] (Fulfilled a)); cbv beta iota
  | |- wp (Throw ?t) ?Q => change (Q [] (Rejected t)); cbv beta iota
  end.

Ltac wp_trigger x :=
  lazymatch goal with
  | |- wp (trigger ?e) ?Q =>
      change (forall x, Q [Observed e x] (Fulfilled x)); cbv beta iota; intros x
  end.

Ltac wp_await :=
  lazymatch goal with
  | |- wp (await ?e) ?Q =>
      change (forall r, wp match r with
                           | Fulfilled x => Ret x
                           | Rejected t => Throw t
                           end (fun tr r' => Q (Observed e r :: tr) r'));
      let r := fresh "answer" in intros r; destruct r; wp_leaf
  end.

Lemma spawns_app tr1 tr2 : spawns (tr1 ++ tr2) = spawns tr1 ++ spawns tr2.
Proof. apply omap_app. Qed.

(** *** The fixed environment is one of the environments *)

Lemma interp_bind {A B} w (p : Proc A) (f : A -> Proc B) m :
  interp w (bind p f) m
  = match interp w p m with
    | (Fulfilled a, m') => interp w (f a) m'
    | (Rejected t, m') => (Rejected t, m')
    end.
Proof.
  revert m. induction p as [a|t|X e k IH]; simpl; intros m; auto.
Qed.

Lemma interp_mbind {A B} w (p : Proc A) (f : A -> Proc B) m :
  interp w (p ≫= f) m
  = match interp w p m with
    | (Fulfilled a, m') => interp w (f a) m'
    | (Rejected t, m') => (Rejected t, m')
    end.
Proof. apply interp_bind. Qed.

Lemma interp_catch {A} w (p : Proc A) h m :
  interp w (try_catch p h) m
  = match interp w p m with
    | (Fulfilled a, m') => (Fulfilled a, m')
    | (Rejected t, m') => interp w (h t) m'
    end.
Proof.
  revert m. induction p as [a|t|X e k IH]; simpl; intros m; auto.
Qed.

Lemma interp_runs {A} w (p : Proc A) m r m' :
  interp w p m = (r, m') ->
  exists tr, history m' = history m ++ tr /\ runs p tr r.
Proof.
  revert m. induction p as [a|t|X e k IH]; simpl; intros m Hrun.
  - inversion Hrun; subst. exists []. rewrite app_nil_r. split; [reflexivity|constructor].
  - inversion Hrun; subst. exists []. rewrite app_nil_r. split; [reflexivity|constructor].
  - apply IH in Hrun as (tr & Hh & Hr). simpl in Hh.
    exists (Observed e (respond w e m) :: tr). split.
    + rewrite Hh, <- app_assoc. reflexivity.
    + constructor. assumption.
Qed.

Lemma interp_wp {A} w (p : Proc A) Q m :
  wp p Q ->
  exists r m' tr,
    interp w p m = (r, m') /\ history m' = history m ++ tr /\ Q tr r.
Proof.
  intros Hp. destruct (interp w p m) as [r m'] eqn:Hrun.
  destruct (interp_runs _ _ _ _ _ Hrun) as (tr & Hh & Hr).
  exists r, m', tr. repeat split; try assumption.
  rewrite wp_runs in Hp. apply Hp. assumption.
Qed.

(** Evaluation in a fixed environment, one step at a time. *)
Ltac ev :=
  cbn [interp mret proc_ret mbind proc_bind bind try_catch trigger await dollar
       respond negb].

Ltac ev_bind := first [rewrite interp_mbind | rewrite interp_bind].

(** ** The task runner *)

Section RunnerFacts.
Import Runner.
Context `{PathApi}.

Lemma append_nonempty s c t : s +:+ String c t <> "".
Proof. destruct s; discriminate. Qed.

Lemma candidate_paths_nonempty home :
  Forall (fun p => p <> "") (candidate_paths home).
Proof.
  unfold candidate_paths.
  repeat (apply Forall_cons; split; [first [apply append_nonempty | discriminate]|]).
  constructor.
Qed.

Lemma first_existing_detected paths otherwise :
  Forall (fun p => p <> "") paths ->
  wp otherwise detected ->
  wp (first_existing paths otherwise) detected.
Proof.
  induction 1 as [|p ps Hp Hps IH]; intros Hother; simpl; [assumption|].
  intros [[|]|t]; simpl.
  - split; [reflexivity|]. eauto.
  - eapply wp_mono; [|apply IH, Hother]. intros tr r [Hs Hr]. split; assumption.
  - eapply wp_mono; [|apply IH, Hother]. intros tr r [Hs Hr]. split; assumption.
Qed.

Lemma detectClaudePath_detected : wp detectClaudePath detected.
Proof.
  unfold detectClaudePath. apply wp_bind. wp_trigger home.
  eapply wp_mono; [|apply first_existing_detected].
  - intros tr r [Hs Hr]. split; assumption.
  - apply candidate_paths_nonempty.
  - simpl. intros out. destruct (exitCode out =? 0); simpl.
    + case_bool_decide as Hempty; simpl.
      * split; [reflexivity|]. eexists; split; [reflexivity|discriminate].
      * intros [[|]|t]; simpl; (split; [reflexivity|]);
          eexists; (split; [reflexivity|]); first [assumption|discriminate].
    + split; [reflexivity|]. eexists; split; [reflexivity|discriminate].
Qed.

(** The conditional [if (!claudePath) { claudePath = await
    detectClaudePath(); }]. *)
Lemma ensure_detected cached :
  wp (if not_cached cached
      then detected ← detectClaudePath; trigger (WriteClaudePath detected)
      else mret tt)
     (fun tr r => spawns tr = [] /\ r = Fulfilled tt).
Proof.
  destruct (not_cached cached); [|wp_leaf; split; reflexivity].
  apply wp_bind. eapply wp_mono; [|apply detectClaudePath_detected].
  intros tr r [Hs (p & -> & _)]. wp_trigger u.
  rewrite spawns_app, Hs. split; [reflexivity|]. destruct u; reflexivity.
Qed.

Lemma formatTimestamp_exact :
  wp Utils.formatTimestamp
     (fun tr r =>
        exists iso,
          tr = [Observed NewDateISO iso] /\ r = Fulfilled (Utils.timestamp_of iso)).
Proof.
  unfold Utils.formatTimestamp. apply wp_bind. wp_trigger iso. wp_leaf. eauto.
Qed.

Lemma stop_clock_exact startTime :
  wp (stop_clock startTime)
     (fun tr r =>
        exists iso now,
          tr = [Observed NewDateISO iso; Observed DateNow now]
          /\ r = Fulfilled (Utils.timestamp_of iso,
                            Utils.calculateDuration startTime now,
                            Utils.formatDuration
                              (Utils.calculateDuration startTime now))).
Proof.
  unfold stop_clock. apply wp_bind.
  eapply wp_mono; [|apply formatTimestamp_exact].
  intros tr r (iso & -> & ->). apply wp_bind. wp_trigger now. wp_leaf. eauto.
Qed.

Lemma formatTimestamp_wp :
  wp Utils.formatTimestamp
     (fun tr r => spawns tr = [] /\ exists s, r = Fulfilled s).
Proof.
  eapply wp_mono; [|apply formatTimestamp_exact].
  intros tr r (iso & -> & ->). split; [reflexivity|]. eauto.
Qed.

Lemma stop_clock_wp startTime :
  wp (stop_clock startTime)
     (fun tr r => spawns tr = [] /\ exists a b c, r = Fulfilled (a, b, c)).
Proof.
  eapply wp_mono; [|apply stop_clock_exact].
  intros tr r (iso & now & -> & ->). split; [reflexivity|]. eauto.
Qed.

Lemma runTask_post_spawns taskFile log tr tr' r :
  spawns tr' = spawns tr ->
  runTask_post taskFile log tr r -> runTask_post taskFile log tr' r.
Proof. unfold runTask_post. intros ->. auto. Qed.

Lemma runTask_wp taskFile log :
  wp (runTask taskFile log) (runTask_post taskFile log).
Proof.
  unfold runTask.
  apply wp_bind. eapply wp_mono; [|apply formatTimestamp_wp].
  intros tr0 r [Hs0 [startTimestamp ->]].
  apply wp_bind. wp_trigger startTime.
  apply wp_catch.
  apply wp_bind. wp_trigger cached.
  apply wp_bind. eapply wp_mono; [|apply ensure_detected].
  intros tr1 r [Hs1 ->].
  eapply wp_mono with
    (Q := fun tr' r' => match r' with
                        | Fulfilled a => runTask_post taskFile log tr' (Fulfilled a)
                        | Rejected t => spawns tr' = []
                        end).
  { intros tr' [a|t] Hpost.
    - eapply runTask_post_spawns; [|exact Hpost].
      rewrite !spawns_app, Hs0, Hs1. reflexivity.
    - apply wp_bind. eapply wp_mono; [|apply stop_clock_wp].
      intros tr2 r [Hs2 (a & b & c & ->)]. wp_leaf.
      eexists. split; [reflexivity|]. split; [reflexivity|].
      rewrite !spawns_app, Hs0, Hs1, Hpost, Hs2. simpl. eauto. }
  apply wp_bind. unfold extractRepoPaths. apply wp_bind. wp_await; [|reflexivity].
  destruct (parseRepoPaths a) as [paths|t]; [|wp_leaf; reflexivity].
  wp_leaf. apply wp_bind. wp_await; [|reflexivity].
  destruct a0; cbn [negb]; [|wp_leaf; reflexivity].
  apply wp_bind. wp_await; [|reflexivity].
  apply wp_bind. wp_await; [|reflexivity].
  apply wp_bind. apply wp_catch. apply wp_bind. wp_trigger exe.
  apply wp_bind. unfold dollar. intros out.
  destruct (Z.eqb_spec (exitCode out) 0) as [Hzero|Hnonzero]; wp_leaf.
  - wp_leaf. apply wp_bind. eapply wp_mono; [|apply stop_clock_wp].
    intros tr2 r [Hs2 (x & y & z & ->)]. wp_leaf.
    eexists. split; [reflexivity|]. split; [reflexivity|].
    rewrite !spawns_app, Hs2. simpl. rewrite bool_decide_eq_true_2 by assumption.
    auto.
  - apply wp_bind. eapply wp_mono; [|apply stop_clock_wp].
    intros tr2 r [Hs2 (x & y & z & ->)]. wp_leaf. wp_leaf.
    eexists. split; [reflexivity|]. split; [reflexivity|].
    rewrite !spawns_app, Hs2. simpl. rewrite bool_decide_eq_false_2 by assumption.
    auto.
Qed.

Lemma wp_conj {A} (p : Proc A) Q1 Q2 :
  wp p Q1 -> wp p Q2 -> wp p (fun tr r => Q1 tr r /\ Q2 tr r).
Proof.
  rewrite !wp_runs. intros H1 H2 tr r Hr. split; [apply H1|apply H2]; assumption.
Qed.

Ltac ends_with_clock :=
  first [ reflexivity
        | apply suffix_app_r; ends_with_clock
        | apply suffix_cons_r; ends_with_clock ].

Lemma runTask_timing_wp taskFile log :
  wp (runTask taskFile log) runTask_timing.
Proof.
  unfold runTask.
  apply wp_bind. eapply wp_mono; [|apply formatTimestamp_exact].
  intros tr0 r (iso0 & -> & ->).
  apply wp_bind. wp_trigger startTime.
  apply wp_catch.
  eapply wp_mono with
    (Q := fun tr' r' =>
            match r' with
            | Fulfilled o =>
                exists iso1 t1,
                  [Observed NewDateISO iso1; Observed DateNow t1] `suffix_of` tr'
                  /\ startTimestamp o = Utils.timestamp_of iso0
                  /\ endTimestamp o = Utils.timestamp_of iso1
                  /\ duration o = Utils.calculateDuration startTime t1
                  /\ formattedDuration o = Utils.formatDuration (duration o)
            | Rejected _ => True
            end).
  { intros tr' [o|t] Hpost.
    - destruct Hpost as (iso1 & t1 & [mid ->] & Hfields).
      exists o, iso0, startTime, mid, iso1, t1. split; [reflexivity|].
      split; [reflexivity|]. exact Hfields.
    - apply wp_bind. eapply wp_mono; [|apply stop_clock_exact].
      intros tr2 r (iso1 & t1 & -> & ->). wp_leaf.
      eexists _, iso0, startTime, tr', iso1, t1. split; [reflexivity|].
      split; [|repeat split].
      simpl. rewrite ?app_nil_r. reflexivity. }
  apply wp_bind. wp_trigger cached.
  apply wp_bind. eapply wp_mono; [|apply ensure_detected].
  intros tr1 r [_ ->].
  apply wp_bind. unfold extractRepoPaths. apply wp_bind. wp_await; [|exact I].
  destruct (parseRepoPaths a) as [paths|t]; [|wp_leaf; exact I].
  wp_leaf. apply wp_bind. wp_await; [|exact I].
  destruct a0; cbn [negb]; [|wp_leaf; exact I].
  apply wp_bind. wp_await; [|exact I].
  apply wp_bind. wp_await; [|exact I].
  apply wp_bind. apply wp_catch. apply wp_bind. wp_trigger exe.
  apply wp_bind. unfold dollar. intros out.
  destruct (exitCode out =? 0); wp_leaf.
  - wp_leaf. apply wp_bind. eapply wp_mono; [|apply stop_clock_exact].
    intros tr2 r (iso1 & t1 & -> & ->). wp_leaf.
    exists iso1, t1. split; [ends_with_clock|]. repeat split.
  - apply wp_bind. eapply wp_mono; [|apply stop_clock_exact].
    intros tr2 r (iso1 & t1 & -> & ->). wp_leaf. wp_leaf.
    exists iso1, t1. split; [ends_with_clock|]. repeat split.
Qed.

(** *** In a fixed environment *)

Lemma interp_trigger {X} w (e : E X) m :
  interp w (trigger e) m = (Fulfilled (respond w e m), record e (respond w e m) m).
Proof. reflexivity. Qed.

Lemma interp_await {X} w (e : E (Settled X)) m :
  interp w (await e) m = (respond w e m, record e (respond w e m) m).
Proof. unfold await. simpl. destruct (respond w e m); reflexivity. Qed.

Lemma interp_dollar w c m :
  interp w (dollar c) m
  = (if exitCode (run_process w c) =? 0 then Fulfilled (run_process w c)
     else Rejected (ProcessFailed (run_process w c)),
     record (Dollar c) (run_process w c) m).
Proof. unfold dollar. simpl. destruct (exitCode (run_process w c) =? 0); reflexivity. Qed.

Lemma interp_stop_clock w startTime m :
  exists a b c m', interp w (stop_clock startTime) m = (Fulfilled (a, b, c), m').
Proof.
  destruct (interp_wp w _ _ m (stop_clock_wp startTime))
    as (r & m' & tr & Hrun & _ & _ & a & b & c & ->).
  eauto.
Qed.

Ltac ev_stop :=
  repeat ev_bind;
  lazymatch goal with
  | |- context [interp ?w (stop_clock ?t) ?m] =>
      let a := fresh "endTimestamp" in
      let b := fresh "duration" in
      let c := fresh "formattedDuration" in
      let m' := fresh "m" in
      destruct (interp_stop_clock w t m) as (a & b & c & m' & ->)
  end;
  ev; eexists _, _; (split; [reflexivity|]); cbn; eauto.

(** The result of [runTask] in a fixed environment, read off the checks
    in the order the code makes them. *)
Lemma interp_runTask w m taskFile log :
  exists o m',
    interp w (runTask taskFile log) m = (Fulfilled o, m')
    /\ match fs_readFile w taskFile with
       | Rejected t => success o = false /\ error o = Some (message t)
       | Fulfilled content =>
           match parseRepoPaths content with
           | Rejected t => success o = false /\ error o = Some (message t)
           | Fulfilled paths =>
               match fs_pathExists w (repoCodePath paths) with
               | Rejected t => success o = false /\ error o = Some (message t)
               | Fulfilled false =>
                   success o = false
                   /\ error o = Some ("Repository code directory does not exist: "
                                      +:+ repoCodePath paths)
               | Fulfilled true =>
                   match fs_ensureDir w (path_dirname log) with
                   | Rejected t =>
                       success o = false /\ error o = Some (message t)
                   | Fulfilled _ =>
                       exists exe,
                         success o
                         = bool_decide
                             (exitCode (run_process w
                                (RunClaude (repoCodePath paths) content exe
                                           (path_resolve log))) = 0)
                         /\ error o = None /\ logFile o = Some log
                   end
               end
           end
       end.
Proof.
  unfold runTask, extractRepoPaths. ev.
  ev_bind.
  destruct (interp_wp w _ _ m formatTimestamp_wp)
    as (r0 & m0 & tr0 & -> & _ & _ & startTimestamp & ->).
  ev. rewrite interp_catch. ev_bind.
  match goal with
  | |- context [interp w (if not_cached ?c then _ else _) ?mm] =>
      destruct (interp_wp w _ _ mm (ensure_detected c))
        as (r1 & m1 & tr1 & -> & _ & _ & ->)
  end.
  ev. destruct (fs_readFile w taskFile) as [content|t] eqn:Hread; ev; [|ev_stop].
  destruct (parseRepoPaths content) as [paths|t]; ev; [|ev_stop].
  destruct (fs_pathExists w (repoCodePath paths)) as [[|]|t]; ev; [|ev_stop..].
  rewrite Hread. ev.
  destruct (fs_ensureDir w (path_dirname log)) as [[]|t]; ev; [|ev_stop].
  match goal with
  | |- context [exitCode ?out =? 0] =>
      destruct (Z.eqb_spec (exitCode out) 0) as [Hzero|Hnonzero]
  end; ev; ev_stop.
  - eexists. rewrite bool_decide_eq_true_2 by exact Hzero. auto.
  - eexists. rewrite bool_decide_eq_false_2 by exact Hnonzero. auto.
Qed.

(** In a fixed environment the child processes [runTask] started can
    be told from its result. *)
Lemma interp_runTask_spawns w m taskFile log o m' :
  interp w (runTask taskFile log) m = (Fulfilled o, m') ->
  exists tr,
    history m' = history m ++ tr
    /\ runTask_post taskFile log tr (Fulfilled o).
Proof.
  intros Hrun. destruct (interp_runs _ _ _ _ _ Hrun) as (tr & Hh & Hr).
  exists tr. split; [assumption|].
  pose proof (runTask_wp taskFile log) as Hwp. rewrite wp_runs in Hwp.
  apply Hwp. assumption.
Qed.

Lemma interp_first_existing_none w paths otherwise m :
  (forall p, p ∈ paths -> fs_pathExists w p <> Fulfilled true) ->
  exists m',
    interp w (first_existing paths otherwise) m = interp w otherwise m'
    /\ claudePath m' = claudePath m.
Proof.
  revert m. induction paths as [|p ps IH]; intros m Hnone.
  - exists m. split; reflexivity.
  - cbn [first_existing]. ev.
    assert (fs_pathExists w p <> Fulfilled true) as Hp by (apply Hnone; left).
    destruct (fs_pathExists w p) as [[|]|t]; [congruence| |]; ev;
      (edestruct IH as (m' & -> & Hc); [intros q Hq; apply Hnone; right; exact Hq|]);
      exists m'; (split; [reflexivity|]); rewrite Hc; reflexivity.
Qed.

End RunnerFacts.

(** C8, as the claim states it, fails: the result returned from the
    outer [catch] has no [logFile] property.  A unit whose repository
    directory is missing gets a failed result with an error detail and
    no log file path. *)
Lemma failed_result_has_no_log_file :
  exists o m',
    interp (Examples.world false 0)
      (Runner.runTask "/tasks/001_repo_main/task.md"
                      "/tasks/001_repo_main/execution.log") Examples.boot
    = (Fulfilled o, m')
    /\ Runner.taskName o = "001_repo_main"
    /\ Runner.success o = false
    /\ Runner.logFile o = None
    /\ Runner.error o
       = Some "Repository code directory does not exist: /tasks/001_repo_main/repo".
Proof.
  eexists _, _. split; [vm_compute; reflexivity|]. repeat split.
Qed.

(** C8, amended.  In every environment [runTask] returns a result that
    bears the unit identifier, a success flag, the start and end
    timestamps and the duration read off the clock first and last, and
    either the log file path and no error detail, when the agent
    process was started, or an error detail and no log file path, when
    it was not; in the second case the result is a failure. *)
Theorem every_result_is_complete `{PathApi} (taskFile log : string) :
  wp (Runner.runTask taskFile log)
     (fun tr r =>
        exists o iso0 t0 mid iso1 t1,
          r = Fulfilled o
          /\ tr = Observed NewDateISO iso0 :: Observed DateNow t0
                  :: mid ++ [Observed NewDateISO iso1; Observed DateNow t1]
          /\ Runner.taskName o = path_basename (path_dirname taskFile)
          /\ Runner.startTimestamp o = Utils.timestamp_of iso0
          /\ Runner.endTimestamp o = Utils.timestamp_of iso1
          /\ Runner.duration o = Utils.calculateDuration t0 t1
          /\ Runner.formattedDuration o = Utils.formatDuration (Runner.duration o)
          /\ ((spawns tr <> [] /\ Runner.logFile o = Some log
               /\ Runner.error o = None)
              \/ (spawns tr = [] /\ Runner.logFile o = None
                  /\ is_Some (Runner.error o) /\ Runner.success o = false))).
Proof.
  eapply wp_mono;
    [|apply (wp_conj _ _ _ (runTask_wp taskFile log) (runTask_timing_wp taskFile log))].
  intros tr r [(o & -> & Hname & Hcase)
               (o' & iso0 & t0 & mid & iso1 & t1 & Ho & Htr & Hfields)].
  injection Ho as <-.
  exists o, iso0, t0, mid, iso1, t1. split; [reflexivity|]. split; [exact Htr|].
  split; [exact Hname|].
  destruct Hfields as (? & ? & ? & ?). split_and!; try assumption.
  destruct (spawns tr) as [|[c out] [|]]; [right|left|contradiction].
  - destruct Hcase as (? & ? & t & ->). split_and!; eauto.
  - destruct Hcase as (? & ? & ?). split_and!; [discriminate|assumption..].
Qed.

(** ** The scheduler *)

Section SchedulerFacts.
Import Runner Scheduler.
Context `{PathApi}.

Lemma residual_refl {A} (p : Proc A) : residual p p.
Proof. exists []. auto. Qed.

Lemma residual_step {A X} (p0 : Proc A) (e : E X) k x :
  residual p0 (Vis e k) -> residual p0 (k x).
Proof.
  intros [hist Hres]. exists (hist ++ [Observed e x]). intros tr r Hr.
  rewrite <- app_assoc. apply Hres. constructor. assumption.
Qed.

Lemma residual_ret {A} (p0 : Proc A) a :
  residual p0 (Ret a) -> exists hist, runs p0 hist (Fulfilled a).
Proof.
  intros [hist Hres]. exists hist.
  rewrite <- (app_nil_r hist). apply Hres. constructor.
Qed.

Lemma residual_throw {A} (p0 : Proc A) t :
  residual p0 (Throw t) -> exists hist, runs p0 hist (Rejected t).
Proof.
  intros [hist Hres]. exists hist.
  rewrite <- (app_nil_r hist). apply Hres. constructor.
Qed.

(** A callback never rejects. *)
Lemma task_never_rejects taskFile hist t :
  ~ runs (task taskFile) hist (Rejected t).
Proof.
  intros Hr. unfold task in Hr.
  pose proof (runTask_wp taskFile
                (path_join (path_dirname taskFile) "execution.log")) as Hwp.
  rewrite wp_runs in Hwp. destruct (Hwp _ _ Hr) as (o & Ho & _). discriminate.
Qed.

Lemma omap_insert_None {A} (l : list (option A)) i a :
  l !! i = Some None ->
  exists l1 l2,
    omap id l = l1 ++ l2 /\ omap id (<[i := Some a]> l) = l1 ++ a :: l2.
Proof.
  intros Hi. exists (omap id (take i l)), (omap id (drop (S i) l)). split.
  - rewrite <- (take_drop_middle l i None Hi) at 1. rewrite omap_app. reflexivity.
  - rewrite insert_take_drop by (eapply lookup_lt_Some, Hi).
    rewrite omap_app. reflexivity.
Qed.

Lemma successes_insert (l : list (option TaskResult)) i r :
  l !! i = Some None ->
  successes (omap id (<[i := Some r]> l))
  = if success r then S (successes (omap id l)) else successes (omap id l).
Proof.
  intros Hi. destruct (omap_insert_None l i r Hi) as (l1 & l2 & -> & ->).
  unfold successes. rewrite !filter_app, filter_cons, !length_app.
  destruct (success r); case_decide; try congruence; simpl; lia.
Qed.

Lemma failures_insert (l : list (option TaskResult)) i r :
  l !! i = Some None ->
  failures (omap id (<[i := Some r]> l))
  = if success r then failures (omap id l) else S (failures (omap id l)).
Proof.
  intros Hi. destruct (omap_insert_None l i r Hi) as (l1 & l2 & -> & ->).
  unfold failures. rewrite !filter_app, filter_cons, !length_app.
  destruct (success r); case_decide; try congruence; simpl; lia.
Qed.

Lemma drop_imap_head (taskFiles : list string) k i taskFile rest :
  drop k (imap (fun i taskFile => (i, taskFile)) taskFiles) = (i, taskFile) :: rest ->
  i = k /\ taskFiles !! k = Some taskFile /\ (k < length taskFiles)%nat
  /\ rest = drop (S k) (imap (fun i taskFile => (i, taskFile)) taskFiles).
Proof.
  intros Hdrop.
  assert (imap (fun i taskFile => (i, taskFile)) taskFiles !! k = Some (i, taskFile))
    as Hk.
  { pose proof (f_equal (fun l => l !! 0%nat) Hdrop) as H0. simpl in H0.
    rewrite lookup_drop, Nat.add_0_r in H0. exact H0. }
  rewrite list_lookup_imap in Hk.
  destruct (taskFiles !! k) as [tf|] eqn:Htf; [|discriminate].
  injection Hk as <- <-. repeat split.
  - eapply lookup_lt_Some, Htf.
  - replace (S k) with (k + 1)%nat by lia. rewrite <- drop_drop, Hdrop. reflexivity.
Qed.

Section Run.
Variable taskFiles : list string.
Variable maxJobs : nat.

Lemma invariant_submit cache :
  invariant taskFiles maxJobs (submit taskFiles cache).
Proof.
  exists 0%nat. simpl. split_and!.
  - lia.
  - reflexivity.
  - reflexivity.
  - constructor.
  - intros i p Hin. inversion Hin.
  - apply length_replicate.
  - intros i _ Hi. apply lookup_replicate_2. assumption.
  - intros i Hi. lia.
  - intros i o Hi. apply lookup_replicate in Hi as [? _]. discriminate.
  - induction (length taskFiles); [reflexivity|assumption].
  - induction (length taskFiles); [reflexivity|assumption].
  - reflexivity.
  - lia.
Qed.

Lemma invariant_step s s' :
  invariant taskFiles maxJobs s -> step maxJobs s s' ->
  invariant taskFiles maxJobs s'.
Proof.
  intros (k & Hk & Hpending & Hstarted & Hnodup & Hactive & Hlen & Hlater
          & Hearlier & Hdone & Hsucc & Hfail & Hrej & Hbound) Hstep.
  destruct Hstep as [s i taskFile rest Hhead Hfree
                    | s before i X e cont after x Hjob Hallowed
                    | s before i result after Hjob
                    | s before i t after Hjob].
  - (* a callback is entered *)
    rewrite Hpending in Hhead.
    apply drop_imap_head in Hhead as (-> & Htf & HkN & ->).
    exists (S k). simpl. split_and!; try assumption.
    + reflexivity.
    + unfold started in *. rewrite omap_app, Hstarted. simpl.
      symmetry. apply take_S_r. assumption.
    + rewrite fmap_app. simpl. apply NoDup_app. split_and!.
      * assumption.
      * intros j Hj Hj'. apply list_elem_of_singleton in Hj' as ->.
        apply list_elem_of_fmap in Hj as ([j q] & -> & Hin).
        apply Hactive in Hin as [Hlt _]. simpl in Hlt. lia.
      * apply NoDup_singleton.
    + intros j q Hjq. apply elem_of_app in Hjq as [Hin|Hin].
      * apply Hactive in Hin as (Hlt & Hs & Ht). split_and!; [lia|assumption..].
      * apply list_elem_of_singleton in Hin. injection Hin as -> ->.
        split_and!; [lia|apply Hlater; lia|].
        exists taskFile. split; [assumption|apply residual_refl].
    + intros j Hj HjN. apply Hlater; lia.
    + intros j Hj Hnone. rewrite fmap_app. apply elem_of_app.
      destruct (decide (j = k)) as [->|Hne]; [right; simpl; left|].
      left. apply Hearlier; [lia|assumption].
    + unfold slot_free in Hfree. rewrite length_app. simpl. lia.
  - (* a callback performs an effect *)
    assert (Hfst : (before ++ (i, cont x) :: after).*1 = (active s).*1)
      by (rewrite Hjob, !fmap_app, !fmap_cons; reflexivity).
    assert (Hold : forall j q, (j, q) ∈ before ++ (i, cont x) :: after ->
              (j, q) ∈ active s \/ (j = i /\ q = cont x /\ (i, Vis e cont) ∈ active s)).
    { intros j q Hin. rewrite Hjob.
      apply elem_of_app in Hin as [Hin|Hin]; [left; apply elem_of_app; auto|].
      apply elem_of_cons in Hin as [Hin|Hin].
      - injection Hin as -> ->. right. split_and!; [reflexivity..|].
        apply elem_of_app. right. left.
      - left. apply elem_of_app. right. right. assumption. }
    exists k. simpl. rewrite Hfst. split_and!; try assumption.
    + intros j q Hjq. apply Hold in Hjq as [Hin|(-> & -> & Hin)];
        apply Hactive in Hin as (Hlt & Hs & tf & Htf & Hres);
        (split_and!; [assumption..|]); exists tf; (split; [assumption|]);
        [assumption|].
      eapply residual_step, Hres.
    + rewrite length_app in *. rewrite Hjob, length_app in Hbound. simpl in *. lia.
  - (* a callback is left with a result *)
    assert (Hin : (i, Ret result) ∈ active s)
      by (rewrite Hjob; apply elem_of_app; right; left).
    destruct (Hactive _ _ Hin) as (Hik & Hnone & tf & Htf & Hres).
    rewrite Hjob, fmap_app, fmap_cons in Hnodup. simpl in Hnodup.
    apply NoDup_app in Hnodup as (Hnd1 & Hnot & Hnd2).
    apply NoDup_cons in Hnd2 as [Hnotafter Hnd2].
    assert (Hfresh : i ∉ (before ++ after).*1).
    { rewrite fmap_app. intros Hi. apply elem_of_app in Hi as [Hi|Hi].
      - apply (Hnot i Hi). left.
      - contradiction. }
    assert (Hsub : forall j q, (j, q) ∈ before ++ after -> (j, q) ∈ active s /\ j <> i).
    { intros j q Hjq. split.
      - rewrite Hjob. apply elem_of_app in Hjq as [Hjq|Hjq]; apply elem_of_app;
          [left|right; right]; assumption.
      - intros ->. apply Hfresh. apply list_elem_of_fmap. exists (i, q). auto. }
    assert (Hstarted' : started (timeline s ++ [Finished i (Fulfilled result)])
                        = take k taskFiles).
    { unfold started in *. rewrite omap_app, Hstarted. simpl. apply app_nil_r. }
    exists k. simpl. split_and!; try assumption.
    + rewrite fmap_app. apply NoDup_app. split_and!; try assumption.
      intros j Hj Hj'. apply (Hnot j Hj). right. assumption.
    + intros j q Hjq. apply Hsub in Hjq as [Hjq Hne].
      apply Hactive in Hjq as (Hlt & Hs & Ht). split_and!; try assumption.
      rewrite list_lookup_insert_ne by auto. assumption.
    + rewrite length_insert. assumption.
    + intros j Hj HjN. rewrite list_lookup_insert_ne by lia. apply Hlater; assumption.
    + intros j Hj Hjnone.
      destruct (decide (j = i)) as [->|Hne].
      { rewrite list_lookup_insert_eq in Hjnone by lia. discriminate. }
      rewrite list_lookup_insert_ne in Hjnone by auto.
      pose proof (Hearlier j Hj Hjnone) as Hj'.
      rewrite Hjob, fmap_app, fmap_cons in Hj'. simpl in Hj'.
      rewrite fmap_app. apply elem_of_app in Hj' as [Hj'|Hj']; apply elem_of_app;
        [left; assumption|].
      apply elem_of_cons in Hj' as [->|Hj']; [contradiction|right; assumption].
    + intros j o Hjo. destruct (decide (j = i)) as [->|Hne].
      * rewrite list_lookup_insert_eq in Hjo by lia. injection Hjo as <-.
        apply residual_ret in Hres as [hist Hruns]. eauto.
      * rewrite list_lookup_insert_ne in Hjo by auto. eapply Hdone, Hjo.
    + rewrite successes_insert by assumption. rewrite Hsucc. reflexivity.
    + rewrite failures_insert by assumption. rewrite Hfail. reflexivity.
    + rewrite Hjob, !length_app in Hbound. rewrite length_app. simpl in *. lia.
  - (* a callback never throws *)
    assert (Hin : (i, Throw t) ∈ active s)
      by (rewrite Hjob; apply elem_of_app; right; left).
    destruct (Hactive _ _ Hin) as (_ & _ & tf & _ & Hres).
    apply residual_throw in Hres as [hist Hruns].
    destruct (task_never_rejects _ _ _ Hruns).
Qed.

Lemma invariant_reachable cache s :
  reachable taskFiles maxJobs cache s -> invariant taskFiles maxJobs s.
Proof.
  unfold reachable. revert s. apply rtc_ind_r; [apply invariant_submit|].
  intros s s' _ Hstep Hinv. eapply invariant_step; eassumption.
Qed.

(** *** Every call can run to completion *)

Lemma allowed_some_answer c {X} (e : E X) : allowed c e (some_answer c e).
Proof. destruct e; simpl; auto. Qed.

Lemma drain_job p :
  forall s before i after,
    active s = before ++ (i, p) :: after ->
    exists s' r,
      rtc (step maxJobs) s s'
      /\ active s' = before ++ after /\ pending s' = pending s
      /\ timeline s' = timeline s ++ [Finished i r].
Proof.
  induction p as [result|t|X e cont IH]; intros s before i after Hjob.
  - eexists _, _. split; [apply rtc_once; eapply step_finish; exact Hjob|].
    split_and!; reflexivity.
  - eexists _, _. split; [apply rtc_once; eapply step_reject; exact Hjob|].
    split_and!; reflexivity.
  - pose proof (step_effect maxJobs s before i e cont after
                  (some_answer (claudePathVar s) e) Hjob
                  (allowed_some_answer _ e)) as Hstep.
    match type of Hstep with
    | step _ _ ?s1 =>
        destruct (IH (some_answer (claudePathVar s) e) s1 before i after eq_refl)
          as (s' & r & Hrun & Hact & Hpend & Htime)
    end.
    exists s', r. split; [eapply rtc_l; eassumption|]. split_and!; assumption.
Qed.

Lemma drain_active n :
  forall s,
    length (active s) = n ->
    exists s',
      rtc (step maxJobs) s s' /\ active s' = [] /\ pending s' = pending s.
Proof.
  induction n as [|n IH]; intros s Hlen.
  - exists s. split; [reflexivity|]. split; [|reflexivity].
    destruct (active s); [reflexivity|discriminate].
  - destruct (active s) as [|[i p] rest] eqn:Hact; [discriminate|].
    destruct (drain_job p s [] i rest Hact) as (s1 & r & Hrun1 & Hact1 & Hpend1 & _).
    destruct (IH s1) as (s2 & Hrun2 & Hact2 & Hpend2).
    { rewrite Hact1. simpl in *. lia. }
    exists s2. split; [etrans; eassumption|]. split; [assumption|congruence].
Qed.

Lemma run_to_completion n :
  (1 <= maxJobs)%nat ->
  forall s,
    length (pending s) = n ->
    exists s', rtc (step maxJobs) s s' /\ active s' = [] /\ pending s' = [].
Proof.
  intros Hjobs. induction n as [|n IH]; intros s Hlen;
    destruct (drain_active _ s eq_refl) as (s1 & Hrun1 & Hact1 & Hpend1).
  - exists s1. split; [assumption|]. split; [assumption|].
    rewrite Hpend1. destruct (pending s); [reflexivity|discriminate].
  - destruct (pending s) as [|[i taskFile] rest] eqn:Hpend; [discriminate|].
    pose proof (step_start maxJobs s1 i taskFile rest Hpend1) as Hstep.
    rewrite Hact1 in Hstep. specialize (Hstep Hjobs).
    match type of Hstep with
    | step _ _ ?s' => destruct (IH s') as (s2 & Hrun2 & Hact2 & Hpend2)
    end.
    { simpl in *. lia. }
    exists s2. split; [|split; assumption].
    etrans; [exact Hrun1|]. eapply rtc_l; eassumption.
Qed.

(** *** What a call returns *)

Lemma successes_failures rs : (successes rs + failures rs = length rs)%nat.
Proof.
  unfold successes, failures. induction rs as [|r rs IH]; [reflexivity|].
  rewrite !filter_cons. destruct (success r); repeat case_decide; try congruence;
    simpl; lia.
Qed.

Lemma omap_id_all {A} (l : list (option A)) (k : list A) :
  Forall2 (fun x y => x = Some y) l k -> omap id l = k.
Proof. induction 1 as [|x y l k -> _ IH]; [reflexivity|]. simpl. f_equal. exact IH. Qed.

Lemma returned_correct s r :
  invariant taskFiles maxJobs s ->
  returned s = Some r ->
  exists summary,
    r = Fulfilled summary
    /\ length (summary_results summary) = length taskFiles
    /\ summary_successful summary = successes (summary_results summary)
    /\ summary_failed summary = failures (summary_results summary)
    /\ Forall2 ran taskFiles (summary_results summary)
    /\ started (timeline s) = taskFiles.
Proof.
  intros (k & Hk & Hpending & Hstarted & Hnodup & Hactive & Hlen & Hlater
          & Hearlier & Hdone & Hsucc & Hfail & Hrej & Hbound) Hret.
  unfold returned in Hret. rewrite Hrej in Hret.
  destruct (mapM id (settled s)) as [allResults|] eqn:Hall; [|discriminate].
  injection Hret as <-. apply mapM_Some in Hall. simpl in Hall.
  pose proof (Forall2_length _ _ _ Hall) as Hlen'.
  pose proof (omap_id_all _ _ Hall) as Homap.
  eexists. split; [reflexivity|]. simpl. rewrite <- Homap at 2 3.
  split_and!; try assumption; [lia| |].
  - apply Forall2_same_length_lookup. split; [lia|].
    intros i taskFile o Htf Ho.
    destruct (Forall2_lookup_r _ _ _ _ _ Hall Ho) as (x & Hx & ->).
    destruct (Hdone _ _ Hx) as (taskFile' & hist & Htf' & Hruns).
    rewrite Htf in Htf'. injection Htf' as <-. exists hist. assumption.
  - rewrite Hstarted. apply take_ge.
    destruct (decide (k < length taskFiles)%nat) as [Hlt|]; [|lia].
    pose proof (Hlater k (Nat.le_refl k) Hlt) as Hnone.
    destruct (Forall2_lookup_l _ _ _ _ _ Hall Hnone) as (y & _ & Hy). discriminate.
Qed.

Lemma returned_complete s :
  invariant taskFiles maxJobs s ->
  active s = [] -> pending s = [] ->
  exists summary, returned s = Some (Fulfilled summary).
Proof.
  intros (k & Hk & Hpending & Hstarted & Hnodup & Hactive & Hlen & Hlater
          & Hearlier & Hdone & Hsucc & Hfail & Hrej & Hbound) Hact Hpend.
  unfold returned. rewrite Hrej.
  assert (is_Some (mapM id (settled s))) as [allResults ->]; [|eauto].
  apply mapM_is_Some, Forall_lookup. intros i [o|] Hi; [eauto|].
  exfalso.
  assert (k = length taskFiles) as ->.
  { rewrite Hpending in Hpend. apply (f_equal length) in Hpend.
    rewrite length_drop, length_imap in Hpend. simpl in Hpend. lia. }
  apply lookup_lt_Some in Hi as Hlt. rewrite Hlen in Hlt.
  pose proof (Hearlier i Hlt Hi) as Hin. rewrite Hact in Hin. inversion Hin.
Qed.

End Run.

(** *** One job at a time *)

Lemma sequential_marks_S j :
  sequential_marks (S j) = sequential_marks j ++ [Enter j; Leave j].
Proof.
  unfold sequential_marks. rewrite seq_S, flat_map_app. simpl. reflexivity.
Qed.

Lemma singleton_split {A} (x y : A) before after :
  [x] = before ++ y :: after -> before = [] /\ y = x /\ after = [].
Proof.
  destruct before as [|b before]; simpl; intros Heq.
  - injection Heq as -> <-. auto.
  - injection Heq as _ Heq. destruct before; discriminate.
Qed.

Lemma sequential_submit taskFiles cache :
  sequential taskFiles (submit taskFiles cache).
Proof. exists 0%nat. split; [reflexivity|]. left. split; reflexivity. Qed.

Lemma sequential_step taskFiles s s' :
  sequential taskFiles s -> step 1 s s' -> sequential taskFiles s'.
Proof.
  intros (k & Hpending & Hshape) Hstep.
  destruct Hstep as [s i taskFile rest Hhead Hfree
                    | s before i X e cont after x Hjob Hallowed
                    | s before i result after Hjob
                    | s before i t after Hjob].
  - rewrite Hpending in Hhead.
    apply drop_imap_head in Hhead as (-> & Htf & HkN & ->).
    destruct Hshape as [[Hact Hmarks]|(j & p & Hact & _)];
      [|rewrite Hact in Hfree; unfold slot_free in Hfree; simpl in Hfree; lia].
    exists (S k). simpl. split; [reflexivity|]. right.
    exists k, (task taskFile). rewrite Hact, fmap_app, Hmarks. auto.
  - destruct Hshape as [[Hact Hmarks]|(j & p & Hact & -> & Hmarks)];
      rewrite Hact in Hjob; [destruct before; discriminate|].
    apply singleton_split in Hjob as (-> & Hjp & ->). injection Hjp as -> _.
    exists (S j). simpl. split; [assumption|]. right.
    exists j, (cont x). auto.
  - destruct Hshape as [[Hact Hmarks]|(j & p & Hact & -> & Hmarks)];
      rewrite Hact in Hjob; [destruct before; discriminate|].
    apply singleton_split in Hjob as (-> & Hjp & ->). injection Hjp as -> _.
    exists (S j). simpl. split; [assumption|]. left. split; [reflexivity|].
    rewrite fmap_app, Hmarks, sequential_marks_S, <- app_assoc. reflexivity.
  - destruct Hshape as [[Hact Hmarks]|(j & p & Hact & -> & Hmarks)];
      rewrite Hact in Hjob; [destruct before; discriminate|].
    apply singleton_split in Hjob as (-> & Hjp & ->). injection Hjp as -> _.
    exists (S j). simpl. split; [assumption|]. left. split; [reflexivity|].
    rewrite fmap_app, Hmarks, sequential_marks_S, <- app_assoc. reflexivity.
Qed.

Lemma sequential_reachable taskFiles cache s :
  reachable taskFiles 1 cache s -> sequential taskFiles s.
Proof.
  unfold reachable. revert s. apply rtc_ind_r; [apply sequential_submit|].
  intros s s' _ Hstep Hinv. eapply sequential_step; eassumption.
Qed.

(** From every state of a call with [maxJobs >= 1] the call can go on
    until it returns. *)
Lemma completes taskFiles maxJobs cache s :
  (1 <= maxJobs)%nat ->
  reachable taskFiles maxJobs cache s ->
  exists s' summary,
    rtc (step maxJobs) s s'
    /\ reachable taskFiles maxJobs cache s'
    /\ returned s' = Some (Fulfilled summary).
Proof.
  intros Hjobs Hreach.
  destruct (run_to_completion maxJobs _ Hjobs s eq_refl) as (s' & Hrun & Hact & Hpend).
  assert (Hreach' : reachable taskFiles maxJobs cache s')
    by (unfold reachable in *; etrans; eassumption).
  destruct (returned_complete taskFiles maxJobs s'
              (invariant_reachable _ _ _ _ Hreach') Hact Hpend) as [summary Hret].
  eauto.
Qed.

(** What a returned summary is known to hold. *)
Lemma summary_correct taskFiles maxJobs cache s r :
  reachable taskFiles maxJobs cache s ->
  returned s = Some r ->
  exists summary,
    r = Fulfilled summary
    /\ length (summary_results summary) = length taskFiles
    /\ summary_successful summary = successes (summary_results summary)
    /\ summary_failed summary = failures (summary_results summary)
    /\ Forall2 ran taskFiles (summary_results summary)
    /\ started (timeline s) = taskFiles.
Proof.
  intros Hreach. apply returned_correct with (maxJobs := maxJobs).
  eapply invariant_reachable, Hreach.
Qed.

(** With two slots the second unit can be left before the first. *)
Lemma second_unit_first (a b : string) cache :
  exists s,
    reachable [a; b] 2 cache s
    /\ mark <$> timeline s = [Enter 0; Enter 1; Leave 1].
Proof.
  assert (exists s2,
            rtc (step 2) (submit [a; b] cache) s2
            /\ active s2 = [(0%nat, task a); (1%nat, task b)]
            /\ timeline s2 = [Started 0 a; Started 1 b])
    as (s2 & Hrun2 & Hact2 & Htime2).
  { eexists. split.
    - eapply rtc_l.
      + apply (step_start 2 (submit [a; b] cache) 0%nat a [(1%nat, b)]);
          [reflexivity|unfold slot_free; simpl; lia].
      + apply rtc_once. eapply (step_start 2 _ 1%nat b []);
          [reflexivity|unfold slot_free; simpl; lia].
    - split; reflexivity. }
  destruct (drain_job 2 (task b) s2 [(0%nat, task a)] 1%nat [] Hact2)
    as (s3 & r & Hrun3 & _ & _ & Htime3).
  exists s3. split; [unfold reachable; etrans; eassumption|].
  rewrite Htime3, Htime2. reflexivity.
Qed.

(** A result of the callback for [taskFile] bears its identifier. *)
Lemma ran_identifier taskFile o :
  ran taskFile o -> taskName o = identifier taskFile.
Proof.
  intros [hist Hruns]. unfold task in Hruns.
  pose proof (runTask_wp taskFile
                (path_join (path_dirname taskFile) "execution.log")) as Hwp.
  rewrite wp_runs in Hwp. destruct (Hwp _ _ Hruns) as (o' & Ho & Hname & _).
  injection Ho as <-. exact Hname.
Qed.

End SchedulerFacts.

(** ** Every run is finite *)

Section Heights.
Import Runner Scheduler.
Context `{PathApi}.







Lemma height_le_leaf {A} (a : A) n : height_le (mret a : Proc A) n.
Proof. exact I. Qed.






End Heights.

Section RunLength.
Import Runner Scheduler.
Context `{PathApi}.







End RunLength.



(** C2. In every state of a call at most [maxJobs] callbacks are
    entered and not yet left; and with [maxJobs = 1] the timeline is
    [Enter 0], [Leave 0], [Enter 1], [Leave 1], ... in this order,
    possibly ending with the entry of the unit that is running: a unit
    is entered only after the one before it was left. *)
Theorem bounded_concurrency `{PathApi}
    (taskFiles : list string) (maxJobs : nat) (cache : option string)
    (s : Scheduler.Sched) :
  Scheduler.reachable taskFiles maxJobs cache s ->
  (length (Scheduler.active s) <= maxJobs)%nat
  /\ (maxJobs = 1%nat ->
      exists n,
        Scheduler.mark <$> Scheduler.timeline s = Scheduler.sequential_marks n
        \/ Scheduler.mark <$> Scheduler.timeline s
           = Scheduler.sequential_marks n ++ [Scheduler.Enter n]).
Proof.
  intros Hreach. split.
  - apply invariant_reachable in Hreach
      as (k & _ & _ & _ & _ & _ & _ & _ & _ & _ & _ & _ & _ & Hbound).
    exact Hbound.
  - intros ->. apply sequential_reachable in Hreach as (k & _ & Hshape).
    destruct Hshape as [[_ Hmarks]|(j & p & _ & _ & Hmarks)]; eauto.
Qed.

Lemma bounded_concurrency_witness :
  let taskFiles := ["/tasks/001_repo_main/task.md"; "/tasks/002_repo_dev/task.md"] in
  exists s,
    rtc (Scheduler.step 1) (Scheduler.submit taskFiles None) s
    /\ Scheduler.mark <$> Scheduler.timeline s = [Scheduler.Enter 0%nat]
    /\ (length (Scheduler.active s) <= 1)%nat
    /\ exists n,
         Scheduler.mark <$> Scheduler.timeline s = Scheduler.sequential_marks n
         \/ Scheduler.mark <$> Scheduler.timeline s
            = Scheduler.sequential_marks n ++ [Scheduler.Enter n].
Proof.
  intros taskFiles.
  assert (Hstep : rtc (Scheduler.step 1) (Scheduler.submit taskFiles None)
            {| Scheduler.pending := [(1%nat, "/tasks/002_repo_dev/task.md")];
               Scheduler.active :=
                 [] ++ [(0%nat, Scheduler.task "/tasks/001_repo_main/task.md")];
               Scheduler.settled := [None; None];
               Scheduler.successful := 0;
               Scheduler.failed := 0;
               Scheduler.claudePathVar := None;
               Scheduler.rejection := None;
               Scheduler.timeline :=
                 [] ++ [Scheduler.Started 0 "/tasks/001_repo_main/task.md"] |}).
  { apply rtc_once.
    apply (Scheduler.step_start 1 (Scheduler.submit taskFiles None) 0%nat
             "/tasks/001_repo_main/task.md"
             [(1%nat, "/tasks/002_repo_dev/task.md")]);
      [reflexivity|unfold Scheduler.slot_free; simpl; lia]. }
  eexists. split; [exact Hstep|]. split; [reflexivity|].
  destruct (bounded_concurrency taskFiles 1 None _ Hstep) as [Hbound Hseq].
  split; [exact Hbound|]. apply Hseq. reflexivity.
Defined.



(** ** Following a call step by step *)

Section FollowedFacts.
Import Runner Scheduler.
Context `{PathApi}.
Implicit Types (s : Sched) (acts : list Act).

Lemma does_step maxJobs s a s' : does maxJobs s a s' -> step maxJobs s s'.
Proof. destruct 1; econstructor; eassumption. Qed.

Lemma step_does maxJobs s s' : step maxJobs s s' -> exists a, does maxJobs s a s'.
Proof. destruct 1; eexists; econstructor; eassumption. Qed.

Lemma transcript_rtc maxJobs s0 acts s :
  transcript maxJobs s0 acts s -> rtc (step maxJobs) s0 s.
Proof.
  induction 1 as [|acts s a s' _ IH Hdoes]; [apply rtc_refl|].
  eapply rtc_r; [exact IH|]. eapply does_step, Hdoes.
Qed.

Lemma rtc_transcript maxJobs s0 s :
  rtc (step maxJobs) s0 s -> exists acts, transcript maxJobs s0 acts s.
Proof.
  revert s. apply rtc_ind_r; [exists []; constructor|].
  intros s s' _ Hstep [acts Hacts].
  apply step_does in Hstep as [a Ha].
  exists (acts ++ [a]). econstructor; eassumption.
Qed.

Lemma transcript_app maxJobs s0 acts s acts' s' :
  transcript maxJobs s0 acts s -> transcript maxJobs s acts' s' ->
  transcript maxJobs s0 (acts ++ acts') s'.
Proof.
  intros H0. induction 1 as [|acts' s1 a s2 _ IH Hdoes].
  - rewrite app_nil_r. exact H0.
  - rewrite app_assoc. econstructor; eassumption.
Qed.

Lemma transcript_cons maxJobs s a s' acts s'' :
  does maxJobs s a s' -> transcript maxJobs s' acts s'' ->
  transcript maxJobs s (a :: acts) s''.
Proof.
  intros Hdoes Hrest. apply (transcript_app _ _ [a] s'); [|exact Hrest].
  apply (transcript_snoc _ _ [] s); [constructor|exact Hdoes].
Qed.

Lemma effects_of_snoc i acts a :
  effects_of i (acts ++ [a])
  = effects_of i acts ++ match effect_of i a with Some o => [o] | None => [] end.
Proof. unfold effects_of. rewrite omap_app. simpl. destruct (effect_of i a); reflexivity. Qed.

Lemma entered_snoc acts a :
  entered (acts ++ [a])
  = entered acts ++ match entered_of a with Some u => [u] | None => [] end.
Proof. unfold entered. rewrite omap_app. simpl. destruct (entered_of a); reflexivity. Qed.

Lemma elem_of_drop_imap (taskFiles : list string) k i taskFile :
  (i, taskFile) ∈ drop k (imap (fun i taskFile => (i, taskFile)) taskFiles) ->
  (k <= i)%nat.
Proof.
  intros Hin. apply list_elem_of_lookup in Hin as [j Hj].
  rewrite lookup_drop, list_lookup_imap in Hj.
  destruct (taskFiles !! (k + j)%nat); [|discriminate].
  simpl in Hj. injection Hj as <- _. lia.
Qed.

Section Linked.
Variable taskFiles : list string.
Variable maxJobs : nat.

(** What the steps taken so far have to do with the state reached:
    every callback entered and not left has performed the effects
    recorded for its index, every result held is the end of the run
    recorded for its index, and nothing is recorded for a callback
    still queued. *)
Definition linked acts s : Prop :=
  imap (fun i taskFile => (i, taskFile)) taskFiles = entered acts ++ pending s
  /\ (forall i p, (i, p) ∈ active s ->
        exists taskFile,
          taskFiles !! i = Some taskFile
          /\ forall tr r, runs p tr r -> runs (task taskFile) (effects_of i acts ++ tr) r)
  /\ (forall i o, settled s !! i = Some (Some o) ->
        exists taskFile,
          taskFiles !! i = Some taskFile
          /\ runs (task taskFile) (effects_of i acts) (Fulfilled o))
  /\ (forall i taskFile, (i, taskFile) ∈ pending s -> effects_of i acts = []).

Lemma linked_submit cache : linked [] (submit taskFiles cache).
Proof.
  split_and!.
  - reflexivity.
  - intros i p Hin. inversion Hin.
  - intros i o Hi. simpl in Hi. apply lookup_replicate in Hi as [? _]. discriminate.
  - reflexivity.
Qed.

Lemma linked_does acts s a s' :
  invariant taskFiles maxJobs s ->
  linked acts s -> does maxJobs s a s' -> linked (acts ++ [a]) s'.
Proof.
  intros (k & Hk & Hpending & _ & Hnodup & Hactive & Hlen & _ & _ & _)
         (Hentered & Hrunning & Hdone & Hqueued) Hdoes.
  destruct Hdoes as [s i taskFile rest Hhead Hfree
                    | s before i X e cont after x Hjob Hallowed
                    | s before i result after Hjob
                    | s before i t after Hjob];
    unfold linked; cbn [pending active settled];
    setoid_rewrite effects_of_snoc; rewrite entered_snoc;
    cbn [effect_of entered_of]; setoid_rewrite app_nil_r.
  - (* a callback is entered *)
    assert (Hnone : effects_of i acts = [])
      by (apply (Hqueued i taskFile); rewrite Hhead; left).
    pose proof Hhead as Hhead'.
    rewrite Hpending in Hhead.
    apply drop_imap_head in Hhead as (-> & Htf & _ & Hrest).
    split_and!.
    + rewrite <- app_assoc. simpl. rewrite <- Hhead'. exact Hentered.
    + intros j p Hin. apply elem_of_app in Hin as [Hin|Hin]; [apply Hrunning, Hin|].
      apply list_elem_of_singleton in Hin. injection Hin as -> ->.
      exists taskFile. split; [exact Htf|]. rewrite Hnone. auto.
    + exact Hdone.
    + intros j f Hin. apply (Hqueued j f). rewrite Hpending.
      rewrite Hrest in Hin. apply list_elem_of_lookup in Hin as [n Hn].
      apply list_elem_of_lookup. exists (S n). rewrite lookup_drop in Hn |- *.
      rewrite <- Hn. f_equal. lia.
  - (* a callback performs an effect *)
    assert (Hi : (i, Vis e cont) ∈ active s)
      by (rewrite Hjob; apply elem_of_app; right; left).
    rewrite Hjob, fmap_app, fmap_cons in Hnodup. simpl in Hnodup.
    apply NoDup_app in Hnodup as (_ & Hbefore & Hafter).
    apply NoDup_cons in Hafter as [Hafter _].
    split_and!.
    + exact Hentered.
    + intros j p Hin.
      assert (Hcases : (j, p) ∈ before \/ (j = i /\ p = cont x) \/ (j, p) ∈ after).
      { apply elem_of_app in Hin as [Hin|Hin]; [auto|].
        apply elem_of_cons in Hin as [[= -> ->]|Hin]; auto. }
      destruct Hcases as [Hin'|[[-> ->]|Hin']].
      * assert (j <> i).
        { intros ->. apply (Hbefore i); [|left].
          apply list_elem_of_fmap. exists (i, p). auto. }
        rewrite decide_False by congruence. rewrite app_nil_r.
        apply Hrunning. rewrite Hjob. apply elem_of_app. left. exact Hin'.
      * rewrite decide_True by reflexivity.
        destruct (Hrunning _ _ Hi) as (taskFile & Htf & Hres).
        exists taskFile. split; [exact Htf|]. intros tr r Hr.
        rewrite <- app_assoc. apply Hres. constructor. exact Hr.
      * assert (j <> i).
        { intros ->. apply Hafter.
          apply list_elem_of_fmap. exists (i, p). auto. }
        rewrite decide_False by congruence. rewrite app_nil_r.
        apply Hrunning. rewrite Hjob. apply elem_of_app. right. right. exact Hin'.
    + intros j o Hj.
      assert (j <> i).
      { intros ->. destruct (Hactive _ _ Hi) as (_ & Hnone & _). congruence. }
      rewrite decide_False by congruence. rewrite app_nil_r. apply Hdone, Hj.
    + intros j f Hin.
      assert (j <> i).
      { intros ->. destruct (Hactive _ _ Hi) as (Hlt & _).
        rewrite Hpending in Hin. apply elem_of_drop_imap in Hin. lia. }
      rewrite decide_False by congruence. rewrite app_nil_r.
      apply (Hqueued j f), Hin.
  - (* a callback returns *)
    assert (Hi : (i, Ret result) ∈ active s)
      by (rewrite Hjob; apply elem_of_app; right; left).
    split_and!.
    + exact Hentered.
    + intros j p Hin. apply Hrunning. rewrite Hjob.
      apply elem_of_app in Hin as [Hin|Hin]; apply elem_of_app;
        [left|right; right]; exact Hin.
    + intros j o Hj. destruct (decide (j = i)) as [->|Hne].
      * rewrite list_lookup_insert_eq in Hj
          by (destruct (Hactive _ _ Hi) as (_ & Hs & _);
              apply lookup_lt_Some in Hs; exact Hs).
        injection Hj as <-.
        destruct (Hrunning _ _ Hi) as (taskFile & Htf & Hres).
        exists taskFile. split; [exact Htf|].
        rewrite <- (app_nil_r (effects_of i acts)). apply Hres. constructor.
      * rewrite list_lookup_insert_ne in Hj by congruence. apply Hdone, Hj.
    + exact Hqueued.
  - (* a callback throws *)
    split_and!.
    + exact Hentered.
    + intros j p Hin. apply Hrunning. rewrite Hjob.
      apply elem_of_app in Hin as [Hin|Hin]; apply elem_of_app;
        [left|right; right]; exact Hin.
    + exact Hdone.
    + exact Hqueued.
Qed.

Lemma linked_transcript cache acts s :
  transcript maxJobs (submit taskFiles cache) acts s -> linked acts s.
Proof.
  induction 1 as [|acts s a s' Hacts IH Hdoes]; [apply linked_submit|].
  eapply linked_does; [|exact IH|exact Hdoes].
  eapply invariant_reachable, transcript_rtc, Hacts.
Qed.

Lemma returned_pending s r :
  invariant taskFiles maxJobs s -> returned s = Some r -> pending s = [].
Proof.
  intros (k & Hk & Hpending & _ & _ & _ & Hlen & Hlater & _ & _ & _ & _ & Hrej & _) Hret.
  unfold returned in Hret. rewrite Hrej in Hret.
  destruct (mapM id (settled s)) as [allResults|] eqn:Hall; [|discriminate].
  apply mapM_Some in Hall.
  rewrite Hpending. apply drop_ge. rewrite length_imap.
  destruct (decide (k < length taskFiles)%nat) as [Hlt|]; [|lia].
  pose proof (Hlater k (Nat.le_refl k) Hlt) as Hnone.
  destruct (Forall2_lookup_l _ _ _ _ _ Hall Hnone) as (y & _ & Hy). discriminate.
Qed.

(** What a call that has returned has done. *)
Lemma call_runs_every_unit cache acts r cache' :
  call taskFiles maxJobs cache acts r cache' ->
  exists summary,
    r = Fulfilled summary
    /\ length (summary_results summary) = length taskFiles
    /\ entered acts = imap (fun i taskFile => (i, taskFile)) taskFiles
    /\ forall i o,
         summary_results summary !! i = Some o ->
         exists taskFile,
           taskFiles !! i = Some taskFile
           /\ runs (task taskFile) (effects_of i acts) (Fulfilled o).
Proof.
  intros (s & Hacts & Hret & _).
  pose proof (transcript_rtc _ _ _ _ Hacts) as Hreach.
  pose proof (invariant_reachable _ _ _ _ Hreach) as Hinv.
  destruct (linked_transcript _ _ _ Hacts) as (Hentered & _ & Hdone & _).
  destruct (returned_correct _ _ _ _ Hinv Hret) as (summary & -> & Hlen & _).
  rewrite (returned_pending _ _ Hinv Hret), app_nil_r in Hentered.
  exists summary. split_and!; [reflexivity|exact Hlen|symmetry; exact Hentered|].
  intros i o Ho.
  destruct Hinv as (k & _ & _ & _ & _ & _ & _ & _ & _ & _ & _ & _ & Hrej & _).
  unfold returned in Hret. rewrite Hrej in Hret.
  destruct (mapM id (settled s)) as [allResults|] eqn:Hall; [|discriminate].
  injection Hret as <-. apply mapM_Some in Hall. simpl in Hall, Ho.
  destruct (Forall2_lookup_r _ _ _ _ _ Hall Ho) as (x & Hx & ->).
  apply Hdone, Hx.
Qed.

End Linked.

(** *** One unit after the other *)

Lemma acts_of_unit_transcript maxJobs w i (p : Proc TaskResult) :
  forall s m,
    active s = [(i, p)] ->
    claudePathVar s = claudePath m ->
    exists s',
      transcript maxJobs s (acts_of_unit w i p m) s'
      /\ active s' = [] /\ pending s' = pending s
      /\ claudePathVar s' = claudePath (interp w p m).2.
Proof.
  induction p as [result|t|X e cont IH]; intros s m Hjob Hvar.
  - eexists. split.
    + eapply transcript_cons; [|constructor].
      apply (does_finish maxJobs s [] i result []). exact Hjob.
    + split_and!; [reflexivity..|exact Hvar].
  - eexists. split.
    + eapply transcript_cons; [|constructor].
      apply (does_reject maxJobs s [] i t []). exact Hjob.
    + split_and!; [reflexivity..|exact Hvar].
  - assert (Hallowed : allowed (claudePathVar s) e (respond w e m))
      by (rewrite Hvar; destruct e; simpl; auto).
    pose proof (does_effect maxJobs s [] i e cont [] (respond w e m) Hjob Hallowed)
      as Hdoes.
    match type of Hdoes with
    | does _ _ _ ?s1 =>
        destruct (IH (respond w e m) s1 (record e (respond w e m) m) eq_refl)
          as (s' & Hrest & Hact & Hpend & Hvar')
    end.
    { rewrite Hvar. destruct e; reflexivity. }
    exists s'. split; [eapply transcript_cons; eassumption|].
    split_and!; assumption.
Qed.

Lemma sequential_acts_transcript maxJobs w units :
  (1 <= maxJobs)%nat ->
  forall s m,
    active s = [] -> pending s = units ->
    claudePathVar s = claudePath m ->
    exists s',
      transcript maxJobs s (sequential_acts w units m) s'
      /\ active s' = [] /\ pending s' = []
      /\ claudePathVar s' = claudePath (machine_after w units m).
Proof.
  intros Hjobs. induction units as [|[i taskFile] rest IH]; intros s m Hact Hpend Hvar.
  - exists s. split; [constructor|]. split_and!; assumption.
  - assert (Hfree : slot_free maxJobs (active s))
      by (unfold slot_free; rewrite Hact; simpl; lia).
    pose proof (does_start maxJobs s i taskFile rest Hpend Hfree) as Hstart.
    match type of Hstart with
    | does _ _ _ ?s1 =>
        destruct (acts_of_unit_transcript maxJobs w i (task taskFile) s1 m)
          as (s2 & Hunit & Hact2 & Hpend2 & Hvar2);
          [cbn [active]; rewrite Hact; reflexivity|exact Hvar|]
    end.
    destruct (IH s2 (interp w (task taskFile) m).2 Hact2 Hpend2 Hvar2)
      as (s3 & Hrest & Hact3 & Hpend3 & Hvar3).
    exists s3. split; [|split_and!; assumption].
    cbn [sequential_acts]. eapply transcript_cons; [exact Hstart|].
    eapply transcript_app; eassumption.
Qed.

(** In a fixed environment the units can be run one after the other,
    and the call then returns. *)
Lemma sequential_call taskFiles maxJobs w m :
  (1 <= maxJobs)%nat ->
  let units := imap (fun i taskFile => (i, taskFile)) taskFiles in
  exists summary,
    call taskFiles maxJobs (claudePath m) (sequential_acts w units m)
         (Fulfilled summary) (claudePath (machine_after w units m)).
Proof.
  intros Hjobs units.
  destruct (sequential_acts_transcript maxJobs w units Hjobs
              (submit taskFiles (claudePath m)) m eq_refl eq_refl eq_refl)
    as (s & Hacts & Hact & Hpend & Hvar).
  pose proof (invariant_reachable _ _ _ _ (transcript_rtc _ _ _ _ Hacts)) as Hinv.
  destruct (returned_complete _ _ _ Hinv Hact Hpend) as [summary Hret].
  exists summary, s. split_and!; assumption.
Qed.

End FollowedFacts.

(** C9. Let a call of [executeWithConcurrency] on some task files have
    returned, with whatever results, and let [cache1] be what it left
    in the module variable [claudePath], the only thing a call leaves
    behind.  (a) With [maxJobs >= 1] a second call on the same task
    files can be run until it returns.  (b) Whatever steps a second
    call takes until it returns, it enters the callback of every task
    file, once and in the order of the list; and for every result of
    the first call, a success or a failure, the second call holds in
    the same place a result that is the end of a complete run of the
    callback of that task file, from its first effect on, made of the
    effects the second call itself performed for it. *)
Theorem rerun_executes_every_unit `{PathApi}
    (taskFiles : list string) (maxJobs : nat) (cache : option string)
    (acts1 : list Act) (r1 : Settled Scheduler.ExecutionSummary)
    (cache1 : option string) :
  call taskFiles maxJobs cache acts1 r1 cache1 ->
  ((1 <= maxJobs)%nat ->
     exists acts2 summary2 cache2,
       call taskFiles maxJobs cache1 acts2 (Fulfilled summary2) cache2)
  /\ (forall acts2 r2 cache2,
        call taskFiles maxJobs cache1 acts2 r2 cache2 ->
        exists summary1 summary2,
          r1 = Fulfilled summary1
          /\ r2 = Fulfilled summary2
          /\ entered acts2 = imap (fun i taskFile => (i, taskFile)) taskFiles
          /\ forall i o1,
               Scheduler.summary_results summary1 !! i = Some o1 ->
               exists taskFile o2,
                 taskFiles !! i = Some taskFile
                 /\ Scheduler.summary_results summary2 !! i = Some o2
                 /\ runs (Scheduler.task taskFile) (effects_of i acts2) (Fulfilled o2)
                 /\ effects_of i acts2 <> []).
Proof.
  intros Hcall1. split.
  - intros Hjobs.
    destruct (completes taskFiles maxJobs cache1 _ Hjobs (rtc_refl _ _))
      as (s' & summary & Hrun & _ & Hret).
    apply rtc_transcript in Hrun as [acts2 Hacts2].
    exists acts2, summary, (Scheduler.claudePathVar s'), s'. auto.
  - intros acts2 r2 cache2 Hcall2.
    destruct (call_runs_every_unit _ _ _ _ _ _ Hcall1)
      as (summary1 & -> & Hlen1 & _).
    destruct (call_runs_every_unit _ _ _ _ _ _ Hcall2)
      as (summary2 & -> & Hlen2 & Hentered & Hran).
    exists summary1, summary2. split_and!; [reflexivity..|exact Hentered|].
    intros i o1 Ho1. apply lookup_lt_Some in Ho1.
    destruct (lookup_lt_is_Some_2 (Scheduler.summary_results summary2) i)
      as [o2 Ho2]; [lia|].
    destruct (Hran i o2 Ho2) as (taskFile & Htf & Hruns).
    exists taskFile, o2. split_and!; try assumption.
    intros Hnone. rewrite Hnone in Hruns.
    apply runs_inv in Hruns. unfold Scheduler.task, Runner.runTask in Hruns.
    simpl in Hruns. destruct Hruns as (x & tr' & Hnil & _). discriminate.
Qed.

Lemma rerun_executes_every_unit_witness :
  let taskFiles := ["/tasks/001_repo_main/task.md"; "/missing/task.md"] in
  let units := imap (fun i taskFile => (i, taskFile)) taskFiles in
  let w := Examples.world true 0 in
  let acts1 := sequential_acts w units Examples.boot in
  let after1 := machine_after w units Examples.boot in
  let acts2 := sequential_acts w units after1 in
  let agent := RunClaude "/tasks/001_repo_main/repo" Examples.task_md
                         (Some "claude") "/tasks/001_repo_main/execution.log" in
  exists summary1 summary2 cache2,
    call taskFiles 2 None acts1 (Fulfilled summary1) (claudePath after1)
    /\ Runner.success <$> Scheduler.summary_results summary1 = [true; false]
    /\ call taskFiles 2 (claudePath after1) acts2 (Fulfilled summary2) cache2
    /\ entered acts2 = units
    /\ spawns (effects_of 0 acts2) = [(agent, run_process w agent)]
    /\ forall i o1,
         Scheduler.summary_results summary1 !! i = Some o1 ->
         exists taskFile o2,
           taskFiles !! i = Some taskFile
           /\ Scheduler.summary_results summary2 !! i = Some o2
           /\ runs (Scheduler.task taskFile) (effects_of i acts2) (Fulfilled o2)
           /\ effects_of i acts2 <> [].
Proof.
  intros taskFiles units w acts1 after1 acts2 agent.
  assert (Hjobs : (1 <= 2)%nat) by lia.
  destruct (sequential_call taskFiles 2 w Examples.boot Hjobs) as [summary1 Hcall1].
  destruct (sequential_call taskFiles 2 w after1 Hjobs) as [summary2 Hcall2].
  fold units in Hcall1, Hcall2. fold acts1 after1 in Hcall1. fold acts2 in Hcall2.
  change (claudePath Examples.boot) with (@None string) in Hcall1.
  destruct (proj2 (rerun_executes_every_unit taskFiles 2 None acts1
                     (Fulfilled summary1) (claudePath after1) Hcall1)
              acts2 (Fulfilled summary2) _ Hcall2)
    as (summary1' & summary2' & [= <-] & [= <-] & Hentered & Hrerun).
  exists summary1, summary2, (claudePath (machine_after w units after1)).
  split_and!; try assumption; [|vm_compute; reflexivity].
  destruct (call_runs_every_unit _ _ _ _ _ _ Hcall1)
    as (summary1' & [= <-] & Hlen1 & _ & Hran1).
  destruct (Scheduler.summary_results summary1) as [|a [|b [|]]]; try discriminate.
  destruct (Hran1 0%nat a eq_refl) as (f0 & [= <-] & Hruns0).
  destruct (Hran1 1%nat b eq_refl) as (f1 & [= <-] & Hruns1).
  pose proof (runTask_wp "/tasks/001_repo_main/task.md"
                (path_join (path_dirname "/tasks/001_repo_main/task.md")
                           "execution.log")) as Hwp0.
  pose proof (runTask_wp "/missing/task.md"
                (path_join (path_dirname "/missing/task.md") "execution.log")) as Hwp1.
  rewrite wp_runs in Hwp0, Hwp1.
  destruct (Hwp0 _ _ Hruns0) as (a' & [= <-] & _ & Hcase0).
  destruct (Hwp1 _ _ Hruns1) as (b' & [= <-] & _ & Hcase1).
  assert (Hs0 : spawns (effects_of 0 acts1) = [(agent, run_process w agent)])
    by (vm_compute; reflexivity).
  assert (Hs1 : spawns (effects_of 1 acts1) = []) by (vm_compute; reflexivity).
  rewrite Hs0 in Hcase0. rewrite Hs1 in Hcase1.
  destruct Hcase0 as (Ha & _). destruct Hcase1 as (Hb & _).
  cbn [fmap list_fmap]. rewrite Ha, Hb. reflexivity.
Defined.

(** ** [executeTasks] *)

Section ExecuteTasksFacts.
Import Runner Scheduler.
Context `{PathApi}.

Lemma executeTasks_taskFiles_sorted outputDir :
  wp (executeTasks_taskFiles outputDir)
     (fun _ r => forall l, r = Fulfilled l -> Sorted String.le l /\ l <> []).
Proof.
  unfold executeTasks_taskFiles. apply wp_bind. wp_await; [|discriminate].
  destruct a; cbn [negb]; [|wp_leaf; discriminate].
  apply wp_bind. wp_await; [|discriminate].
  apply wp_bind. eapply wp_mono; [|apply wp_trivial].
  intros tr [found|t] _; [|discriminate].
  cbv zeta. case_bool_decide as Hempty; wp_leaf; [discriminate|].
  intros l Hl. injection Hl as <-. split; [|assumption].
  apply Sorted_merge_sort. apply _.
Qed.

End ExecuteTasksFacts.

(** C6, as the claim states it, fails: [executeTasks] sorts the paths of
    the task files, and a path order is not the order of the unit
    identifiers.  With the task directories [repo] and [repo-docs] the
    task files are submitted as [tasks/repo-docs/task.md],
    [tasks/repo/task.md], because [-] sorts before [/]; their
    identifiers [repo-docs], [repo] are not in ascending order. *)
Lemma submission_order_not_by_identifier :
  exists l m',
    interp Examples.two_tasks (Scheduler.executeTasks_taskFiles "tasks")
           Examples.boot = (Fulfilled l, m')
    /\ l = ["tasks/repo-docs/task.md"; "tasks/repo/task.md"]
    /\ Scheduler.identifier <$> l = ["repo-docs"; "repo"]
    /\ ~ Sorted String.le (Scheduler.identifier <$> l).
Proof.
  eexists _, _. split; [vm_compute; reflexivity|].
  split; [reflexivity|]. split; [reflexivity|].
  intros Hsorted. apply Sorted_inv in Hsorted as [_ Hhd].
  apply HdRel_inv in Hhd. vm_compute in Hhd. exact Hhd.
Qed.

(** C6, amended.  Units may complete in another order than they were
    submitted (with two slots the second can be left before the first);
    whatever the order, the summary a call returns lists, at each
    position, a result of the task file submitted at that position,
    bearing its identifier; and [executeTasks] submits the task files
    in ascending order of their paths (compared code unit by code
    unit). *)
Theorem results_in_submission_order `{PathApi} :
  (forall a b cache,
      exists s,
        Scheduler.reachable [a; b] 2 cache s
        /\ Scheduler.mark <$> Scheduler.timeline s
           = [Scheduler.Enter 0; Scheduler.Enter 1; Scheduler.Leave 1])
  /\ (forall taskFiles maxJobs cache summary,
        Scheduler.executeWithConcurrency taskFiles maxJobs cache
          (Fulfilled summary) ->
        Forall2 (fun taskFile o =>
                   ran taskFile o
                   /\ Runner.taskName o = Scheduler.identifier taskFile)
                taskFiles (Scheduler.summary_results summary))
  /\ (forall outputDir,
        wp (Scheduler.executeTasks_taskFiles outputDir)
           (fun _ r => forall l, r = Fulfilled l -> Sorted String.le l)).
Proof.
  split_and!.
  - intros a b cache. apply second_unit_first.
  - intros taskFiles maxJobs cache summary (s & Hreach & Hret).
    destruct (summary_correct _ _ _ _ _ Hreach Hret)
      as (summary' & Heq & _ & _ & _ & Hran & _).
    injection Heq as <-.
    eapply Forall2_impl; [exact Hran|].
    intros taskFile o Ho. split; [exact Ho|apply ran_identifier, Ho].
  - intros outputDir. eapply wp_mono; [|apply executeTasks_taskFiles_sorted].
    intros tr r Hr l Hl. apply (Hr l Hl).
Qed.

Lemma results_in_submission_order_witness :
  let taskFiles := ["/tasks/001_repo_main/task.md"; "/tasks/002_repo_dev/task.md"] in
  exists summary,
    Scheduler.executeWithConcurrency taskFiles 2 None (Fulfilled summary)
    /\ Forall2 (fun taskFile o =>
                  ran taskFile o
                  /\ Runner.taskName o = Scheduler.identifier taskFile)
               taskFiles (Scheduler.summary_results summary).
Proof.
  intros taskFiles.
  assert (Hjobs : (1 <= 2)%nat) by lia.
  destruct (completes taskFiles 2 None _ Hjobs (rtc_refl _ _))
    as (s & summary & _ & Hreach & Hret).
  assert (Hcall : Scheduler.executeWithConcurrency taskFiles 2 None
                    (Fulfilled summary)) by (exists s; split; assumption).
  exists summary. split; [exact Hcall|].
  exact (proj1 (proj2 results_in_submission_order)
           taskFiles 2%nat None summary Hcall).
Defined.

(** * Further properties of the code *)

(** ** utils.mjs: timestamps and durations *)

Section UtilsFacts.
Import Utils.

Lemma append_nil t : "" +:+ t = t.
Proof. reflexivity. Qed.

Lemma append_cons c s t : String c s +:+ t = String c (s +:+ t).
Proof. reflexivity. Qed.

Lemma replace_first_app a b s t :
  a ∉ String.list_ascii_of_string s ->
  replace_first a b (s +:+ String a t) = s +:+ String b t.
Proof.
  induction s as [|c s IH]; rewrite ?append_nil, ?append_cons; simpl; intros Hnot.
  - rewrite Ascii.eqb_refl. reflexivity.
  - destruct (Ascii.eqb_spec c a) as [->|Hne].
    + exfalso. apply Hnot. left.
    + f_equal. apply IH. intros Hin. apply Hnot. right. exact Hin.
Qed.

Lemma substring_prefix s t :
  String.substring 0 (String.length s) (s +:+ t) = s.
Proof.
  induction s as [|c s IH]; rewrite ?append_nil, ?append_cons; simpl.
  - destruct t; reflexivity.
  - f_equal. exact IH.
Qed.

Lemma string_length_app s t :
  String.length (s +:+ t) = (String.length s + String.length t)%nat.
Proof.
  induction s as [|c s IH]; rewrite ?append_nil, ?append_cons; simpl;
    [reflexivity|]. f_equal. exact IH.
Qed.

Lemma string_app_assoc s t u : (s +:+ t) +:+ u = s +:+ t +:+ u.
Proof.
  induction s as [|c s IH]; rewrite ?append_nil, ?append_cons;
    [reflexivity|]. f_equal. exact IH.
Qed.

Lemma timestamp_of_parts date time rest :
  String.length date = 10%nat ->
  "T"%char ∉ String.list_ascii_of_string date ->
  String.length time = 8%nat ->
  timestamp_of (date +:+ "T" +:+ time +:+ rest) = date +:+ " " +:+ time.
Proof.
  intros Hdate Hnot Htime. unfold timestamp_of.
  change ("T" +:+ time +:+ rest) with (String "T"%char (time +:+ rest)).
  rewrite replace_first_app by assumption.
  change (String " "%char (time +:+ rest)) with (" " +:+ time +:+ rest).
  rewrite <- !string_app_assoc.
  replace 19%nat with (String.length ((date +:+ " ") +:+ time)).
  - rewrite substring_prefix, string_app_assoc. reflexivity.
  - rewrite !string_length_app, Hdate, Htime. reflexivity.
Qed.

Lemma formatDuration_fields (d : Z) :
  0 <= d ->
  d = 3600 * (d / 3600) + 60 * (Z.rem d 3600 / 60) + Z.rem d 60
  /\ 0 <= d / 3600
  /\ 0 <= Z.rem d 3600 / 60 < 60
  /\ 0 <= Z.rem d 60 < 60.
Proof.
  intros Hd. rewrite !Z.rem_mod_nonneg by lia.
  Z.to_euclidean_division_equations. lia.
Qed.

End UtilsFacts.

(** X1. When the clock's ISO string is a ten-character date, [T], an
    eight-character time and a rest (as [toISOString] renders every
    year from 0 to 9999), [formatTimestamp] returns the date, a space
    and the time: the fraction of a second and the zone are cut off. *)
Theorem formatTimestamp_of_iso (w : World) (m : Machine) (date time rest : string) :
  clock_iso w (clock_reads m) = date +:+ "T" +:+ time +:+ rest ->
  String.length date = 10%nat ->
  "T"%char ∉ String.list_ascii_of_string date ->
  String.length time = 8%nat ->
  (interp w Utils.formatTimestamp m).1 = Fulfilled (date +:+ " " +:+ time).
Proof.
  intros Hiso Hdate Hnot Htime. unfold Utils.formatTimestamp.
  rewrite interp_mbind, interp_trigger. cbn [interp mret proc_ret fst respond].
  rewrite Hiso, timestamp_of_parts by assumption. reflexivity.
Qed.

Lemma formatTimestamp_of_iso_witness :
  (interp (Examples.world true 0) Utils.formatTimestamp Examples.boot).1
  = Fulfilled "2025-01-01 00:00:00".
Proof.
  apply (formatTimestamp_of_iso (Examples.world true 0) Examples.boot
           "2025-01-01" "00:00:00" ".000Z").
  - reflexivity.
  - reflexivity.
  - apply (bool_decide_unpack _). vm_compute. exact I.
  - reflexivity.
Defined.

(** X2. For clock readings that the numbers of the code hold exactly,
    as they do their difference (all three within [2^53]),
    [calculateDuration] is the number of whole seconds from [startTime]
    to [endTime], rounded down: it is negative exactly when the clock
    went backwards, and [-1] already for one millisecond backwards. *)
Theorem calculateDuration_floor (startTime endTime : Z) :
  - 2 ^ 53 < startTime < 2 ^ 53 ->
  - 2 ^ 53 < endTime < 2 ^ 53 ->
  - 2 ^ 53 < endTime - startTime < 2 ^ 53 ->
  let d := Utils.calculateDuration startTime endTime in
  1000 * d <= endTime - startTime < 1000 * d + 1000
  /\ (0 <= d <-> startTime <= endTime)
  /\ (endTime = startTime - 1 -> d = -1).
Proof.
  intros _ _ _. unfold Utils.calculateDuration. cbv zeta.
  split_and!; try intros ->; Z.to_euclidean_division_equations; lia.
Qed.

Lemma calculateDuration_floor_witness :
  let startTime := 1700000000000 in
  let endTime := 1700000001999 in
  let d := Utils.calculateDuration startTime endTime in
  1000 * d <= endTime - startTime < 1000 * d + 1000
  /\ (0 <= d <-> startTime <= endTime)
  /\ (endTime = startTime - 1 -> d = -1).
Proof.
  intros startTime endTime.
  apply (calculateDuration_floor startTime endTime); subst startTime endTime; lia.
Defined.

(** X3. For a duration [d >= 0] in seconds (below [2^53], so that the
    number holds it exactly), [formatDuration] prints
    hours, minutes and seconds that add up to [d], with minutes and
    seconds below 60; it leaves out the hours when there are none, and
    the minutes too when there are neither hours nor minutes. *)
Theorem formatDuration_parts (d : Z) :
  0 <= d < 2 ^ 53 ->
  exists h m s,
    d = 3600 * h + 60 * m + s /\ 0 <= h /\ 0 <= m < 60 /\ 0 <= s < 60
    /\ Utils.formatDuration d
       = if 0 <? h then
           pretty h +:+ "h " +:+ pretty m +:+ "m " +:+ pretty s +:+ "s"
         else if 0 <? m then pretty m +:+ "m " +:+ pretty s +:+ "s"
         else pretty s +:+ "s".
Proof.
  intros [Hd _]. exists (d / 3600), (Z.rem d 3600 / 60), (Z.rem d 60).
  destruct (formatDuration_fields d Hd) as (Hsum & Hh & Hm & Hs).
  split_and!; try assumption; try lia. reflexivity.
Qed.

Lemma formatDuration_parts_witness :
  exists h m s,
    3725 = 3600 * h + 60 * m + s /\ 0 <= h /\ 0 <= m < 60 /\ 0 <= s < 60
    /\ Utils.formatDuration 3725
       = if 0 <? h then
           pretty h +:+ "h " +:+ pretty m +:+ "m " +:+ pretty s +:+ "s"
         else if 0 <? m then pretty m +:+ "m " +:+ pretty s +:+ "s"
         else pretty s +:+ "s".
Proof. apply (formatDuration_parts 3725). lia. Defined.

(** X4. For a negative duration (above [-2^53]) [formatDuration]
    prints the remainder of the seconds only: neither test [hours > 0], [minutes > 0] holds,
    so that one hour, two minutes and five seconds backwards read
    [-5s]. *)
Theorem formatDuration_negative (d : Z) :
  - 2 ^ 53 < d < 0 ->
  Utils.formatDuration d = pretty (Z.rem d 60) +:+ "s"
  /\ (-60) < Z.rem d 60 <= 0.
Proof.
  intros [_ Hd]. unfold Utils.formatDuration. cbv zeta.
  assert ((0 <? d / 3600) = false) as ->
    by (apply Z.ltb_ge; Z.to_euclidean_division_equations; lia).
  assert ((0 <? Z.rem d 3600 / 60) = false) as ->.
  { apply Z.ltb_ge. pose proof (Z.rem_bound_neg_pos d 3600).
    Z.to_euclidean_division_equations; lia. }
  split; [reflexivity|].
  Z.to_euclidean_division_equations; lia.
Qed.

Lemma formatDuration_negative_witness :
  Utils.formatDuration (-3725) = "-5s".
Proof. apply (formatDuration_negative (-3725)). lia. Defined.

(** ** utils.mjs: the retrier *)

Section RetryTrace.
Import Retry.
Context {A : Type}.
Implicit Types (fn : nat -> Settled A) (o : RetryOptions).

(** What the loop raises: the initial [lastError] when the loop
    condition fails at once, and else what the last call rejected
    with. *)
Lemma retry_loop_raised fn o fuel attempt lastError e acts :
  retry_loop fn o fuel attempt lastError = (Raised e, acts) ->
  (fuel = 0%nat /\ e = lastError /\ acts = [])
  \/ (exists t n, e = Some t /\ fn n = Rejected t /\ last (attempts acts) = Some n).
Proof.
  revert attempt lastError e acts.
  induction fuel as [|fuel IH]; intros attempt lastError e acts; simpl.
  - intros [= <- <-]. left. auto.
  - destruct (fn attempt) as [a|error] eqn:Hfn; [discriminate|].
    destruct (Z.of_nat attempt =? maxRetries o).
    { intros [= <- <-]. right. exists error, attempt. auto. }
    destruct (retry_loop fn o fuel (S attempt) (Some error)) as [r acts'] eqn:Hrec.
    intros [= -> <-]. right.
    apply IH in Hrec as [(_ & -> & ->)|(t & n & -> & Hn & Hlast)].
    + exists error, attempt. auto.
    + exists t, n. split_and!; [reflexivity|assumption|].
      rewrite attempts_retry. destruct (attempts acts'); [discriminate|exact Hlast].
Qed.

End RetryTrace.

(** X5. The retrier ends without having called the operation exactly
    when [maxRetries] is negative: the body of the loop is never
    entered, nothing is printed or waited for, and the [throw lastError]
    after the loop raises the variable as it was declared, with nothing
    assigned to it.  With [maxRetries >= 0], whatever the retrier raises
    is what the last call of the operation rejected with. *)
Theorem retry_without_attempt_iff_negative {A} (fn : nat -> Settled A)
    (o : Retry.RetryOptions) :
  (Retry.attempts (Retry.retryWithBackoff fn o).2 = [] <-> Retry.maxRetries o < 0)
  /\ (Retry.maxRetries o < 0 ->
        Retry.retryWithBackoff fn o = (Retry.Raised None, []))
  /\ (0 <= Retry.maxRetries o ->
        forall lastError,
          (Retry.retryWithBackoff fn o).1 = Retry.Raised lastError ->
          exists t n,
            lastError = Some t /\ fn n = Rejected t
            /\ last (Retry.attempts (Retry.retryWithBackoff fn o).2) = Some n).
Proof.
  unfold Retry.retryWithBackoff.
  assert (Hneg : Retry.maxRetries o < 0 ->
                 Retry.retry_loop fn o (Z.to_nat (Retry.maxRetries o + 1)) 0 None
                 = (Retry.Raised None, [])).
  { intros Hneg. replace (Z.to_nat (Retry.maxRetries o + 1)) with 0%nat by lia.
    reflexivity. }
  split_and!.
  - split.
    + intros Hnone. destruct (Z.ltb_spec (Retry.maxRetries o) 0) as [|Hm]; [assumption|].
      destruct (Retry.retry_loop fn o (Z.to_nat (Retry.maxRetries o + 1)) 0 None)
        as [r acts] eqn:Hrun.
      apply retry_loop_trace in Hrun as (n & _ & _ & _ & Hatt); [|lia..].
      simpl in Hnone. rewrite Hatt in Hnone. discriminate.
    + intros Hm. rewrite (Hneg Hm). reflexivity.
  - exact Hneg.
  - intros Hm lastError.
    destruct (Retry.retry_loop fn o (Z.to_nat (Retry.maxRetries o + 1)) 0 None)
      as [r acts] eqn:Hrun.
    simpl. intros ->.
    apply retry_loop_raised in Hrun as [(Hfuel & _)|Hlast]; [lia|exact Hlast].
Qed.

Lemma retry_without_attempt_iff_negative_witness :
  Retry.retryWithBackoff (fun _ => Fulfilled 7)
    {| Retry.maxRetries := -1; Retry.initialDelay := 1000;
       Retry.maxDelay := 30000; Retry.operationName := "Cloning o/r" |}
  = (Retry.Raised None, []).
Proof.
  apply (proj1 (proj2 (retry_without_attempt_iff_negative (fun _ => Fulfilled 7)
                         {| Retry.maxRetries := -1; Retry.initialDelay := 1000;
                            Retry.maxDelay := 30000;
                            Retry.operationName := "Cloning o/r" |}))).
  simpl. lia.
Defined.

Section RetryBounds.
Import Retry.
Context {A : Type}.
Implicit Types (fn : nat -> Settled A) (o : RetryOptions).

Lemma retryWithBackoff_delays fn o :
  exists n : nat,
    (n <= Z.to_nat (maxRetries o))%nat
    /\ delays (retryWithBackoff fn o).2
       = map (fun k : nat => Z.min (initialDelay o * 2 ^ Z.of_nat k) (maxDelay o))
             (seq 0 n).
Proof.
  unfold retryWithBackoff.
  destruct (Z.to_nat (maxRetries o + 1)) as [|fuel] eqn:Hfuel.
  - exists 0%nat. split; [lia|reflexivity].
  - destruct (retry_loop fn o (S fuel) 0 None) as [r acts] eqn:Hrun.
    apply retry_loop_trace in Hrun as (n & Hn & Hdel & _ & _); [|lia..].
    exists n. split; [lia|exact Hdel].
Qed.

Lemma backoff_sorted o (a n : nat) :
  0 <= initialDelay o ->
  Sorted Z.le
    (map (fun k : nat => Z.min (initialDelay o * 2 ^ Z.of_nat k) (maxDelay o))
         (seq a n)).
Proof.
  intros Hinit. revert a. induction n as [|n IH]; intros a; simpl; constructor.
  - apply IH.
  - destruct n as [|n]; simpl; constructor.
    assert (2 ^ Z.of_nat a <= 2 ^ Z.of_nat (S a))
      by (apply Z.pow_le_mono_r; lia).
    nia.
Qed.

Lemma backoff_sum o (a n : nat) :
  0 <= initialDelay o -> 0 <= maxDelay o ->
  0 <= foldr Z.add 0
         (map (fun k : nat => Z.min (initialDelay o * 2 ^ Z.of_nat k) (maxDelay o))
              (seq a n))
    <= Z.of_nat n * maxDelay o.
Proof.
  intros Hinit Hmax. revert a. induction n as [|n IH]; intros a; simpl; [lia|].
  specialize (IH (S a)).
  assert (0 <= 2 ^ Z.of_nat a) by (apply Z.pow_nonneg; lia).
  nia.
Qed.

End RetryBounds.

(** X6. With [initialDelay > 0], [maxDelay >= 0] and a retry count
    below [2^53], whatever the operation does: the retrier waits at
    most [maxRetries] times, no delay it asks the timer for is longer
    than [maxDelay], the delays never get shorter from one retry to the
    next, and all of them together are at most [maxRetries * maxDelay]
    milliseconds. *)
Theorem retry_delays_bounded {A} (fn : nat -> Settled A) (o : Retry.RetryOptions) :
  Retry.maxRetries o < 2 ^ 53 ->
  0 < Retry.initialDelay o ->
  0 <= Retry.maxDelay o ->
  let ds := Retry.delays (Retry.retryWithBackoff fn o).2 in
  (length ds <= Z.to_nat (Retry.maxRetries o))%nat
  /\ Forall (fun d => 0 <= d <= Retry.maxDelay o) ds
  /\ Sorted Z.le ds
  /\ foldr Z.add 0 ds <= Z.of_nat (Z.to_nat (Retry.maxRetries o)) * Retry.maxDelay o.
Proof.
  intros _ Hinit Hmax ds.
  destruct (retryWithBackoff_delays fn o) as (n & Hn & Hds).
  subst ds. rewrite Hds. split_and!.
  - rewrite length_map, length_seq. exact Hn.
  - apply Forall_forall. intros d Hd.
    apply list_elem_of_fmap in Hd as (k & -> & _).
    assert (0 <= 2 ^ Z.of_nat k) by (apply Z.pow_nonneg; lia). nia.
  - apply backoff_sorted. lia.
  - pose proof (backoff_sum o 0 n ltac:(lia) Hmax). nia.
Qed.

Lemma retry_delays_bounded_witness :
  let o := {| Retry.maxRetries := 5; Retry.initialDelay := 1000;
              Retry.maxDelay := 30000; Retry.operationName := "Cloning o/r" |} in
  let ds := Retry.delays
              (Retry.retryWithBackoff
                 (fun _ => Rejected (JsError "timeout") : Settled unit) o).2 in
  (length ds <= 5)%nat
  /\ Forall (fun d => 0 <= d <= 30000) ds
  /\ Sorted Z.le ds
  /\ foldr Z.add 0 ds <= 150000.
Proof.
  intros o ds.
  apply (retry_delays_bounded
           (fun _ => Rejected (JsError "timeout") : Settled unit) o);
    simpl; lia.
Defined.



(** ** repository.mjs *)

(** The embedding on small inputs. *)

Example split_lines :
  Repository.split "010" "repo-docs
other" = ["repo-docs"; "other"].
Proof. reflexivity. Qed.

Example split_empty : Repository.split "010" "" = [""].
Proof. reflexivity. Qed.

Example hasFork_needs_the_whole_name :
  (Repository.hasFork "dev" "repo" RepositoryExamples.fresh []).1 = Fulfilled false
  /\ (Repository.hasFork "dev" "repo-docs" RepositoryExamples.fresh []).1
     = Fulfilled true.
Proof. split; vm_compute; reflexivity. Qed.

Example ensureRepoExists_sets_up :
  Repository.ensureRepoExists "org" "repo" "workspace" RepositoryExamples.fresh []
  = (Fulfilled true,
     [Repository.Ran Repository.GhApiUser (RepositoryExamples.succeeded "dev
");
      Repository.Ran (Repository.GhRepoListForks "dev")
        (RepositoryExamples.succeeded "repo-docs
other
");
      Repository.Ran (Repository.GhRepoFork "org" "repo")
        (RepositoryExamples.succeeded "");
      Repository.Ran (Repository.GitCloneBare "dev" "repo" "workspace/repo")
        (RepositoryExamples.failed 128);
      Repository.Waited 1000;
      Repository.Ran (Repository.GitCloneBare "dev" "repo" "workspace/repo")
        (RepositoryExamples.failed 128);
      Repository.Waited 2000;
      Repository.Ran (Repository.GitCloneBare "dev" "repo" "workspace/repo")
        (RepositoryExamples.succeeded "");
      Repository.Ran (Repository.GitRemoteGetUrl "workspace/repo")
        (RepositoryExamples.failed 2);
      Repository.Ran
        (Repository.GitRemoteAdd "workspace/repo" "https://github.com/org/repo.git")
        (RepositoryExamples.succeeded "");
      Repository.Ran (Repository.GitFetchAll "workspace/repo")
        (RepositoryExamples.succeeded "")]).
Proof. vm_compute. reflexivity. Qed.

(** Unfolding of the combinators. *)
Ltac script :=
  unfold mbind, Repository.script_bind, mret, Repository.script_ret,
    Repository.catch, Repository.throw, Repository.sh, Repository.pathExists;
  cbv beta iota zeta.

Section RepositoryFacts.
Import Repository.
Implicit Types (host : Host) (log : list Did).

Lemma processes_app log log' :
  processes (log ++ log') = processes log ++ processes log'.
Proof. apply omap_app. Qed.

Lemma processes_ran log c out :
  length (processes (log ++ [Ran c out])) = S (length (processes log)).
Proof. rewrite processes_app, length_app. simpl. lia. Qed.

Lemma getCurrentGitHubUser_eq host log :
  let out := host_process host (length (processes log)) GhApiUser in
  getCurrentGitHubUser host log
  = (if exitCode out =? 0 then Fulfilled (Runner.trim (stdout out))
     else Rejected (JsError
       "Could not get current GitHub user. Please check gh authentication."),
     log ++ [Ran GhApiUser out]).
Proof.
  intros out. unfold getCurrentGitHubUser. script. fold out.
  unfold settle. destruct (exitCode out =? 0); reflexivity.
Qed.

Lemma hasFork_eq host log username repo :
  let out := host_process host (length (processes log)) (GhRepoListForks username) in
  hasFork username repo host log
  = (Fulfilled ((exitCode out =? 0)
                && bool_decide (repo ∈ split "010" (Runner.trim (stdout out)))),
     log ++ [Ran (GhRepoListForks username) out]).
Proof.
  intros out. unfold hasFork. script. fold out.
  unfold settle. destruct (exitCode out =? 0); reflexivity.
Qed.

Lemma createFork_eq host log org repo :
  let out := host_process host (length (processes log)) (GhRepoFork org repo) in
  createFork org repo host log
  = (Fulfilled (exitCode out =? 0), log ++ [Ran (GhRepoFork org repo) out]).
Proof.
  intros out. unfold createFork. script. fold out.
  unfold settle. destruct (exitCode out =? 0); reflexivity.
Qed.

Lemma fetchLatestBranches_eq host log repoDir :
  let out := host_process host (length (processes log)) (GitFetchAll repoDir) in
  fetchLatestBranches repoDir host log
  = (Fulfilled (exitCode out =? 0), log ++ [Ran (GitFetchAll repoDir) out]).
Proof.
  intros out. unfold fetchLatestBranches. script. fold out.
  unfold settle. destruct (exitCode out =? 0); reflexivity.
Qed.

Lemma configureUpstream_eq host log repoDir org repo :
  let n0 := length (processes log) in
  let out1 := host_process host n0 (GitRemoteGetUrl repoDir) in
  let write := if exitCode out1 =? 0
               then GitRemoteSetUrl repoDir (upstream_url org repo)
               else GitRemoteAdd repoDir (upstream_url org repo) in
  let out2 := host_process host (S n0) write in
  configureUpstream repoDir org repo host log
  = (Fulfilled (exitCode out2 =? 0),
     log ++ [Ran (GitRemoteGetUrl repoDir) out1; Ran write out2]).
Proof.
  intros n0 out1 write out2. unfold configureUpstream. script.
  fold n0 out1. subst write out2.
  unfold settle. destruct (exitCode out1 =? 0); cbv beta iota;
    rewrite processes_ran; fold n0; rewrite <- app_assoc;
    match goal with |- context [exitCode ?o =? 0] =>
      destruct (exitCode o =? 0) end; reflexivity.
Qed.

Lemma updateUpstreamRemote_eq host log repoDir org repo :
  let n0 := length (processes log) in
  let out1 := host_process host n0 (GitRemoteGetUrl repoDir) in
  let currentUpstream :=
    if exitCode out1 =? 0 then Runner.trim (stdout out1) else "" in
  let write := if bool_decide (currentUpstream <> "")
               then GitRemoteSetUrl repoDir (upstream_url org repo)
               else GitRemoteAdd repoDir (upstream_url org repo) in
  let out2 := host_process host (S n0) write in
  updateUpstreamRemote repoDir org repo host log
  = if bool_decide (currentUpstream <> upstream_url org repo)
    then (Fulfilled (exitCode out2 =? 0),
          log ++ [Ran (GitRemoteGetUrl repoDir) out1; Ran write out2])
    else (Fulfilled true, log ++ [Ran (GitRemoteGetUrl repoDir) out1]).
Proof.
  intros n0 out1 currentUpstream write out2. unfold updateUpstreamRemote. script.
  fold n0 out1. subst currentUpstream write out2.
  unfold settle. destruct (exitCode out1 =? 0); cbv beta iota;
    (case_bool_decide; [|reflexivity]);
    (case_bool_decide; script; rewrite processes_ran; fold n0;
     rewrite <- app_assoc; unfold settle;
     match goal with |- context [exitCode ?o =? 0] =>
       destruct (exitCode o =? 0) end; reflexivity).
Qed.

Lemma omap_did_block host n0 c k a b d acts :
  omap (did_of host n0 c)
    (Retry.Call k :: Retry.Emit a :: Retry.Emit b :: Retry.Sleep d :: acts)
  = Ran c (host_process host (n0 + k) c) :: Waited d
    :: omap (did_of host n0 c) acts.
Proof. reflexivity. Qed.

Lemma clone_loop host n0 c o fuel attempt lastError r acts :
  let out := fun k : nat => host_process host (n0 + k) c in
  let fn := fun n : nat =>
    match settle (out n) with
    | Fulfilled _ => Fulfilled tt
    | Rejected t => Rejected t
    end in
  Z.of_nat attempt + Z.of_nat fuel = Retry.maxRetries o + 1 ->
  (0 < fuel)%nat ->
  Retry.retry_loop fn o fuel attempt lastError = (r, acts) ->
  exists n : nat,
    (n < fuel)%nat
    /\ (forall k, (k < n)%nat -> exitCode (out (attempt + k)%nat) <> 0)
    /\ omap (did_of host n0 c) acts
       = flat_map (fun k : nat =>
                     [Ran c (out k);
                      Waited (Z.min (Retry.initialDelay o * 2 ^ Z.of_nat k)
                                    (Retry.maxDelay o))])
                  (seq attempt n)
         ++ [Ran c (out (attempt + n)%nat)]
    /\ match r with
       | Retry.Returned _ => exitCode (out (attempt + n)%nat) = 0
       | Retry.Raised _ =>
           exitCode (out (attempt + n)%nat) <> 0 /\ S n = fuel
       end.
Proof.
  intros out fn. revert attempt lastError r acts.
  induction fuel as [|fuel IH]; intros attempt lastError r acts Hsum Hpos; [lia|].
  cbn [Retry.retry_loop].
  assert (Hfn : fn attempt = if exitCode (out attempt) =? 0 then Fulfilled tt
                             else Rejected (ProcessFailed (out attempt))).
  { unfold fn, settle. destruct (exitCode (out attempt) =? 0); reflexivity. }
  rewrite Hfn.
  destruct (Z.eqb_spec (exitCode (out attempt)) 0) as [Hzero|Hnonzero].
  { intros [= <- <-]. exists 0%nat. rewrite Nat.add_0_r.
    split_and!; [lia|intros k Hk; lia|reflexivity|exact Hzero]. }
  destruct (Z.eqb_spec (Z.of_nat attempt) (Retry.maxRetries o)) as [Heq|Hne].
  { intros [= <- <-]. exists 0%nat. rewrite Nat.add_0_r.
    split_and!; [lia|intros k Hk; lia|reflexivity|exact Hnonzero|lia]. }
  destruct (Retry.retry_loop fn o fuel (S attempt) (Some (ProcessFailed (out attempt))))
    as [r' acts'] eqn:Hrec.
  intros [= <- <-].
  apply IH in Hrec as (n & Hn & Hfail & Hlog & Hend); [|lia..].
  exists (S n).
  replace (attempt + S n)%nat with (S attempt + n)%nat by lia.
  split_and!.
  - lia.
  - intros [|k] Hk; [rewrite Nat.add_0_r; exact Hnonzero|].
    replace (attempt + S k)%nat with (S attempt + k)%nat by lia.
    apply Hfail. lia.
  - rewrite omap_did_block, Hlog. reflexivity.
  - destruct r' as [a|t]; [exact Hend|]. destruct Hend as [Hend1 Hend2]. split; [exact Hend1|lia].
Qed.

Lemma flat_map_ext_elem {X Y} (f g : X -> list Y) (l : list X) :
  (forall x, x ∈ l -> f x = g x) -> flat_map f l = flat_map g l.
Proof.
  induction l as [|x l IH]; intros Hext; simpl; [reflexivity|].
  rewrite Hext by left. f_equal. apply IH. intros y Hy. apply Hext. right. exact Hy.
Qed.

Lemma clone_backoff (k : nat) :
  (k < 5)%nat -> Z.min (1000 * 2 ^ Z.of_nat k) 30000 = 1000 * 2 ^ Z.of_nat k.
Proof.
  intros Hk. assert (2 ^ Z.of_nat k <= 2 ^ 4) by (apply Z.pow_le_mono_r; lia).
  lia.
Qed.

Lemma cloneRepository_eq host log username repo repoDir :
  let c := GitCloneBare username repo repoDir in
  let out := fun k : nat => host_process host (length (processes log) + k) c in
  exists n : nat,
    (n <= 5)%nat
    /\ (forall k, (k < n)%nat -> exitCode (out k) <> 0)
    /\ (exitCode (out n) <> 0 -> n = 5%nat)
    /\ cloneRepository username repo repoDir host log
       = (Fulfilled (exitCode (out n) =? 0),
          log ++ flat_map (fun k : nat =>
                             [Ran c (out k); Waited (1000 * 2 ^ Z.of_nat k)])
                          (seq 0 n)
              ++ [Ran c (out n)]).
Proof.
  intros c out. unfold cloneRepository. cbv zeta. fold c.
  match goal with
  | |- context [Retry.retryWithBackoff ?f ?o] =>
      destruct (Retry.retryWithBackoff f o) as [r acts] eqn:Hrun
  end.
  unfold Retry.retryWithBackoff in Hrun.
  apply clone_loop in Hrun as (n & Hn & Hfail & Hlog & Hend);
    [|simpl; lia..].
  simpl in Hn. fold out in Hlog, Hfail, Hend. simpl in Hlog, Hfail, Hend.
  exists n. split_and!.
  - lia.
  - exact Hfail.
  - intros Hnonzero. destruct r as [a|t]; [contradiction|].
    destruct Hend as [_ Hend]. simpl in Hend. lia.
  - rewrite Hlog. f_equal.
    + f_equal. destruct r as [a|t].
      * symmetry. apply Z.eqb_eq. exact Hend.
      * symmetry. apply Z.eqb_neq. apply Hend.
    + f_equal. f_equal. apply flat_map_ext_elem. intros k Hk.
      apply elem_of_seq in Hk. rewrite clone_backoff by lia. reflexivity.
Qed.

End RepositoryFacts.

(** X8. [cloneRepository] never throws.  It runs the same [git clone]
    up to six times, until the first attempt that exits 0, and waits
    1, 2, 4, 8 and 16 seconds between the attempts (the cap of 30
    seconds is never reached), 31 seconds at most in all; it returns
    [true] when an attempt exits 0 and [false] after six failures. *)
Theorem cloneRepository_retries (host : Repository.Host)
    (log : list Repository.Did) (username repo repoDir : string) :
  let c := Repository.GitCloneBare username repo repoDir in
  let out := fun k : nat =>
    Repository.host_process host (length (Repository.processes log) + k) c in
  exists (n : nat) new,
    Repository.cloneRepository username repo repoDir host log
    = (Fulfilled (exitCode (out n) =? 0), log ++ new)
    /\ (n <= 5)%nat
    /\ (forall k, (k < n)%nat -> exitCode (out k) <> 0)
    /\ (exitCode (out n) <> 0 -> n = 5%nat)
    /\ Repository.processes new = map (fun k : nat => (c, out k)) (seq 0 (S n))
    /\ waits new = map (fun k : nat => 1000 * 2 ^ Z.of_nat k) (seq 0 n)
    /\ foldr Z.add 0 (waits new) = 1000 * (2 ^ Z.of_nat n - 1).
Proof.
  intros c out.
  destruct (cloneRepository_eq host log username repo repoDir)
    as (n & Hn & Hfail & Hlast & Hrun).
  fold c out in Hfail, Hlast, Hrun.
  eexists n, _. split; [exact Hrun|]. split_and!; try assumption.
  - rewrite seq_S, map_app, processes_app. f_equal. generalize 0%nat as a.
    clear. induction n as [|n IH]; intros a; [reflexivity|].
    simpl. f_equal. apply IH.
  - unfold waits. rewrite omap_app. simpl. rewrite app_nil_r. generalize 0%nat as a.
    clear. induction n as [|n IH]; intros a; [reflexivity|].
    simpl. f_equal. apply IH.
  - unfold waits. rewrite omap_app. simpl. rewrite app_nil_r.
    assert (Hsum : forall a : nat,
      foldr Z.add 0
        (omap waited_of
           (flat_map (fun k : nat =>
                        [Repository.Ran c (out k);
                         Repository.Waited (1000 * 2 ^ Z.of_nat k)])
                     (seq a n)))
      = 1000 * 2 ^ Z.of_nat a * (2 ^ Z.of_nat n - 1)).
    { clear. induction n as [|n IH]; intros a; [simpl; lia|].
      cbn [seq flat_map app omap list_omap waited_of foldr].
      change (foldr Z.add 0
                (omap waited_of
                   (flat_map (fun k : nat =>
                                [Repository.Ran c (out k);
                                 Repository.Waited (1000 * 2 ^ Z.of_nat k)])
                             (seq (S a) n))))
        with (foldr Z.add 0
                (omap waited_of
                   (flat_map (fun k : nat =>
                                [Repository.Ran c (out k);
                                 Repository.Waited (1000 * 2 ^ Z.of_nat k)])
                             (seq (S a) n)))).
      rewrite IH. rewrite !Nat2Z.inj_succ, !Z.pow_succ_r by lia. lia. }
    rewrite Hsum. simpl. lia.
Qed.

(** X9. The helpers [hasFork], [createFork], [cloneRepository],
    [configureUpstream], [updateUpstreamRemote] and
    [fetchLatestBranches] never throw: each returns a boolean whatever
    its child processes do, and [hasFork] answers [false] when the
    listing fails.  [getCurrentGitHubUser] throws nothing but its own
    error, in place of the failure of [gh]. *)
Theorem repository_helpers_never_throw (host : Repository.Host)
    (log : list Repository.Did) :
  (forall username repo,
      exists b log',
        Repository.hasFork username repo host log = (Fulfilled b, log')
        /\ (exitCode (Repository.host_process host
                        (length (Repository.processes log))
                        (Repository.GhRepoListForks username)) <> 0 ->
            b = false))
  /\ (forall org repo,
        exists b log', Repository.createFork org repo host log = (Fulfilled b, log'))
  /\ (forall username repo repoDir,
        exists b log',
          Repository.cloneRepository username repo repoDir host log
          = (Fulfilled b, log'))
  /\ (forall repoDir org repo,
        exists b log',
          Repository.configureUpstream repoDir org repo host log
          = (Fulfilled b, log'))
  /\ (forall repoDir org repo,
        exists b log',
          Repository.updateUpstreamRemote repoDir org repo host log
          = (Fulfilled b, log'))
  /\ (forall repoDir,
        exists b log',
          Repository.fetchLatestBranches repoDir host log = (Fulfilled b, log'))
  /\ (forall t log',
        Repository.getCurrentGitHubUser host log = (Rejected t, log') ->
        t = JsError
              "Could not get current GitHub user. Please check gh authentication.").
Proof.
  split_and!.
  - intros username repo. rewrite hasFork_eq. eexists _, _. split; [reflexivity|].
    intros Hfail. apply Z.eqb_neq in Hfail. rewrite Hfail. reflexivity.
  - intros org repo. rewrite createFork_eq. eauto.
  - intros username repo repoDir.
    destruct (cloneRepository_eq host log username repo repoDir)
      as (n & _ & _ & _ & ->). eauto.
  - intros repoDir org repo. rewrite configureUpstream_eq. eauto.
  - intros repoDir org repo. rewrite updateUpstreamRemote_eq.
    case_bool_decide; eauto.
  - intros repoDir. rewrite fetchLatestBranches_eq. eauto.
  - intros t log'. rewrite getCurrentGitHubUser_eq.
    destruct (exitCode _ =? 0); [discriminate|]. intros [= <- _]. reflexivity.
Qed.

Lemma repository_helpers_never_throw_witness :
  exists b log',
    Repository.hasFork "dev" "repo"
      {| Repository.host_process := fun _ _ => RepositoryExamples.failed 1;
         Repository.host_pathExists := fun _ => Fulfilled false |} []
    = (Fulfilled b, log')
    /\ b = false.
Proof.
  destruct (proj1 (repository_helpers_never_throw
                     {| Repository.host_process :=
                          fun _ _ => RepositoryExamples.failed 1;
                        Repository.host_pathExists := fun _ => Fulfilled false |}
                     []) "dev" "repo") as (b & log' & Hrun & Hfalse).
  exists b, log'. split; [exact Hrun|]. apply Hfalse. simpl. lia.
Defined.

(** X10. [updateUpstreamRemote] changes the remote only when it has
    to.  When [git remote get-url upstream] prints the expected URL
    (white space around it aside), no other process is run and the
    result is [true].  Otherwise exactly one more process is run:
    [remote add] when the read failed or printed nothing, [remote
    set-url] when it printed another URL; the result tells whether
    that process exited 0. *)
Theorem updateUpstreamRemote_writes_when_needed (host : Repository.Host)
    (log : list Repository.Did) (repoDir org repo : string) :
  let n0 := length (Repository.processes log) in
  let url := Repository.upstream_url org repo in
  let read := Repository.GitRemoteGetUrl repoDir in
  let out := Repository.host_process host n0 read in
  let wrote := fun write =>
    (Fulfilled (exitCode (Repository.host_process host (S n0) write) =? 0),
     log ++ [Repository.Ran read out;
             Repository.Ran write (Repository.host_process host (S n0) write)]) in
  (exitCode out = 0 -> Runner.trim (stdout out) = url ->
     Repository.updateUpstreamRemote repoDir org repo host log
     = (Fulfilled true, log ++ [Repository.Ran read out]))
  /\ (exitCode out <> 0 \/ Runner.trim (stdout out) = "" ->
        Repository.updateUpstreamRemote repoDir org repo host log
        = wrote (Repository.GitRemoteAdd repoDir url))
  /\ (exitCode out = 0 -> Runner.trim (stdout out) <> "" ->
      Runner.trim (stdout out) <> url ->
        Repository.updateUpstreamRemote repoDir org repo host log
        = wrote (Repository.GitRemoteSetUrl repoDir url)).
Proof.
  intros n0 url read out wrote.
  assert (Hurl : url <> "") by discriminate.
  rewrite updateUpstreamRemote_eq. fold n0 url read out. split_and!.
  - intros Hzero Hsame. apply Z.eqb_eq in Hzero. rewrite Hzero.
    rewrite bool_decide_eq_false_2 by (intros Hne; apply Hne, Hsame). reflexivity.
  - intros Hnone.
    assert ((if exitCode out =? 0 then Runner.trim (stdout out) else "") = "")
      as ->.
    { destruct Hnone as [Hfail|Hblank]; [|destruct (exitCode out =? 0); auto].
      apply Z.eqb_neq in Hfail. rewrite Hfail. reflexivity. }
    rewrite bool_decide_eq_true_2 by auto.
    rewrite (bool_decide_eq_false_2 ("" <> "")) by auto. reflexivity.
  - intros Hzero Hsome Hother. apply Z.eqb_eq in Hzero. rewrite Hzero.
    rewrite !bool_decide_eq_true_2 by assumption. reflexivity.
Qed.

Lemma updateUpstreamRemote_writes_when_needed_witness :
  Repository.updateUpstreamRemote "workspace/repo" "org" "repo"
    (RepositoryExamples.cloned "https://github.com/org/repo.git") []
  = (Fulfilled true,
     [Repository.Ran (Repository.GitRemoteGetUrl "workspace/repo")
        (RepositoryExamples.succeeded "https://github.com/org/repo.git
")]).
Proof.
  apply (proj1 (updateUpstreamRemote_writes_when_needed
                  (RepositoryExamples.cloned "https://github.com/org/repo.git")
                  [] "workspace/repo" "org" "repo")); reflexivity.
Defined.

(** X11. [configureUpstream] always runs two processes, the read of
    the upstream remote and a write of the URL of [org/repo]: [remote
    set-url] when the read exits 0, whatever it printed, and [remote
    add] otherwise.  The result tells whether the write exited 0. *)
Theorem configureUpstream_always_writes (host : Repository.Host)
    (log : list Repository.Did) (repoDir org repo : string) :
  let n0 := length (Repository.processes log) in
  let url := Repository.upstream_url org repo in
  let read := Repository.GitRemoteGetUrl repoDir in
  let out := Repository.host_process host n0 read in
  exists write,
    (exitCode out = 0 /\ write = Repository.GitRemoteSetUrl repoDir url
     \/ exitCode out <> 0 /\ write = Repository.GitRemoteAdd repoDir url)
    /\ Repository.configureUpstream repoDir org repo host log
       = (Fulfilled (exitCode (Repository.host_process host (S n0) write) =? 0),
          log ++ [Repository.Ran read out;
                  Repository.Ran write
                    (Repository.host_process host (S n0) write)]).
Proof.
  intros n0 url read out. rewrite configureUpstream_eq. fold n0 url read out.
  destruct (Z.eqb_spec (exitCode out) 0) as [Hzero|Hnonzero];
    eexists; (split; [|reflexivity]); auto.
Qed.

(** X12. When the clone is already in the workspace, [ensureRepoExists]
    returns [true] whatever its child processes do: a failure to update
    the upstream remote or to fetch is not reported.  It runs two or
    three processes, all of them [git] commands on the clone (the read
    of the upstream remote, at most one write of it, and the fetch,
    which comes last); it asks [gh] nothing and clones nothing. *)
Theorem ensureRepoExists_existing `{PathApi} (host : Repository.Host)
    (log : list Repository.Did) (org repo workspaceDir : string) :
  let repoDir := path_join workspaceDir repo in
  let url := Repository.upstream_url org repo in
  Repository.host_pathExists host repoDir = Fulfilled true ->
  exists log',
    Repository.ensureRepoExists org repo workspaceDir host log
    = (Fulfilled true, log ++ log')
    /\ (2 <= length log' <= 3)%nat
    /\ (exists out, head log' = Some (Repository.Ran (Repository.GitRemoteGetUrl repoDir) out))
    /\ (exists out, last log' = Some (Repository.Ran (Repository.GitFetchAll repoDir) out))
    /\ Forall (fun d => exists c out,
                   d = Repository.Ran c out
                   /\ c ∈ [Repository.GitRemoteGetUrl repoDir;
                           Repository.GitRemoteSetUrl repoDir url;
                           Repository.GitRemoteAdd repoDir url;
                           Repository.GitFetchAll repoDir]) log'.
Proof.
  intros repoDir url Hthere. unfold Repository.ensureRepoExists. script.
  fold repoDir. rewrite Hthere.
  rewrite updateUpstreamRemote_eq. fold url.
  case_bool_decide; [case_bool_decide|];
    rewrite fetchLatestBranches_eq; rewrite <- app_assoc;
    eexists; (split; [reflexivity|]); simpl;
    (split_and!; [lia|lia|eauto|eauto|]);
    repeat (apply Forall_cons; split;
            [eexists _, _; split; [reflexivity|]; set_solver|]);
    apply Forall_nil_2.
Qed.

Lemma ensureRepoExists_existing_witness :
  exists log',
    Repository.ensureRepoExists "org" "repo" "workspace"
      (RepositoryExamples.cloned "https://github.com/other/repo.git") []
    = (Fulfilled true, log')
    /\ (exists out,
          last log'
          = Some (Repository.Ran (Repository.GitFetchAll "workspace/repo") out)
          /\ exitCode out = 128).
Proof.
  destruct (ensureRepoExists_existing
              (RepositoryExamples.cloned "https://github.com/other/repo.git")
              [] "org" "repo" "workspace" eq_refl)
    as (log' & Hrun & _ & _ & _ & _).
  exists log'. split; [exact Hrun|].
  vm_compute in Hrun. injection Hrun as <-. eexists. split; reflexivity.
Defined.

Section EnsureFacts.
Import Repository.
Context `{PathApi}.

Lemma forks_app log log' : forks (log ++ log') = forks log ++ forks log'.
Proof. apply omap_app. Qed.

Lemma setup_tail host log user org repo repoDir :
  let url := upstream_url org repo in
  exists (r : bool) rest,
    (cloned ← cloneRepository user repo repoDir;
     if negb cloned then mret false
     else
       configured ← configureUpstream repoDir org repo;
       if negb configured then mret false
       else
         fetchLatestBranches repoDir;;
         mret true) host log
    = (Fulfilled r, log ++ rest)
    /\ (r = true ->
        exists mid out_c out_r write out_w out_f,
          rest = mid ++ [Ran (GitCloneBare user repo repoDir) out_c;
                         Ran (GitRemoteGetUrl repoDir) out_r;
                         Ran write out_w;
                         Ran (GitFetchAll repoDir) out_f]
          /\ exitCode out_c = 0 /\ exitCode out_w = 0
          /\ (write = GitRemoteSetUrl repoDir url
              \/ write = GitRemoteAdd repoDir url))
    /\ (r = false ->
        exists c out,
          last rest = Some (Ran c out) /\ exitCode out <> 0
          /\ (c = GitCloneBare user repo repoDir
              \/ c = GitRemoteSetUrl repoDir url
              \/ c = GitRemoteAdd repoDir url))
    /\ forks rest = [].
Proof.
  intros url. script.
  destruct (cloneRepository_eq host log user repo repoDir)
    as (n & Hn & Hfail & Hlast & ->).
  match goal with
  | |- context [flat_map ?f (seq 0 n)] => set (waits := flat_map f (seq 0 n))
  end.
  assert (Hwaits : forks waits = []).
  { subst waits. clear. generalize 0%nat as a.
    induction n as [|n IH]; intros a; [reflexivity|]. simpl. apply IH. }
  match goal with
  | |- context [negb (exitCode ?o =? 0)] =>
      set (out_c := o); destruct (Z.eqb_spec (exitCode out_c) 0) as [Hzero|Hnonzero]
  end; cbn [negb].
  2:{ eexists false, _. split; [reflexivity|]. split_and!.
      - discriminate.
      - intros _. eexists _, out_c. rewrite last_snoc. auto.
      - rewrite forks_app, Hwaits. reflexivity. }
  rewrite configureUpstream_eq. fold url.
  match goal with
  | |- context [Ran (GitRemoteGetUrl repoDir) ?o] => set (out_r := o)
  end.
  match goal with
  | |- context [Ran (if ?b then ?x else ?y) _] =>
      set (write := if b then x else y)
  end.
  match goal with
  | |- context [Ran write ?o] => set (out_w := o)
  end.
  assert (Hwrite : write = GitRemoteSetUrl repoDir url
                   \/ write = GitRemoteAdd repoDir url)
    by (subst write; destruct (exitCode out_r =? 0); auto).
  destruct (Z.eqb_spec (exitCode out_w) 0) as [Hw|Hw]; cbn [negb].
  2:{ exists false,
        (((waits ++ [Ran (GitCloneBare user repo repoDir) out_c])
          ++ [Ran (GitRemoteGetUrl repoDir) out_r]) ++ [Ran write out_w]).
      split; [rewrite <- !app_assoc; reflexivity|]. split_and!.
      - discriminate.
      - intros _. exists write, out_w. rewrite last_snoc. split_and!; auto.
      - rewrite !forks_app, Hwaits.
        destruct Hwrite as [Hwr|Hwr]; rewrite Hwr; reflexivity. }
  rewrite fetchLatestBranches_eq.
  match goal with
  | |- context [Ran (GitFetchAll repoDir) ?o] => set (out_f := o)
  end.
  exists true,
    ((((waits ++ [Ran (GitCloneBare user repo repoDir) out_c])
       ++ [Ran (GitRemoteGetUrl repoDir) out_r]) ++ [Ran write out_w])
     ++ [Ran (GitFetchAll repoDir) out_f]).
  split; [rewrite <- !app_assoc; reflexivity|]. split_and!.
  - intros _. exists waits, out_c, out_r, write, out_w, out_f.
    split; [rewrite <- !app_assoc; reflexivity|]. auto.
  - discriminate.
  - rewrite !forks_app, Hwaits.
    destruct Hwrite as [Hwr|Hwr]; rewrite Hwr; reflexivity.
Qed.


Lemma ensureRepoExists_fresh_run host log org repo workspaceDir :
  let repoDir := path_join workspaceDir repo in
  let n0 := length (processes log) in
  let out_u := host_process host n0 GhApiUser in
  let user := Runner.trim (stdout out_u) in
  let out_l := host_process host (S n0) (GhRepoListForks user) in
  let out_k := host_process host (S (S n0)) (GhRepoFork org repo) in
  let before := [Ran GhApiUser out_u; Ran (GhRepoListForks user) out_l] in
  host_pathExists host repoDir = Fulfilled false ->
  ensureRepoExists org repo workspaceDir host log
  = if exitCode out_u =? 0 then
      if (exitCode out_l =? 0)
         && bool_decide (repo ∈ split "010" (Runner.trim (stdout out_l)))
      then
        (cloned ← cloneRepository user repo repoDir;
         if negb cloned then mret false
         else
           configured ← configureUpstream repoDir org repo;
           if negb configured then mret false
           else
             fetchLatestBranches repoDir;;
             mret true) host (log ++ before)
      else if exitCode out_k =? 0 then
        (cloned ← cloneRepository user repo repoDir;
         if negb cloned then mret false
         else
           configured ← configureUpstream repoDir org repo;
           if negb configured then mret false
           else
             fetchLatestBranches repoDir;;
             mret true) host (log ++ before ++ [Ran (GhRepoFork org repo) out_k])
      else (Fulfilled false, log ++ before ++ [Ran (GhRepoFork org repo) out_k])
    else
      (Rejected (JsError
         "Could not get current GitHub user. Please check gh authentication."),
       log ++ [Ran GhApiUser out_u]).
Proof.
  intros repoDir n0 out_u user out_l out_k before Hthere.
  unfold ensureRepoExists. script. fold repoDir. rewrite Hthere.
  rewrite getCurrentGitHubUser_eq. fold n0 out_u.
  destruct (exitCode out_u =? 0); [|reflexivity].
  rewrite hasFork_eq, processes_ran. fold n0 user out_l.
  subst before.
  destruct ((exitCode out_l =? 0)
            && bool_decide (repo ∈ split "010" (Runner.trim (stdout out_l))));
    cbn [negb]; [rewrite <- !app_assoc; reflexivity|].
  rewrite createFork_eq, !processes_ran. fold n0 out_k.
  rewrite <- !app_assoc. cbn [app].
  destruct (exitCode out_k =? 0); reflexivity.
Qed.

End EnsureFacts.

(** X13. When the clone is not in the workspace, [ensureRepoExists]
    ends in one of three ways.  It throws only when [gh api user]
    fails, before any other process is run.  It returns [true] only
    after a clone from the fork of the current user that exited 0 and
    a write of the upstream remote that exited 0, both followed by a
    fetch whose outcome is not reported.  It returns [false] right
    after the process that failed: the creation of the fork, the last
    attempt to clone, or the write of the upstream remote. *)
Theorem ensureRepoExists_outcomes `{PathApi} (host : Repository.Host)
    (log : list Repository.Did) (org repo workspaceDir : string) :
  let repoDir := path_join workspaceDir repo in
  Repository.host_pathExists host repoDir = Fulfilled false ->
  exists r log',
    Repository.ensureRepoExists org repo workspaceDir host log = (r, log ++ log')
    /\ ensure_outcome org repo repoDir r log'.
Proof.
  intros repoDir Hthere. set (url := Repository.upstream_url org repo).
  pose proof (ensureRepoExists_fresh_run host log org repo workspaceDir Hthere)
    as Hrun.
  cbv zeta in Hrun. fold repoDir in Hrun. rewrite Hrun. clear Hrun.
  set (out_u := Repository.host_process host _ Repository.GhApiUser).
  set (user := Runner.trim (stdout out_u)).
  set (out_l := Repository.host_process host _ (Repository.GhRepoListForks user)).
  set (out_k := Repository.host_process host _ (Repository.GhRepoFork org repo)).
  assert (Htail : forall before,
    exists (r : bool) rest,
      (cloned ← Repository.cloneRepository user repo repoDir;
       if negb cloned then mret false
       else
         configured ← Repository.configureUpstream repoDir org repo;
         if negb configured then mret false
         else
           Repository.fetchLatestBranches repoDir;;
           mret true) host (log ++ Repository.Ran Repository.GhApiUser out_u :: before)
      = (Fulfilled r, log ++ Repository.Ran Repository.GhApiUser out_u :: before ++ rest)
      /\ (r = true ->
          exists mid out_c out_r write out_w out_f,
            Repository.Ran Repository.GhApiUser out_u :: before ++ rest
            = Repository.Ran Repository.GhApiUser out_u
              :: mid
              ++ [Repository.Ran (Repository.GitCloneBare user repo repoDir) out_c;
                  Repository.Ran (Repository.GitRemoteGetUrl repoDir) out_r;
                  Repository.Ran write out_w;
                  Repository.Ran (Repository.GitFetchAll repoDir) out_f]
            /\ exitCode out_c = 0 /\ exitCode out_w = 0
            /\ (write = Repository.GitRemoteSetUrl repoDir url
                \/ write = Repository.GitRemoteAdd repoDir url))
      /\ (r = false ->
          exists c out,
            last (Repository.Ran Repository.GhApiUser out_u :: before ++ rest)
            = Some (Repository.Ran c out)
            /\ exitCode out <> 0
            /\ (c = Repository.GitCloneBare user repo repoDir
                \/ c = Repository.GitRemoteSetUrl repoDir url
                \/ c = Repository.GitRemoteAdd repoDir url))).
  { intros before.
    destruct (setup_tail host
                (log ++ Repository.Ran Repository.GhApiUser out_u :: before)
                user org repo repoDir)
      as (r & rest & Hrun & Htrue & Hfalse & _).
    exists r, rest. split; [rewrite Hrun, <- app_assoc; reflexivity|]. split.
    - intros Hr. destruct (Htrue Hr)
        as (mid & out_c & out_r & write & out_w & out_f & -> & Hc & Hw & Hwrite).
      exists (before ++ mid), out_c, out_r, write, out_w, out_f.
      split; [rewrite <- app_assoc; reflexivity|]. auto.
    - intros Hr. destruct (Hfalse Hr) as (c & out & Hlast & Hexit & Hc).
      exists c, out. split; [|auto].
      rewrite app_comm_cons, last_app, Hlast. reflexivity. }
  destruct (Z.eqb_spec (exitCode out_u) 0) as [Huser|Huser].
  2:{ eexists _, _. split; [reflexivity|]. split; [reflexivity|]. eauto. }
  assert (Hdone : forall before,
    exists r log',
      (cloned ← Repository.cloneRepository user repo repoDir;
       if negb cloned then mret false
       else
         configured ← Repository.configureUpstream repoDir org repo;
         if negb configured then mret false
         else
           Repository.fetchLatestBranches repoDir;;
           mret true) host (log ++ Repository.Ran Repository.GhApiUser out_u :: before)
      = (r, log ++ log')
      /\ ensure_outcome org repo repoDir r log').
  { intros before. destruct (Htail before) as (r & rest & Hrun & Htrue & Hfalse).
    eexists _, _. split; [exact Hrun|]. destruct r.
    - destruct (Htrue eq_refl)
        as (mid & out_c & out_r & write & out_w & out_f & Heq & Hc & Hw & Hwrite).
      exists out_u, mid, out_c, out_r, write, out_w, out_f. auto.
    - destruct (Hfalse eq_refl) as (c & out & Hlast & Hexit & Hc).
      exists c, out. split_and!; [assumption..|].
      destruct Hc as [->|[->| ->]]; eauto. }
  destruct (_ && _).
  - apply Hdone.
  - destruct (Z.eqb_spec (exitCode out_k) 0) as [Hfork|Hfork].
    + apply Hdone.
    + eexists _, _. split; [reflexivity|].
      exists (Repository.GhRepoFork org repo), out_k. split_and!; auto.
Qed.

Lemma ensureRepoExists_outcomes_witness :
  exists log',
    Repository.ensureRepoExists "org" "repo" "workspace"
      RepositoryExamples.fresh [] = (Fulfilled true, log')
    /\ ensure_outcome "org" "repo" "workspace/repo" (Fulfilled true) log'.
Proof.
  destruct (ensureRepoExists_outcomes RepositoryExamples.fresh [] "org" "repo"
              "workspace" eq_refl) as (r & log' & Hrun & Hcase).
  assert (r = Fulfilled true) as ->.
  { vm_compute in Hrun. injection Hrun as <- _. reflexivity. }
  exists log'. split; [exact Hrun|exact Hcase].
Defined.

(** X14. When the clone is not in the workspace and the current user
    is known, [ensureRepoExists] asks [gh] to fork [org/repo] exactly
    when the listing of the user's forks failed or does not hold
    [repo] on a line of its own, then once; when the fork is listed it
    never asks. *)
Theorem ensureRepoExists_forks_when_not_listed `{PathApi}
    (host : Repository.Host) (log : list Repository.Did)
    (org repo workspaceDir : string) :
  let repoDir := path_join workspaceDir repo in
  let n0 := length (Repository.processes log) in
  let out_u := Repository.host_process host n0 Repository.GhApiUser in
  let user := Runner.trim (stdout out_u) in
  let out_l := Repository.host_process host (S n0) (Repository.GhRepoListForks user) in
  Repository.host_pathExists host repoDir = Fulfilled false ->
  exitCode out_u = 0 ->
  exists r log',
    Repository.ensureRepoExists org repo workspaceDir host log = (r, log ++ log')
    /\ forks log'
       = if (exitCode out_l =? 0)
            && bool_decide (repo ∈ Repository.split "010" (Runner.trim (stdout out_l)))
         then [] else [(org, repo)].
Proof.
  intros repoDir n0 out_u user out_l Hthere Huser.
  pose proof (ensureRepoExists_fresh_run host log org repo workspaceDir Hthere)
    as Hrun.
  cbv zeta in Hrun. fold repoDir n0 out_u user out_l in Hrun. rewrite Hrun. clear Hrun.
  apply Z.eqb_eq in Huser. rewrite Huser.
  set (out_k := Repository.host_process host _ (Repository.GhRepoFork org repo)).
  destruct (_ && _).
  - match goal with
    | |- context [_ host (log ++ ?before)] =>
        destruct (setup_tail host (log ++ before) user org repo repoDir)
          as (r & rest & -> & _ & _ & Hforks)
    end.
    eexists _, _. split; [rewrite <- app_assoc; reflexivity|].
    rewrite forks_app, Hforks. reflexivity.
  - destruct (exitCode out_k =? 0).
    + match goal with
      | |- context [_ host (log ++ ?before)] =>
          destruct (setup_tail host (log ++ before) user org repo repoDir)
            as (r & rest & -> & _ & _ & Hforks)
      end.
      eexists _, _. split; [rewrite <- app_assoc; reflexivity|].
      rewrite forks_app, Hforks. reflexivity.
    + eexists _, _. split; reflexivity.
Qed.

Lemma ensureRepoExists_forks_when_not_listed_witness :
  exists r log',
    Repository.ensureRepoExists "org" "repo" "workspace"
      RepositoryExamples.fresh [] = (r, log')
    /\ forks log' = [("org", "repo")].
Proof.
  destruct (ensureRepoExists_forks_when_not_listed RepositoryExamples.fresh []
              "org" "repo" "workspace" eq_refl eq_refl)
    as (r & log' & Hrun & Hforks).
  exists r, log'. split; [exact Hrun|exact Hforks].
Defined.

(** ** [executeTasks] *)

Section ScanFacts.
Import Runner Scheduler.
Context `{PathApi}.

Lemma interp_scan w outputDir allItems taskFiles m :
  Forall (inspectable w outputDir) allItems ->
  exists m',
    interp w (scan outputDir allItems taskFiles) m
    = (Fulfilled (taskFiles ++ omap (task_file_in w outputDir) allItems), m').
Proof.
  intros Hall. revert taskFiles m.
  induction Hall as [|item items Hitem _ IH]; intros taskFiles m.
  - exists m. cbn [scan]. ev. rewrite app_nil_r. reflexivity.
  - cbn [scan]. ev. unfold inspectable in Hitem. cbv zeta in Hitem.
    cbn [omap list_omap]. unfold task_file_in at 1. cbv zeta.
    destruct (fs_isDirectory w (path_join outputDir item)) as [[|]|t]; ev;
      [|apply IH|contradiction].
    destruct Hitem as [there ->]. ev. destruct there.
    + edestruct IH as [m' ->]. exists m'. rewrite <- app_assoc. reflexivity.
    + apply IH.
Qed.

Lemma interp_scan_stat_fails w outputDir before item after taskFiles m t :
  Forall (inspectable w outputDir) before ->
  fs_isDirectory w (path_join outputDir item) = Rejected t ->
  exists m',
    interp w (scan outputDir (before ++ item :: after) taskFiles) m
    = (Rejected t, m').
Proof.
  intros Hall Hstat. revert taskFiles m.
  induction Hall as [|item' items Hitem _ IH]; intros taskFiles m.
  - cbn [app scan]. ev. rewrite Hstat. ev. eauto.
  - cbn [app scan]. ev. unfold inspectable in Hitem. cbv zeta in Hitem.
    destruct (fs_isDirectory w (path_join outputDir item')) as [[|]|t']; ev;
      [|apply IH|contradiction].
    destruct Hitem as [there ->]. ev. destruct there; apply IH.
Qed.

End ScanFacts.

(** X15. In an environment where the output directory exists and every
    entry of its listing can be inspected, [executeTasks] submits
    exactly the [task.md] files of the entries that are directories and
    hold one, each once for every time its entry is listed, in
    ascending order; when there is none it throws the error [No task.md
    files found] instead of running an empty batch. *)
Theorem executeTasks_finds_task_files `{PathApi} (w : World) (m : Machine)
    (outputDir : string) (allItems : list string) :
  fs_pathExists w outputDir = Fulfilled true ->
  fs_readdir w outputDir = Fulfilled allItems ->
  Forall (inspectable w outputDir) allItems ->
  let found := omap (task_file_in w outputDir) allItems in
  let r := (interp w (Scheduler.executeTasks_taskFiles outputDir) m).1 in
  (found = [] ->
     r = Rejected (JsError ("No task.md files found in " +:+ outputDir +:+
           ". Please ensure task generation was successful")))
  /\ (found <> [] ->
        exists taskFiles,
          r = Fulfilled taskFiles
          /\ taskFiles ≡ₚ found
          /\ Sorted String.le taskFiles).
Proof.
  intros Hdir Hlist Hall found r. subst r.
  unfold Scheduler.executeTasks_taskFiles. ev. rewrite Hdir. ev. rewrite Hlist. ev.
  ev_bind.
  match goal with
  | |- context [interp w (Scheduler.scan outputDir allItems []) ?mm] =>
      destruct (interp_scan w outputDir allItems [] mm Hall) as [m' ->]
  end.
  cbn [app]. fold found. cbv zeta.
  assert (Hperm : merge_sort String.le found ≡ₚ found)
    by apply merge_sort_Permutation.
  split.
  - intros Hnone. rewrite Hnone in *. cbn. reflexivity.
  - intros Hsome. case_bool_decide as Hempty.
    + rewrite Hempty in Hperm. symmetry in Hperm.
      apply Permutation_nil_r in Hperm. contradiction.
    + ev. eexists. split; [reflexivity|]. split; [exact Hperm|].
      apply Sorted_merge_sort. apply _.
Qed.

Lemma executeTasks_finds_task_files_witness :
  exists taskFiles,
    (interp Examples.two_tasks (Scheduler.executeTasks_taskFiles "tasks")
       Examples.boot).1 = Fulfilled taskFiles
    /\ taskFiles ≡ₚ ["tasks/repo/task.md"; "tasks/repo-docs/task.md"]
    /\ Sorted String.le taskFiles.
Proof.
  refine (proj2 (executeTasks_finds_task_files Examples.two_tasks Examples.boot
                   "tasks" ["repo"; "repo-docs"] eq_refl eq_refl _) _).
  - repeat constructor; exists true; reflexivity.
  - discriminate.
Defined.

(** X16. [executeTasks] gives up before it runs anything in two cases.
    When the output directory does not exist it throws the error
    [directory not found] without listing the directory.  When
    [fs.stat] fails on one entry of the listing it throws that failure,
    whatever task directories the listing holds besides. *)
Theorem executeTasks_fails_early `{PathApi} (w : World) (m : Machine)
    (outputDir : string) :
  (fs_pathExists w outputDir = Fulfilled false ->
     exists m',
       interp w (Scheduler.executeTasks_taskFiles outputDir) m
       = (Rejected (JsError (outputDir +:+
            " directory not found. Please ensure task generation was successful")),
          m')
       /\ history m'
          = history m ++ [Observed (FsPathExists outputDir) (Fulfilled false)])
  /\ (forall before item after t,
        fs_pathExists w outputDir = Fulfilled true ->
        fs_readdir w outputDir = Fulfilled (before ++ item :: after) ->
        Forall (inspectable w outputDir) before ->
        fs_isDirectory w (path_join outputDir item) = Rejected t ->
        (interp w (Scheduler.executeTasks_taskFiles outputDir) m).1 = Rejected t).
Proof.
  split.
  - intros Hdir. unfold Scheduler.executeTasks_taskFiles. ev. rewrite Hdir. ev.
    eexists. split; reflexivity.
  - intros before item after t Hdir Hlist Hbefore Hstat.
    unfold Scheduler.executeTasks_taskFiles. ev. rewrite Hdir. ev. rewrite Hlist. ev.
    ev_bind.
    match goal with
    | |- context [interp w (Scheduler.scan outputDir _ []) ?mm] =>
        destruct (interp_scan_stat_fails w outputDir before item after [] mm t
                    Hbefore Hstat) as [m' ->]
    end.
    reflexivity.
Qed.

Lemma executeTasks_fails_early_witness :
  exists m',
    interp (Examples.world false 0) (Scheduler.executeTasks_taskFiles "tasks")
      Examples.boot
    = (Rejected (JsError
         "tasks directory not found. Please ensure task generation was successful"),
       m').
Proof.
  destruct (proj1 (executeTasks_fails_early (Examples.world false 0)
                     Examples.boot "tasks") eq_refl) as (m' & Hrun & _).
  exists m'. exact Hrun.
Defined.

(** X17. With a bound of at least 1 (or none, for which the default 4
    applies): a report [executeTasks] returns counts every task file it
    submitted once, [successful + failed = totalTasks], with at least
    one task; what [executeTasks] throws is thrown by its scan of the
    output directory, since once the batch is started no unit makes it
    throw; and every scan that finds task files can be followed by a
    batch that ends in a report. *)
Theorem executeTasks_report `{PathApi} (outputDir : string)
    (maxJobs : option nat) (cache : option string) :
  (1 <= default 4%nat maxJobs)%nat ->
  (forall r, executeTasks outputDir maxJobs cache r ->
     match r with
     | Fulfilled report =>
         (report_successful report + report_failed report
          = report_totalTasks report)%nat
         /\ (1 <= report_totalTasks report)%nat
         /\ report_outputDir report = outputDir
     | Rejected t =>
         exists tr, runs (Scheduler.executeTasks_taskFiles outputDir) tr (Rejected t)
     end)
  /\ (forall tr taskFiles,
        runs (Scheduler.executeTasks_taskFiles outputDir) tr (Fulfilled taskFiles) ->
        exists report,
          executeTasks outputDir maxJobs cache (Fulfilled report)
          /\ report_totalTasks report = length taskFiles).
Proof.
  intros Hjobs. split.
  - intros r (tr & [taskFiles|t] & Hscan & Hrest); [|subst r; eauto].
    destruct Hrest as (iso0 & t0 & result & (s & Hreach & Hret) & Hresult).
    destruct (summary_correct _ _ _ _ _ Hreach Hret)
      as (summary & -> & Hlen & Hsucc & Hfail & _).
    destruct Hresult as (iso1 & t1 & ->). simpl.
    rewrite Hsucc, Hfail, successes_failures, Hlen.
    split_and!; [reflexivity| |reflexivity].
    pose proof (executeTasks_taskFiles_sorted outputDir) as Hwp.
    rewrite wp_runs in Hwp. destruct (Hwp _ _ Hscan taskFiles eq_refl) as [_ Hsome].
    destruct taskFiles; [contradiction|simpl; lia].
  - intros tr taskFiles Hscan.
    destruct (completes taskFiles (default 4%nat maxJobs) cache _ Hjobs (rtc_refl _ _))
      as (s & summary & _ & Hreach & Hret).
    eexists. split.
    + exists tr, (Fulfilled taskFiles). split; [exact Hscan|].
      exists "", 0, (Fulfilled summary). split; [exists s; split; assumption|].
      exists "", 0. reflexivity.
    + reflexivity.
Qed.

Lemma executeTasks_report_witness :
  exists report,
    executeTasks "tasks" None None (Fulfilled report)
    /\ report_totalTasks report = 2%nat.
Proof.
  destruct (interp Examples.two_tasks (Scheduler.executeTasks_taskFiles "tasks")
              Examples.boot) as [r m'] eqn:Hrun.
  destruct (interp_runs _ _ _ _ _ Hrun) as (tr & _ & Hscan).
  vm_compute in Hrun. injection Hrun as <- _.
  assert (Hjobs : (1 <= default 4%nat (@None nat))%nat) by (simpl; lia).
  exact (proj2 (executeTasks_report "tasks" None None Hjobs) tr _ Hscan).
Defined.

(** ** [extractRepoPaths] *)

Section ParseFacts.
Import Runner.

Lemma lines_nonempty s : lines s <> [].
Proof.
  destruct s as [|c s]; simpl; [discriminate|].
  destruct (is_line_terminator c); [discriminate|].
  destruct (lines s); discriminate.
Qed.

Lemma lines_app_line_feed a b :
  lines (a +:+ line_feed +:+ b) = lines a ++ lines b.
Proof.
  induction a as [|c a IH]; rewrite ?append_nil, ?append_cons.
  - reflexivity.
  - cbn [lines]. rewrite IH. destruct (is_line_terminator c); [reflexivity|].
    pose proof (lines_nonempty a). destruct (lines a); [contradiction|reflexivity].
Qed.

Lemma one_line_cons c s :
  one_line (String c s) <-> is_line_terminator c = false /\ one_line s.
Proof. unfold one_line. simpl. rewrite Forall_cons. reflexivity. Qed.

Lemma one_line_app a b : one_line (a +:+ b) <-> one_line a /\ one_line b.
Proof.
  induction a as [|c a IH]; rewrite ?append_nil, ?append_cons.
  - split; [intros Hb; split; [constructor|exact Hb]|intros [_ Hb]; exact Hb].
  - rewrite !one_line_cons, IH. tauto.
Qed.

Lemma lines_one_line s : one_line s -> lines s = [s].
Proof.
  induction s as [|c s IH]; [reflexivity|]. intros Hs.
  apply one_line_cons in Hs as [Hc Hs]. cbn [lines]. rewrite Hc, IH by assumption.
  reflexivity.
Qed.

Lemma lines_are_one_line s : Forall one_line (lines s).
Proof.
  induction s as [|c s IH]; cbn [lines]; [repeat constructor|].
  destruct (is_line_terminator c) eqn:Hc.
  - constructor; [constructor|exact IH].
  - destruct (lines s) as [|l ls]; [repeat constructor; assumption|].
    apply Forall_cons in IH as [Hl Hls]. constructor; [|exact Hls].
    apply one_line_cons. auto.
Qed.

Lemma strip_prefix_app pre s : strip_prefix pre (pre +:+ s) = Some s.
Proof.
  induction pre as [|c pre IH]; rewrite ?append_nil, ?append_cons;
    [destruct s; reflexivity|].
  cbn [strip_prefix]. rewrite Ascii.eqb_refl. exact IH.
Qed.

Lemma strip_prefix_Some pre l r : strip_prefix pre l = Some r -> l = pre +:+ r.
Proof.
  revert l. induction pre as [|c pre IH]; intros l.
  - destruct l; intros [= <-]; reflexivity.
  - destruct l as [|c' l]; [discriminate|]. cbn [strip_prefix].
    destruct (Ascii.eqb_spec c c') as [<-|_]; [|discriminate].
    intros Hr. rewrite (IH _ Hr). reflexivity.
Qed.

Lemma first_capture_app pre ls1 ls2 :
  first_capture pre (ls1 ++ ls2)
  = match first_capture pre ls1 with
    | Some d => Some d
    | None => first_capture pre ls2
    end.
Proof.
  induction ls1 as [|l ls1 IH]; [reflexivity|]. cbn [app first_capture].
  destruct (strip_prefix pre l) as [[|c r]|]; auto.
Qed.

Lemma first_capture_Some pre ls d :
  first_capture pre ls = Some d -> d <> "" /\ pre +:+ d ∈ ls.
Proof.
  induction ls as [|l ls IH]; [discriminate|]. cbn [first_capture].
  destruct (strip_prefix pre l) as [[|c r]|] eqn:Hl.
  - intros Hd. destruct (IH Hd). split; [assumption|right; assumption].
  - intros [= <-]. split; [discriminate|].
    rewrite <- (strip_prefix_Some _ _ _ Hl). left.
  - intros Hd. destruct (IH Hd). split; [assumption|right; assumption].
Qed.

Lemma first_capture_None pre ls :
  first_capture pre ls = None <-> forall d, d <> "" -> pre +:+ d ∉ ls.
Proof.
  induction ls as [|l ls IH]; cbn [first_capture].
  - split; [intros _ d _ Hin; inversion Hin|reflexivity].
  - destruct (strip_prefix pre l) as [[|c r]|] eqn:Hl.
    + rewrite IH. apply strip_prefix_Some in Hl. subst l. split.
      * intros Hls d Hd Hin. apply elem_of_cons in Hin as [Heq|Hin];
          [|exact (Hls d Hd Hin)].
        apply (inj (String.app pre)) in Heq. contradiction.
      * intros Hls d Hd Hin. apply (Hls d Hd). right. exact Hin.
    + split; [discriminate|]. intros Hls. exfalso.
      apply (Hls (String c r)); [discriminate|].
      rewrite <- (strip_prefix_Some _ _ _ Hl). left.
    + rewrite IH. split.
      * intros Hls d Hd Hin. apply elem_of_cons in Hin as [Heq|Hin];
          [|exact (Hls d Hd Hin)].
        rewrite <- Heq, strip_prefix_app in Hl. discriminate.
      * intros Hls d Hd Hin. apply (Hls d Hd). right. exact Hin.
Qed.

(** *** [trim] *)

Lemma chars_app a b :
  String.list_ascii_of_string (a +:+ b)
  = String.list_ascii_of_string a ++ String.list_ascii_of_string b.
Proof.
  induction a as [|c a IH]; rewrite ?append_nil, ?append_cons; [reflexivity|].
  simpl. f_equal. exact IH.
Qed.

Lemma chars_rev_app s acc :
  String.list_ascii_of_string (String.rev_app s acc)
  = reverse (String.list_ascii_of_string s) ++ String.list_ascii_of_string acc.
Proof.
  revert acc. induction s as [|c s IH]; intros acc; [reflexivity|].
  cbn [String.rev_app String.list_ascii_of_string]. rewrite IH, reverse_cons.
  rewrite <- app_assoc. reflexivity.
Qed.

Lemma chars_rev s :
  String.list_ascii_of_string (String.rev s)
  = reverse (String.list_ascii_of_string s).
Proof. unfold String.rev. rewrite chars_rev_app. apply app_nil_r. Qed.

Lemma chars_inj s t :
  String.list_ascii_of_string s = String.list_ascii_of_string t -> s = t.
Proof.
  intros Heq. rewrite <- (String.string_of_list_ascii_of_string s),
    <- (String.string_of_list_ascii_of_string t), Heq. reflexivity.
Qed.

Lemma rev_involutive s : String.rev (String.rev s) = s.
Proof. apply chars_inj. rewrite !chars_rev. apply reverse_involutive. Qed.

Lemma rev_app_distr a b : String.rev (a +:+ b) = String.rev b +:+ String.rev a.
Proof.
  apply chars_inj. rewrite chars_rev, !chars_app, !chars_rev. apply reverse_app.
Qed.

Lemma trim_start_suffix s : exists p, s = p +:+ trim_start s.
Proof.
  induction s as [|c s [p IH]]; [exists ""; reflexivity|]. cbn [trim_start].
  destruct (is_white_space c); [|exists ""; reflexivity].
  exists (String c p). rewrite append_cons, <- IH. reflexivity.
Qed.

Lemma trim_start_head s c r :
  trim_start s = String c r -> is_white_space c = false.
Proof.
  induction s as [|c' s IH]; [discriminate|]. cbn [trim_start].
  destruct (is_white_space c') eqn:Hc'; [exact IH|]. intros [= <- _]. exact Hc'.
Qed.

Lemma trim_start_fixed c r :
  is_white_space c = false -> trim_start (String c r) = String c r.
Proof. intros Hc. cbn [trim_start]. rewrite Hc. reflexivity. Qed.

Lemma trim_start_idem s : trim_start (trim_start s) = trim_start s.
Proof.
  destruct (trim_start s) as [|c r] eqn:Hs; [reflexivity|].
  apply trim_start_fixed. eapply trim_start_head, Hs.
Qed.

Lemma trim_idem s : trim (trim s) = trim s.
Proof.
  unfold trim. set (u := trim_start s). set (v := trim_start (String.rev u)).
  destruct (trim_start_suffix (String.rev u)) as [p Hp]. fold v in Hp.
  assert (Hu : u = String.rev v +:+ String.rev p).
  { rewrite <- (rev_involutive u), Hp, rev_app_distr. reflexivity. }
  assert (Hfix : trim_start (String.rev v) = String.rev v).
  { destruct (String.rev v) as [|c r] eqn:Hv; [reflexivity|].
    apply trim_start_fixed. rewrite append_cons in Hu.
    eapply trim_start_head. exact Hu. }
  rewrite Hfix, rev_involutive. subst v. rewrite trim_start_idem. reflexivity.
Qed.

Lemma one_line_trim_start s : one_line s -> one_line (trim_start s).
Proof.
  intros Hs. destruct (trim_start_suffix s) as [p Hp]. rewrite Hp in Hs.
  apply one_line_app in Hs as [_ Hs]. exact Hs.
Qed.

Lemma one_line_rev s : one_line s -> one_line (String.rev s).
Proof.
  unfold one_line. rewrite chars_rev. intros Hs. apply Forall_reverse. exact Hs.
Qed.

Lemma one_line_trim s : one_line s -> one_line (trim s).
Proof.
  intros Hs. unfold trim.
  apply one_line_rev, one_line_trim_start, one_line_rev, one_line_trim_start, Hs.
Qed.

End ParseFacts.

Section ExtractFacts.
Import Runner.

Lemma interp_extractRepoPaths w taskFile m :
  (interp w (extractRepoPaths taskFile) m).1
  = match fs_readFile w taskFile with
    | Fulfilled content => parseRepoPaths content
    | Rejected t => Rejected t
    end.
Proof.
  unfold extractRepoPaths. ev. destruct (fs_readFile w taskFile) as [content|t]; ev;
    [|reflexivity].
  destruct (parseRepoPaths content); reflexivity.
Qed.

End ExtractFacts.

(** X18. [extractRepoPaths] reads back what a task file states.  For a
    file with a line [- **Task Directory**: dir] followed by a line [-
    **Repository Code**: code], where [dir] and [code] are not empty
    and no earlier line starts like either of the two, it returns
    [dir] and [code] without the white space around them, whatever
    follows the two lines. *)
Theorem extractRepoPaths_reads_back (w : World) (m : Machine)
    (taskFile before dir code after : string) :
  fs_readFile w taskFile
  = Fulfilled (before +:+ line_feed
               +:+ ("- **Task Directory**: " +:+ dir) +:+ line_feed
               +:+ ("- **Repository Code**: " +:+ code) +:+ line_feed
               +:+ after) ->
  (forall l r, l ∈ Runner.lines before -> l <> "- **Task Directory**: " +:+ r) ->
  (forall l r, l ∈ Runner.lines before -> l <> "- **Repository Code**: " +:+ r) ->
  dir <> "" -> one_line dir -> code <> "" -> one_line code ->
  (interp w (Runner.extractRepoPaths taskFile) m).1
  = Fulfilled {| Runner.taskDirPath := Runner.trim dir;
                 Runner.repoCodePath := Runner.trim code |}.
Proof.
  intros Hread Hbefore1 Hbefore2 Hdir Hdir1 Hcode Hcode1.
  rewrite interp_extractRepoPaths, Hread.
  assert (Hpre : forall pre, one_line pre ->
            forall v, one_line v -> Runner.lines (pre +:+ v) = [pre +:+ v]).
  { intros pre Hp v Hv. apply lines_one_line, one_line_app. auto. }
  assert (Hnone : forall pre,
            (forall l r, l ∈ Runner.lines before -> l <> pre +:+ r) ->
            Runner.first_capture pre (Runner.lines before) = None).
  { intros pre Hb. apply first_capture_None. intros d _ Hin. exact (Hb _ d Hin eq_refl). }
  unfold Runner.parseRepoPaths, Runner.regexp_match.
  rewrite !lines_app_line_feed.
  rewrite (Hpre "- **Task Directory**: ") by (first [assumption|repeat constructor]).
  rewrite (Hpre "- **Repository Code**: ") by (first [assumption|repeat constructor]).
  rewrite !first_capture_app, !Hnone by assumption.
  cbn [Runner.first_capture]. rewrite !strip_prefix_app.
  destruct dir as [|c1 dir]; [contradiction|].
  destruct code as [|c2 code]; [contradiction|].
  reflexivity.
Qed.

Lemma extractRepoPaths_reads_back_witness :
  (interp (Examples.world true 0)
     (Runner.extractRepoPaths "/tasks/001_repo_main/task.md") Examples.boot).1
  = Fulfilled {| Runner.taskDirPath := Runner.trim "/tasks/001_repo_main";
                 Runner.repoCodePath := Runner.trim "/tasks/001_repo_main/repo" |}.
Proof.
  apply (extractRepoPaths_reads_back (Examples.world true 0) Examples.boot
           "/tasks/001_repo_main/task.md" "# Task" "/tasks/001_repo_main"
           "/tasks/001_repo_main/repo" "Upgrade the dependencies.").
  - reflexivity.
  - intros l r Hl. apply list_elem_of_singleton in Hl as ->. discriminate.
  - intros l r Hl. apply list_elem_of_singleton in Hl as ->. discriminate.
  - discriminate.
  - apply (bool_decide_unpack _). vm_compute. exact I.
  - discriminate.
  - apply (bool_decide_unpack _). vm_compute. exact I.
Defined.

(** X19. The paths [extractRepoPaths] returns are read off two lines
    of the task file, the text after [- **Task Directory**: ] and the
    text after [- **Repository Code**: ], neither of them empty; each
    path is on one line, and has no white space left to trim at either
    end. *)
Theorem extractRepoPaths_returns_trimmed_lines (w : World)
    (m : Machine) (taskFile : string) (paths : Runner.RepoPaths) :
  (interp w (Runner.extractRepoPaths taskFile) m).1 = Fulfilled paths ->
  exists content dir code,
    fs_readFile w taskFile = Fulfilled content
    /\ dir <> "" /\ "- **Task Directory**: " +:+ dir ∈ Runner.lines content
    /\ code <> "" /\ "- **Repository Code**: " +:+ code ∈ Runner.lines content
    /\ Runner.taskDirPath paths = Runner.trim dir
    /\ Runner.repoCodePath paths = Runner.trim code
    /\ one_line (Runner.taskDirPath paths)
    /\ one_line (Runner.repoCodePath paths)
    /\ Runner.trim (Runner.taskDirPath paths) = Runner.taskDirPath paths
    /\ Runner.trim (Runner.repoCodePath paths) = Runner.repoCodePath paths.
Proof.
  rewrite interp_extractRepoPaths.
  destruct (fs_readFile w taskFile) as [content|t]; [|discriminate].
  unfold Runner.parseRepoPaths, Runner.regexp_match.
  destruct (Runner.first_capture "- **Task Directory**: " (Runner.lines content))
    as [dir|] eqn:Hdir; [|discriminate].
  destruct (Runner.first_capture "- **Repository Code**: " (Runner.lines content))
    as [code|] eqn:Hcode; [|discriminate].
  intros [= <-]. cbn [Runner.taskDirPath Runner.repoCodePath].
  apply first_capture_Some in Hdir as [Hdir Hdirin].
  apply first_capture_Some in Hcode as [Hcode Hcodein].
  assert (Hone : forall pre v, pre +:+ v ∈ Runner.lines content -> one_line (Runner.trim v)).
  { intros pre v Hin. apply one_line_trim.
    pose proof (lines_are_one_line content) as Hall.
    rewrite Forall_forall in Hall. apply Hall in Hin.
    apply one_line_app in Hin as [_ Hv]. exact Hv. }
  exists content, dir, code.
  split_and!; eauto using trim_idem.
Qed.

Lemma extractRepoPaths_returns_trimmed_lines_witness :
  exists content dir code,
    fs_readFile (Examples.world true 0) "/tasks/001_repo_main/task.md"
    = Fulfilled content
    /\ "- **Task Directory**: " +:+ dir ∈ Runner.lines content
    /\ "- **Repository Code**: " +:+ code ∈ Runner.lines content
    /\ Runner.trim dir = "/tasks/001_repo_main"
    /\ Runner.trim code = "/tasks/001_repo_main/repo".
Proof.
  destruct (extractRepoPaths_returns_trimmed_lines (Examples.world true 0)
              Examples.boot "/tasks/001_repo_main/task.md"
              {| Runner.taskDirPath := "/tasks/001_repo_main";
                 Runner.repoCodePath := "/tasks/001_repo_main/repo" |} eq_refl)
    as (content & dir & code & Hread & _ & Hdir & _ & Hcode & Hd & Hc & _).
  exists content, dir, code. simpl in Hd, Hc. auto.
Defined.

(** X20. [extractRepoPaths] fails in three ways only: with the failure
    of the read; with [Could not extract task directory] when no line
    of the file has text after [- **Task Directory**: ], whether or not
    the repository code is stated; with [Could not extract repository
    code path] when such a line exists and no line has text after [-
    **Repository Code**: ]. *)
Theorem extractRepoPaths_errors (w : World) (m : Machine)
    (taskFile : string) (t : Thrown) :
  (interp w (Runner.extractRepoPaths taskFile) m).1 = Rejected t ->
  fs_readFile w taskFile = Rejected t
  \/ exists content,
       fs_readFile w taskFile = Fulfilled content
       /\ ((t = JsError "Could not extract task directory from task file"
            /\ forall dir, dir <> "" ->
                 "- **Task Directory**: " +:+ dir ∉ Runner.lines content)
           \/ (t = JsError "Could not extract repository code path from task file"
               /\ (exists dir, dir <> ""
                     /\ "- **Task Directory**: " +:+ dir ∈ Runner.lines content)
               /\ forall code, code <> "" ->
                    "- **Repository Code**: " +:+ code ∉ Runner.lines content)).
Proof.
  rewrite interp_extractRepoPaths.
  destruct (fs_readFile w taskFile) as [content|t']; [|intros [= ->]; left; reflexivity].
  intros Hparse. right. exists content. split; [reflexivity|].
  unfold Runner.parseRepoPaths, Runner.regexp_match in Hparse.
  destruct (Runner.first_capture "- **Task Directory**: " (Runner.lines content))
    as [dir|] eqn:Hdir.
  - destruct (Runner.first_capture "- **Repository Code**: " (Runner.lines content))
      as [code|] eqn:Hcode; [discriminate|].
    injection Hparse as <-. right. split; [reflexivity|].
    apply first_capture_Some in Hdir. split; [eauto|].
    apply first_capture_None. exact Hcode.
  - injection Hparse as <-. left. split; [reflexivity|].
    apply first_capture_None. exact Hdir.
Qed.

Lemma extractRepoPaths_errors_witness :
  fs_readFile (Examples.world true 0) "/tasks/002/task.md"
  = Rejected (JsError "ENOENT: no such file or directory")
  \/ exists content,
       fs_readFile (Examples.world true 0) "/tasks/002/task.md" = Fulfilled content
       /\ ((JsError "ENOENT: no such file or directory"
            = JsError "Could not extract task directory from task file"
            /\ forall dir, dir <> "" ->
                 "- **Task Directory**: " +:+ dir ∉ Runner.lines content)
           \/ (JsError "ENOENT: no such file or directory"
               = JsError "Could not extract repository code path from task file"
               /\ (exists dir, dir <> ""
                     /\ "- **Task Directory**: " +:+ dir ∈ Runner.lines content)
               /\ forall code, code <> "" ->
                    "- **Repository Code**: " +:+ code ∉ Runner.lines content)).
Proof.
  apply (extractRepoPaths_errors (Examples.world true 0) Examples.boot
           "/tasks/002/task.md" (JsError "ENOENT: no such file or directory")).
  reflexivity.
Defined.

(** ** The executable: resolution and cache *)

Section DetectFacts.
Import Runner.

Lemma commands_app tr1 tr2 : commands (tr1 ++ tr2) = commands tr1 ++ commands tr2.
Proof. apply omap_app. Qed.

Lemma writes_app tr1 tr2 : writes (tr1 ++ tr2) = writes tr1 ++ writes tr2.
Proof. apply omap_app. Qed.

Lemma interp_first_existing_found w paths otherwise (i : nat) p m :
  paths !! i = Some p ->
  fs_pathExists w p = Fulfilled true ->
  (forall j q, (j < i)%nat -> paths !! j = Some q ->
               fs_pathExists w q <> Fulfilled true) ->
  exists m' tr,
    interp w (first_existing paths otherwise) m = (Fulfilled p, m')
    /\ history m' = history m ++ tr
    /\ commands tr = [].
Proof.
  revert i m. induction paths as [|q qs IH]; intros i m Hi Hp Hbefore;
    [discriminate|].
  cbn [first_existing]. ev. destruct i as [|i].
  - injection Hi as ->. rewrite Hp. ev. eexists _, _.
    split; [reflexivity|]. split; reflexivity.
  - assert (Hq : fs_pathExists w q <> Fulfilled true)
      by (apply (Hbefore 0%nat); [lia|reflexivity]).
    destruct (fs_pathExists w q) as [[|]|t] eqn:Hqa; [congruence| |]; ev;
      (edestruct (IH i) as (m' & tr & -> & Hh & Hc);
       [exact Hi|exact Hp|intros j q' Hj Hq'; apply (Hbefore (S j)); [lia|exact Hq']|]);
      eexists m', (_ :: tr); (split; [reflexivity|]);
      (split; [rewrite Hh; cbn [history record]; rewrite <- app_assoc; reflexivity|]);
      exact Hc.
Qed.

End DetectFacts.

(** X21. [detectClaudePath] resolves the executable in a fixed order.
    It returns the first of the five candidate paths that exists,
    without starting a process.  When none exists it asks the shell:
    the path [which claude] prints, without the white space around it,
    is returned if the lookup exits 0, prints something, and the path
    exists; in every other case the result is [claude]. *)
Theorem detectClaudePath_resolution_order (w : World) (m : Machine) :
  let candidates := Runner.candidate_paths (env_home w) in
  let out := run_process w WhichClaude in
  let detectedPath := Runner.trim (stdout out) in
  (forall (i : nat) p,
      candidates !! i = Some p ->
      fs_pathExists w p = Fulfilled true ->
      (forall j q, (j < i)%nat -> candidates !! j = Some q ->
                   fs_pathExists w q <> Fulfilled true) ->
      exists m' tr,
        interp w Runner.detectClaudePath m = (Fulfilled p, m')
        /\ history m' = history m ++ tr
        /\ commands tr = [])
  /\ ((forall q, q ∈ candidates -> fs_pathExists w q <> Fulfilled true) ->
      (interp w Runner.detectClaudePath m).1
      = Fulfilled
          (if (exitCode out =? 0) && negb (bool_decide (detectedPath = ""))
           then match fs_pathExists w detectedPath with
                | Fulfilled true => detectedPath
                | _ => "claude"
                end
           else "claude")).
Proof.
  intros candidates out detectedPath. split.
  - intros i p Hi Hp Hbefore. unfold Runner.detectClaudePath.
    rewrite interp_mbind, interp_trigger. cbn [respond].
    match goal with
    | |- context [interp w (Runner.first_existing _ ?other) ?mm] =>
        destruct (interp_first_existing_found w candidates other i p mm Hi Hp Hbefore)
          as (m' & tr & Hrun & Hh & Hc)
    end.
    fold candidates. rewrite Hrun. eexists m', (_ :: tr).
    split; [reflexivity|].
    split; [rewrite Hh; cbn [history record]; rewrite <- app_assoc; reflexivity|].
    exact Hc.
  - intros Hnone. unfold Runner.detectClaudePath.
    rewrite interp_mbind, interp_trigger. cbn [respond].
    match goal with
    | |- context [interp w (Runner.first_existing ?ps ?other) ?mm] =>
        destruct (interp_first_existing_none w ps other mm Hnone) as (m' & -> & _)
    end.
    ev. fold out. destruct (exitCode out =? 0); ev; [|reflexivity].
    fold detectedPath. case_bool_decide; ev; [reflexivity|].
    destruct (fs_pathExists w detectedPath) as [[|]|t]; ev; reflexivity.
Qed.

Lemma detectClaudePath_resolution_order_witness :
  (interp (Examples.world true 0) Runner.detectClaudePath Examples.boot).1
  = Fulfilled "claude".
Proof.
  refine (proj2 (detectClaudePath_resolution_order (Examples.world true 0)
                   Examples.boot) _).
  intros q Hq. vm_compute in Hq. vm_compute.
  repeat (apply elem_of_cons in Hq as [->|Hq]; [discriminate|]).
  inversion Hq.
Defined.

Section CacheFacts.
Import Runner.
Context `{PathApi}.

Lemma interp_claudePath {A} w (p : Proc A) m r m' :
  interp w p m = (r, m') ->
  exists tr,
    history m' = history m ++ tr
    /\ runs p tr r
    /\ claudePath m' = from_option Some (claudePath m) (last (writes tr)).
Proof.
  revert m. induction p as [a|t|X e k IH]; simpl; intros m Hrun.
  - injection Hrun as <- <-. exists []. rewrite app_nil_r.
    split_and!; [reflexivity|constructor|reflexivity].
  - injection Hrun as <- <-. exists []. rewrite app_nil_r.
    split_and!; [reflexivity|constructor|reflexivity].
  - apply IH in Hrun as (tr & Hh & Hr & Hc). simpl in Hh.
    exists (Observed e (respond w e m) :: tr). split_and!.
    + rewrite Hh, <- app_assoc. reflexivity.
    + constructor. exact Hr.
    + rewrite Hc. cbn [claudePath record].
      destruct e; try reflexivity.
      change (writes (Observed (WriteClaudePath p) (respond w (WriteClaudePath p) m) :: tr))
        with (p :: writes tr).
      rewrite last_cons. destruct (last (writes tr)); reflexivity.
Qed.

(** What a search for the executable leaves behind: no assignment to
    the module variable, no process but the shell lookup, and a
    non-empty path. *)
Lemma first_existing_trace paths otherwise :
  Forall (fun p => p <> "") paths ->
  wp otherwise
     (fun tr r => writes tr = [] /\ Forall (fun c => c = WhichClaude) (commands tr)
                  /\ exists q, r = Fulfilled q /\ q <> "") ->
  wp (first_existing paths otherwise)
     (fun tr r => writes tr = [] /\ Forall (fun c => c = WhichClaude) (commands tr)
                  /\ exists q, r = Fulfilled q /\ q <> "").
Proof.
  induction 1 as [|p ps Hp Hps IH]; intros Hother; simpl; [assumption|].
  intros [[|]|t]; simpl.
  - split_and!; [reflexivity|constructor|eauto].
  - eapply wp_mono; [|apply IH, Hother]. intros tr r Hr. exact Hr.
  - eapply wp_mono; [|apply IH, Hother]. intros tr r Hr. exact Hr.
Qed.

Lemma detectClaudePath_trace :
  wp detectClaudePath
     (fun tr r => writes tr = [] /\ Forall (fun c => c = WhichClaude) (commands tr)
                  /\ exists q, r = Fulfilled q /\ q <> "").
Proof.
  unfold detectClaudePath. apply wp_bind. wp_trigger home.
  eapply wp_mono; [|apply first_existing_trace].
  - intros tr r Hr. exact Hr.
  - apply candidate_paths_nonempty.
  - simpl. intros out. destruct (exitCode out =? 0); simpl.
    + case_bool_decide as Hempty; simpl.
      * split_and!; [reflexivity|repeat constructor|].
        eexists; split; [reflexivity|discriminate].
      * intros [[|]|t]; simpl; (split_and!; [reflexivity|repeat constructor|]);
          eexists; (split; [reflexivity|]); first [assumption|discriminate].
    + split_and!; [reflexivity|repeat constructor|].
      eexists; split; [reflexivity|discriminate].
Qed.

Lemma interp_detectClaudePath w m :
  exists q m' tr,
    interp w detectClaudePath m = (Fulfilled q, m')
    /\ q <> ""
    /\ history m' = history m ++ tr
    /\ claudePath m' = claudePath m
    /\ Forall (fun c => c = WhichClaude) (commands tr).
Proof.
  destruct (interp w detectClaudePath m) as [r m'] eqn:Hrun.
  destruct (interp_claudePath _ _ _ _ _ Hrun) as (tr & Hh & Hr & Hc).
  pose proof detectClaudePath_trace as Hwp. rewrite wp_runs in Hwp.
  destruct (Hwp _ _ Hr) as (Hw & Hcmd & q & -> & Hq).
  rewrite Hw in Hc. exists q, m', tr. split_and!; auto.
Qed.


Lemma interp_ensure_detected w m :
  exists m' tr q,
    interp w (if not_cached (claudePath m)
              then detected ← detectClaudePath; trigger (WriteClaudePath detected)
              else mret tt) m
    = (Fulfilled tt, m')
    /\ history m' = history m ++ tr
    /\ q <> ""
    /\ claudePath m' = Some q
    /\ (not_cached (claudePath m) = false -> claudePath m = Some q /\ tr = [])
    /\ Forall (fun c => c = WhichClaude) (commands tr).
Proof.
  destruct (not_cached (claudePath m)) eqn:Hcached.
  - ev_bind. destruct (interp_detectClaudePath w m)
      as (q & m1 & tr & -> & Hq & Hh & Hc & Hcmd).
    ev. eexists _, (tr ++ [_]), q. split; [reflexivity|].
    cbn [history claudePath record]. split_and!.
    + rewrite Hh, <- app_assoc. reflexivity.
    + exact Hq.
    + reflexivity.
    + discriminate.
    + rewrite commands_app. apply Forall_app. split; [exact Hcmd|constructor].
  - ev. unfold not_cached in Hcached.
    destruct (claudePath m) as [p|] eqn:Hp; [|discriminate].
    apply bool_decide_eq_false in Hcached.
    exists m, [], p. rewrite app_nil_r. split_and!; auto.
Qed.

(** A leaf of the evaluation of [runTask]: the effects after the
    executable was resolved. *)
Ltac leaf Hleaf Hc1 Hexe Hnil :=
  eapply Hleaf;
  [ cbn [history record]; rewrite <- ?app_assoc; reflexivity
  | cbn [claudePath record]; exact Hc1
  | cbn [commands omap list_omap command_of app respond claudePath record];
    first [exact Hnil | apply Hexe] ].

Lemma interp_runTask_cache w m taskFile log :
  exists o m' tr q,
    interp w (runTask taskFile log) m = (Fulfilled o, m')
    /\ history m' = history m ++ tr
    /\ q <> ""
    /\ claudePath m' = Some q
    /\ (not_cached (claudePath m) = false ->
        claudePath m = Some q /\ WhichClaude ∉ commands tr)
    /\ (forall c, c ∈ commands tr ->
          c = WhichClaude
          \/ exists cwd content lg, c = RunClaude cwd content (Some q) lg).
Proof.
  unfold runTask, extractRepoPaths, stop_clock, Utils.formatTimestamp. ev.
  rewrite interp_catch. ev_bind. ev. cbn [claudePath record].
  match goal with
  | |- context [interp w (if not_cached (claudePath m) then _ else _) ?m0] =>
      destruct (interp_ensure_detected w m0)
        as (m1 & tr1 & q & Hrun1 & Hh1 & Hq & Hc1 & Hcached & Hcmd1);
      cbn [claudePath history record] in Hrun1, Hh1, Hcached; rewrite Hrun1
  end.
  rewrite Forall_forall in Hcmd1.
  assert (Hleaf : forall (o : TaskResult) m' rest,
    history m' = history m1 ++ rest ->
    claudePath m' = Some q ->
    (forall c, c ∈ commands rest ->
               exists cwd content lg, c = RunClaude cwd content (Some q) lg) ->
    exists o' m'' tr q',
      (Fulfilled o, m') = (Fulfilled o', m'')
      /\ history m'' = history m ++ tr
      /\ q' <> ""
      /\ claudePath m'' = Some q'
      /\ (not_cached (claudePath m) = false ->
          claudePath m = Some q' /\ WhichClaude ∉ commands tr)
      /\ (forall c, c ∈ commands tr ->
            c = WhichClaude
            \/ exists cwd content lg, c = RunClaude cwd content (Some q') lg)).
  { intros o m' rest Hh Hc Hrest. eexists o, m', _, q.
    split; [reflexivity|]. split.
    { rewrite Hh, Hh1, <- !app_assoc. reflexivity. }
    split; [exact Hq|]. split; [exact Hc|]. split.
    - intros Hfalse. destruct (Hcached Hfalse) as [Hsame ->]. split; [exact Hsame|].
      rewrite !commands_app. cbn [commands omap list_omap command_of app].
      intros Hin. apply Hrest in Hin as (? & ? & ? & ?). discriminate.
    - intros c Hin. rewrite !commands_app in Hin.
      cbn [commands omap list_omap command_of app] in Hin.
      apply elem_of_app in Hin as [Hin|Hin]; [left; apply Hcmd1, Hin|].
      right. apply Hrest, Hin. }
  assert (Hexe : forall cwd content lg c,
            c ∈ [RunClaude cwd content (claudePath m1) lg] ->
            exists cwd content lg, c = RunClaude cwd content (Some q) lg).
  { intros cwd content' lg c Hin. apply list_elem_of_singleton in Hin as ->.
    rewrite Hc1. eauto. }
  assert (Hnil : forall c : Command, c ∈ [] ->
            exists cwd content lg, c = RunClaude cwd content (Some q) lg)
    by (intros c Hin; inversion Hin).
  ev. destruct (fs_readFile w taskFile) as [content|t] eqn:Hread; ev;
    [|leaf Hleaf Hc1 Hexe Hnil].
  destruct (parseRepoPaths content) as [paths|t]; ev; [|leaf Hleaf Hc1 Hexe Hnil].
  destruct (fs_pathExists w (repoCodePath paths)) as [[|]|t]; ev;
    [|leaf Hleaf Hc1 Hexe Hnil..].
  rewrite Hread. ev.
  destruct (fs_ensureDir w (path_dirname log)) as [[]|t]; ev;
    [|leaf Hleaf Hc1 Hexe Hnil].
  match goal with
  | |- context [exitCode ?out =? 0] => destruct (exitCode out =? 0)
  end; ev; leaf Hleaf Hc1 Hexe Hnil.
Qed.

End CacheFacts.

Section ReadyFacts.
Import Runner.
Context `{PathApi}.

Lemma spawns_of_lookups tr :
  Forall (fun c => c = WhichClaude) (commands tr) -> spawns tr = [].
Proof.
  induction tr as [|[X e x] tr IH]; [reflexivity|].
  destruct e; cbn; try exact IH.
  intros Hall. apply Forall_cons in Hall as [-> Hall]. apply IH, Hall.
Qed.

(** In a fixed environment, every child process in the history of a
    computation got the output the environment has for its command. *)
Lemma interp_spawns_answered {A} w (p : Proc A) m r m' :
  interp w p m = (r, m') ->
  exists tr,
    history m' = history m ++ tr
    /\ forall c out, (c, out) ∈ spawns tr -> out = run_process w c.
Proof.
  revert m. induction p as [a|t|X e k IH]; simpl; intros m Hrun.
  - injection Hrun as <- <-. exists []. rewrite app_nil_r.
    split; [reflexivity|]. intros c out Hin. inversion Hin.
  - injection Hrun as <- <-. exists []. rewrite app_nil_r.
    split; [reflexivity|]. intros c out Hin. inversion Hin.
  - apply IH in Hrun as (tr & Hh & Hans). simpl in Hh.
    exists (Observed e (respond w e m) :: tr). split.
    + rewrite Hh, <- app_assoc. reflexivity.
    + intros c out Hin. destruct e; try (apply Hans; exact Hin).
      destruct c0; [apply Hans; exact Hin|].
      cbn in Hin. apply elem_of_cons in Hin as [[= -> ->]|Hin];
        [reflexivity|apply Hans, Hin].
Qed.

(** The run of [runTask] in a fixed environment in which the unit is
    ready: the task file is read and names a repository directory that
    exists, and the directory of the log file can be made.  The agent is
    started once, with the path [q] the module variable holds after the
    resolution; [q] is the path cached before the call, or else what
    [detectClaudePath] returns in this environment. *)
Lemma interp_runTask_ready w m taskFile log content paths :
  fs_readFile w taskFile = Fulfilled content ->
  parseRepoPaths content = Fulfilled paths ->
  fs_pathExists w (repoCodePath paths) = Fulfilled true ->
  fs_ensureDir w (path_dirname log) = Fulfilled tt ->
  exists o m' tr q,
    interp w (runTask taskFile log) m = (Fulfilled o, m')
    /\ history m' = history m ++ tr
    /\ q <> ""
    /\ (if not_cached (claudePath m)
        then exists ma mb, interp w detectClaudePath ma = (Fulfilled q, mb)
        else claudePath m = Some q)
    /\ spawns tr
       = [(RunClaude (repoCodePath paths) content (Some q) (path_resolve log),
           run_process w (RunClaude (repoCodePath paths) content (Some q)
                                    (path_resolve log)))]
    /\ success o
       = bool_decide
           (exitCode (run_process w (RunClaude (repoCodePath paths) content (Some q)
                                               (path_resolve log))) = 0)
    /\ error o = None
    /\ logFile o = Some log.
Proof.
  intros Hread Hparse Hthere Hdir.
  unfold runTask, extractRepoPaths, stop_clock, Utils.formatTimestamp. ev.
  rewrite interp_catch. ev_bind. ev. cbn [claudePath record].
  assert (Hresolve : forall m0 : Machine,
    exists m1 tr1 q,
      interp w (if not_cached (claudePath m0)
                then detected ← detectClaudePath; trigger (WriteClaudePath detected)
                else mret tt) m0 = (Fulfilled tt, m1)
      /\ history m1 = history m0 ++ tr1
      /\ q <> "" /\ claudePath m1 = Some q
      /\ spawns tr1 = []
      /\ (if not_cached (claudePath m0)
          then exists ma mb, interp w detectClaudePath ma = (Fulfilled q, mb)
          else claudePath m0 = Some q)).
  { intros m0. destruct (not_cached (claudePath m0)) eqn:Hcached.
    - ev_bind. destruct (interp_detectClaudePath w m0)
        as (q & m1 & tr & Hrun & Hq & Hh & Hc & Hcmd).
      rewrite Hrun. ev. eexists _, (tr ++ [_]), q. split; [reflexivity|].
      cbn [history claudePath record]. split_and!.
      + rewrite Hh, <- app_assoc. reflexivity.
      + exact Hq.
      + reflexivity.
      + rewrite spawns_app, (spawns_of_lookups _ Hcmd). reflexivity.
      + eauto.
    - ev. unfold not_cached in Hcached.
      destruct (claudePath m0) as [p|] eqn:Hp; [|discriminate].
      apply bool_decide_eq_false in Hcached.
      exists m0, [], p. rewrite app_nil_r. split_and!; auto. }
  match goal with
  | |- context [interp w (if not_cached (claudePath m) then _ else _) ?m0] =>
      destruct (Hresolve m0) as (m1 & tr1 & q & Hrun1 & Hh1 & Hq & Hc1 & Hs1 & Hfrom);
      cbn [claudePath history record] in Hrun1, Hh1, Hfrom; rewrite Hrun1
  end.
  ev. rewrite Hread. ev. rewrite Hparse. ev. rewrite Hthere. ev.
  rewrite Hread. ev. rewrite Hdir. ev. cbn [claudePath record]. rewrite Hc1.
  match goal with
  | |- context [exitCode ?out =? 0] =>
      destruct (Z.eqb_spec (exitCode out) 0) as [Hzero|Hnonzero]
  end; ev.
  - eexists _, _, _, q. split; [reflexivity|]. cbn [history record success error logFile].
    split_and!; try reflexivity; try assumption.
    + rewrite Hh1, <- !app_assoc. reflexivity.
    + rewrite !spawns_app, Hs1. reflexivity.
    + rewrite bool_decide_eq_true_2 by exact Hzero. reflexivity.
  - eexists _, _, _, q. split; [reflexivity|]. cbn [history record success error logFile].
    split_and!; try reflexivity; try assumption.
    + rewrite Hh1, <- !app_assoc. reflexivity.
    + rewrite !spawns_app, Hs1. reflexivity.
    + rewrite bool_decide_eq_false_2 by exact Hnonzero. reflexivity.
Qed.

End ReadyFacts.

(** ** The three outcomes of a unit *)

(** C3. (a) In a fixed environment where the repository code directory
    named in the task file does not exist, [runTask] starts no agent
    process and returns a failure that carries an error detail.
    (b) In a fixed environment where the task file is read, the
    repository code directory it names exists and the directory of the
    log file can be made, [runTask] starts the agent process, once, and
    gets from it the output the environment has for it; when that
    process exits 0 the result is a success without error detail, and
    when it exits non-zero the result is a failure without error detail
    that keeps the log file path.  (c) In every run, in every
    environment: an agent process that exited 0 means a success without
    error detail, and one that exited non-zero a failure without error
    detail that keeps the log file path. *)
Theorem runTask_three_outcomes `{PathApi} (taskFile log : string) :
  (forall w m content paths,
      fs_readFile w taskFile = Fulfilled content ->
      Runner.parseRepoPaths content = Fulfilled paths ->
      fs_pathExists w (Runner.repoCodePath paths) = Fulfilled false ->
      exists o m' tr,
        interp w (Runner.runTask taskFile log) m = (Fulfilled o, m')
        /\ history m' = history m ++ tr
        /\ spawns tr = []
        /\ Runner.success o = false
        /\ is_Some (Runner.error o))
  /\ (forall w m content paths,
        fs_readFile w taskFile = Fulfilled content ->
        Runner.parseRepoPaths content = Fulfilled paths ->
        fs_pathExists w (Runner.repoCodePath paths) = Fulfilled true ->
        fs_ensureDir w (path_dirname log) = Fulfilled tt ->
        exists o m' tr exe,
          let agent := RunClaude (Runner.repoCodePath paths) content exe
                                 (path_resolve log) in
          interp w (Runner.runTask taskFile log) m = (Fulfilled o, m')
          /\ history m' = history m ++ tr
          /\ spawns tr = [(agent, run_process w agent)]
          /\ (exitCode (run_process w agent) = 0 ->
                Runner.success o = true /\ Runner.error o = None)
          /\ (exitCode (run_process w agent) <> 0 ->
                Runner.success o = false /\ Runner.error o = None
                /\ Runner.logFile o = Some log))
  /\ wp (Runner.runTask taskFile log)
       (fun tr r =>
          exists o,
            r = Fulfilled o
            /\ (forall c out, (c, out) ∈ spawns tr -> exitCode out = 0 ->
                  Runner.success o = true /\ Runner.error o = None)
            /\ (forall c out, (c, out) ∈ spawns tr -> exitCode out <> 0 ->
                  Runner.success o = false /\ Runner.error o = None
                  /\ Runner.logFile o = Some log)).
Proof.
  split_and!.
  - intros w m content paths Hread Hparse Hmissing.
    destruct (interp_runTask w m taskFile log) as (o & m' & Hrun & Htable).
    rewrite Hread, Hparse, Hmissing in Htable. destruct Htable as [Hfail Herr].
    destruct (interp_runTask_spawns _ _ _ _ _ _ Hrun)
      as (tr & Hh & o' & Ho' & _ & Hcase).
    injection Ho' as <-.
    exists o, m', tr. repeat split; try assumption; [|rewrite Herr; eauto].
    destruct (spawns tr) as [|[c out] [|]]; [reflexivity| |contradiction].
    destruct Hcase as (_ & _ & Hnone). congruence.
  - intros w m content paths Hread Hparse Hthere Hdir.
    destruct (interp_runTask_ready w m taskFile log content paths
                Hread Hparse Hthere Hdir)
      as (o & m' & tr & q & Hrun & Hh & _ & _ & Hs & Hok & Herr & Hlog).
    exists o, m', tr, (Some q). cbv zeta. split_and!; try assumption.
    + intros Hzero. rewrite Hok, bool_decide_eq_true_2 by exact Hzero. auto.
    + intros Hnonzero. rewrite Hok, bool_decide_eq_false_2 by exact Hnonzero. auto.
  - eapply wp_mono; [|apply runTask_wp].
    intros tr r (o & -> & _ & Hcase). exists o. split; [reflexivity|].
    destruct (spawns tr) as [|[c0 out0] [|]]; [| |contradiction].
    + split; intros c out Hin; inversion Hin.
    + destruct Hcase as (Hs & Hl & He).
      split; intros c out Hin Hexit; apply list_elem_of_singleton in Hin;
        injection Hin as -> ->; rewrite Hs.
      * rewrite bool_decide_eq_true_2 by assumption. auto.
      * rewrite bool_decide_eq_false_2 by assumption. auto.
Qed.

Lemma runTask_three_outcomes_witness :
  let taskFile := "/tasks/001_repo_main/task.md" in
  let log := "/tasks/001_repo_main/execution.log" in
  let agent := RunClaude "/tasks/001_repo_main/repo" Examples.task_md
                         (Some "claude") log in
  (exists o m' tr,
     interp (Examples.world false 0) (Runner.runTask taskFile log) Examples.boot
     = (Fulfilled o, m')
     /\ history m' = history Examples.boot ++ tr
     /\ spawns tr = []
     /\ Runner.success o = false
     /\ is_Some (Runner.error o))
  /\ (exists o m' tr,
        interp (Examples.world true 0) (Runner.runTask taskFile log) Examples.boot
        = (Fulfilled o, m')
        /\ history m' = history Examples.boot ++ tr
        /\ spawns tr = [(agent, run_process (Examples.world true 0) agent)]
        /\ Runner.success o = true /\ Runner.error o = None)
  /\ (exists o m' tr,
        interp (Examples.world true 1) (Runner.runTask taskFile log) Examples.boot
        = (Fulfilled o, m')
        /\ history m' = history Examples.boot ++ tr
        /\ spawns tr = [(agent, run_process (Examples.world true 1) agent)]
        /\ Runner.success o = false /\ Runner.error o = None
        /\ Runner.logFile o = Some log).
Proof.
  intros taskFile log agent.
  pose (paths := {| Runner.taskDirPath := "/tasks/001_repo_main";
                    Runner.repoCodePath := "/tasks/001_repo_main/repo" |}).
  split_and!.
  - refine (proj1 (runTask_three_outcomes taskFile log)
              (Examples.world false 0) Examples.boot Examples.task_md paths _ _ _);
      reflexivity.
  - destruct (proj1 (proj2 (runTask_three_outcomes taskFile log))
                (Examples.world true 0) Examples.boot Examples.task_md paths
                eq_refl eq_refl eq_refl eq_refl)
      as (o & m' & tr & exe & Hrun & Hh & Hs & Hzero & _).
    exists o, m', tr.
    assert (exe = Some "claude") as ->.
    { vm_compute in Hrun, Hh. injection Hrun as _ <-. cbn in Hh. subst tr.
      vm_compute in Hs. injection Hs as ->. reflexivity. }
    destruct (Hzero eq_refl) as [Hok Herr]. split_and!; assumption.
  - destruct (proj1 (proj2 (runTask_three_outcomes taskFile log))
                (Examples.world true 1) Examples.boot Examples.task_md paths
                eq_refl eq_refl eq_refl eq_refl)
      as (o & m' & tr & exe & Hrun & Hh & Hs & _ & Hnonzero).
    exists o, m', tr.
    assert (exe = Some "claude") as ->.
    { vm_compute in Hrun, Hh. injection Hrun as _ <-. cbn in Hh. subst tr.
      vm_compute in Hs. injection Hs as ->. reflexivity. }
    destruct (Hnonzero ltac:(discriminate)) as (Hfail & Herr & Hlog).
    split_and!; assumption.
Defined.

(** ** The executable that is not found *)

(** C10, as the claim states it, fails: a unit can fail for the sole
    reason that the agent executable is not found.  On a machine
    without the agent [detectClaudePath] returns its fallback [claude];
    [runTask] hands it to the shell, which finds no such command and
    exits with 127, and the result of the unit is a failure.  The same
    unit on the same machine succeeds once the agent is installed as
    [/usr/local/bin/claude]. *)
Lemma unit_fails_when_agent_is_not_found :
  let taskFile := "/tasks/001_repo_main/task.md" in
  let log := "/tasks/001_repo_main/execution.log" in
  let agent := RunClaude "/tasks/001_repo_main/repo" Examples.task_md
                         (Some "claude") log in
  (exists m',
     interp Examples.agent_not_found Runner.detectClaudePath Examples.boot
     = (Fulfilled "claude", m'))
  /\ (exists o m',
        interp Examples.agent_not_found (Runner.runTask taskFile log) Examples.boot
        = (Fulfilled o, m')
        /\ spawns (history m')
           = [(agent, {| exitCode := 127; stdout := "";
                         output_message := "exit code: 127" |})]
        /\ Runner.success o = false
        /\ Runner.error o = None)
  /\ (exists o m',
        interp Examples.agent_installed (Runner.runTask taskFile log) Examples.boot
        = (Fulfilled o, m')
        /\ Runner.success o = true).
Proof.
  intros taskFile log agent. split_and!.
  - eexists. vm_compute. reflexivity.
  - eexists _, _. split; [vm_compute; reflexivity|].
    split_and!; vm_compute; reflexivity.
  - eexists _, _. split; [vm_compute; reflexivity|]. reflexivity.
Qed.

(** C10, amended.  [detectClaudePath] never raises and returns a
    non-empty string in every environment, so that the statement of
    [runTask] that resolves the executable always completes and no
    result with an error detail stems from it; in a fixed environment
    where no candidate file exists and the shell lookup fails it
    returns [claude].  A unit whose own checks pass then has a result
    without error detail, which is a success exactly when the agent
    process, started under the resolved path, exits 0; when nothing
    was cached, no candidate file exists and the shell lookup fails,
    that path is the fallback [claude]. *)
Theorem detectClaudePath_never_fails `{PathApi} :
  wp Runner.detectClaudePath
     (fun tr r => exists p, r = Fulfilled p /\ p <> "")
  /\ (forall cached,
        wp (if Runner.not_cached cached
            then found ← Runner.detectClaudePath; trigger (WriteClaudePath found)
            else mret tt)
           (fun _ r => r = Fulfilled tt))
  /\ (forall w m,
        (forall p, p ∈ Runner.candidate_paths (env_home w) ->
                   fs_pathExists w p <> Fulfilled true) ->
        exitCode (run_process w WhichClaude) <> 0 ->
        exists m', interp w Runner.detectClaudePath m = (Fulfilled "claude", m'))
  /\ (forall w m taskFile log content paths,
        fs_readFile w taskFile = Fulfilled content ->
        Runner.parseRepoPaths content = Fulfilled paths ->
        fs_pathExists w (Runner.repoCodePath paths) = Fulfilled true ->
        fs_ensureDir w (path_dirname log) = Fulfilled tt ->
        exists o m' tr q,
          let agent := RunClaude (Runner.repoCodePath paths) content (Some q)
                                 (path_resolve log) in
          interp w (Runner.runTask taskFile log) m = (Fulfilled o, m')
          /\ history m' = history m ++ tr
          /\ q <> ""
          /\ spawns tr = [(agent, run_process w agent)]
          /\ Runner.error o = None
          /\ (Runner.success o = true <-> exitCode (run_process w agent) = 0)
          /\ (claudePath m = None ->
              (forall p, p ∈ Runner.candidate_paths (env_home w) ->
                         fs_pathExists w p <> Fulfilled true) ->
              exitCode (run_process w WhichClaude) <> 0 ->
              q = "claude")).
Proof.
  assert (Hfallback : forall w m,
    (forall p, p ∈ Runner.candidate_paths (env_home w) ->
               fs_pathExists w p <> Fulfilled true) ->
    exitCode (run_process w WhichClaude) <> 0 ->
    exists m', interp w Runner.detectClaudePath m = (Fulfilled "claude", m')).
  { intros w m Hnone Hwhich. unfold Runner.detectClaudePath.
    rewrite interp_mbind, interp_trigger. cbn [respond].
    match goal with
    | |- context [interp w (Runner.first_existing ?ps ?other) ?mm] =>
        destruct (interp_first_existing_none w ps other mm Hnone) as (m' & Heq & _)
    end.
    rewrite Heq. ev.
    destruct (Z.eqb_spec (exitCode (run_process w WhichClaude)) 0) as [|_];
      [contradiction|].
    ev. eexists. reflexivity. }
  split_and!.
  - eapply wp_mono; [|apply detectClaudePath_detected].
    intros tr r [_ Hr]. exact Hr.
  - intros cached. eapply wp_mono; [|apply ensure_detected].
    intros tr r [_ Hr]. exact Hr.
  - exact Hfallback.
  - intros w m taskFile log content paths Hread Hparse Hthere Hdir.
    destruct (interp_runTask_ready w m taskFile log content paths
                Hread Hparse Hthere Hdir)
      as (o & m' & tr & q & Hrun & Hh & Hq & Hfrom & Hs & Hok & Herr & _).
    exists o, m', tr, q. cbv zeta. split_and!; try assumption.
    + rewrite Hok. apply bool_decide_eq_true.
    + intros Hcache Hnone Hwhich. rewrite Hcache in Hfrom.
      change (Runner.not_cached None) with true in Hfrom. cbv iota in Hfrom.
      destruct Hfrom as (ma & mb & Hdetect).
      destruct (Hfallback w ma Hnone Hwhich) as (mb' & Hclaude).
      rewrite Hclaude in Hdetect. injection Hdetect as <- _. reflexivity.
Qed.

Lemma detectClaudePath_never_fails_witness :
  let taskFile := "/tasks/001_repo_main/task.md" in
  let log := "/tasks/001_repo_main/execution.log" in
  let agent := RunClaude "/tasks/001_repo_main/repo" Examples.task_md
                         (Some "claude") log in
  (exists m', interp Examples.agent_not_found Runner.detectClaudePath Examples.boot
              = (Fulfilled "claude", m'))
  /\ (exists o m' tr,
        interp Examples.agent_not_found (Runner.runTask taskFile log) Examples.boot
        = (Fulfilled o, m')
        /\ history m' = history Examples.boot ++ tr
        /\ spawns tr = [(agent, run_process Examples.agent_not_found agent)]
        /\ Runner.error o = None
        /\ (Runner.success o = true
            <-> exitCode (run_process Examples.agent_not_found agent) = 0)).
Proof.
  intros taskFile log agent.
  assert (Hnone : forall p,
            p ∈ Runner.candidate_paths (env_home Examples.agent_not_found) ->
            fs_pathExists Examples.agent_not_found p <> Fulfilled true).
  { intros p Hp. vm_compute in Hp. vm_compute.
    repeat (apply elem_of_cons in Hp as [->|Hp]; [discriminate|]).
    inversion Hp. }
  assert (Hwhich : exitCode (run_process Examples.agent_not_found WhichClaude) <> 0)
    by (vm_compute; discriminate).
  split.
  - exact (proj1 (proj2 (proj2 detectClaudePath_never_fails))
             Examples.agent_not_found Examples.boot Hnone Hwhich).
  - destruct (proj2 (proj2 (proj2 detectClaudePath_never_fails))
                Examples.agent_not_found Examples.boot taskFile log Examples.task_md
                {| Runner.taskDirPath := "/tasks/001_repo_main";
                   Runner.repoCodePath := "/tasks/001_repo_main/repo" |}
                eq_refl eq_refl eq_refl eq_refl)
      as (o & m' & tr & q & Hrun & Hh & _ & Hs & Herr & Hok & Hq).
    rewrite (Hq eq_refl Hnone Hwhich) in Hs, Hok.
    exists o, m', tr. split_and!; assumption.
Defined.

(** X22. Called one after the other, units resolve the executable
    once.  After a call of [runTask] the module variable holds a
    non-empty path, and an agent process the call started was given
    that path.  When the variable held a non-empty path before the
    call, the call keeps it and starts no shell lookup; so a second
    call starts no process but the agent, with the path the first call
    left. *)
Theorem runTask_resolves_executable_once `{PathApi} (w : World) (m : Machine)
    (taskFile log : string) :
  exists o m' tr q,
    interp w (Runner.runTask taskFile log) m = (Fulfilled o, m')
    /\ history m' = history m ++ tr
    /\ claudePath m' = Some q /\ q <> ""
    /\ (forall c, c ∈ commands tr ->
          c = WhichClaude
          \/ exists cwd content lg, c = RunClaude cwd content (Some q) lg)
    /\ (forall p, claudePath m = Some p -> p <> "" ->
          q = p /\ WhichClaude ∉ commands tr)
    /\ (forall taskFile' log',
          exists o' m'' tr',
            interp w (Runner.runTask taskFile' log') m' = (Fulfilled o', m'')
            /\ history m'' = history m' ++ tr'
            /\ claudePath m'' = Some q
            /\ forall c, c ∈ commands tr' ->
                  exists cwd content lg, c = RunClaude cwd content (Some q) lg).
Proof.
  destruct (interp_runTask_cache w m taskFile log)
    as (o & m' & tr & q & Hrun & Hh & Hq & Hc & Hcached & Hcmd).
  exists o, m', tr, q. split_and!; try assumption.
  - intros p Hp Hne.
    assert (Hfalse : Runner.not_cached (claudePath m) = false).
    { rewrite Hp. simpl. apply bool_decide_eq_false. exact Hne. }
    destruct (Hcached Hfalse) as [Hsame Hno]. split; [congruence|exact Hno].
  - intros taskFile' log'.
    destruct (interp_runTask_cache w m' taskFile' log')
      as (o' & m'' & tr' & q' & Hrun' & Hh' & Hq' & Hc' & Hcached' & Hcmd').
    assert (Hfalse : Runner.not_cached (claudePath m') = false).
    { rewrite Hc. simpl. apply bool_decide_eq_false. exact Hq. }
    destruct (Hcached' Hfalse) as [Hsame Hno].
    assert (q' = q) as -> by congruence.
    exists o', m'', tr'. split_and!; try assumption.
    intros c Hin. destruct (Hcmd' c Hin) as [->|Hrun'']; [contradiction|exact Hrun''].
Qed.

Lemma runTask_resolves_executable_once_witness :
  let m := {| claudePath := Some "/usr/local/bin/claude"; clock_reads := 0;
              history := [] |} in
  exists o m' tr,
    interp (Examples.world true 0)
      (Runner.runTask "/tasks/001_repo_main/task.md"
                      "/tasks/001_repo_main/execution.log") m
    = (Fulfilled o, m')
    /\ history m' = tr
    /\ claudePath m' = Some "/usr/local/bin/claude"
    /\ WhichClaude ∉ commands tr.
Proof.
  intros m.
  destruct (runTask_resolves_executable_once (Examples.world true 0) m
              "/tasks/001_repo_main/task.md" "/tasks/001_repo_main/execution.log")
    as (o & m' & tr & q & Hrun & Hh & Hc & _ & _ & Hcached & _).
  destruct (Hcached "/usr/local/bin/claude" eq_refl) as [-> Hno]; [discriminate|].
  exists o, m', tr. split_and!; assumption.
Defined.


Section RaceFacts.
Import Runner Scheduler.
Context `{PathApi}.

(** The first effects of a callback: two readings of the clock, the
    read of the module variable and, when it is empty, the first two
    effects of [detectClaudePath]. *)
Lemma task_reaches_detection taskFile :
  exists k,
    task taskFile = Vis NewDateISO k
    /\ forall iso, exists k',
         k iso = Vis DateNow k'
         /\ forall now, exists k'',
              k' now = Vis ReadClaudePath k''
              /\ exists k3,
                   k'' None = Vis ProcessEnvHome k3
                   /\ forall home, exists k4,
                        k3 home
                        = Vis (FsPathExists
                                 (home +:+ "/.claude/local/node_modules/.bin/claude"))
                              k4.
Proof.
  eexists. split; [reflexivity|].
  intros iso. eexists. split; [reflexivity|].
  intros now. eexists. split; [reflexivity|].
  eexists. split; [reflexivity|].
  intros home. eexists. reflexivity.
Qed.

Lemma advance_to_detection maxJobs s before i taskFile after home :
  active s = before ++ (i, task taskFile) :: after ->
  claudePathVar s = None ->
  exists s' k4,
    rtc (step maxJobs) s s'
    /\ active s'
       = before
         ++ (i, Vis (FsPathExists
                       (home +:+ "/.claude/local/node_modules/.bin/claude")) k4)
         :: after
    /\ claudePathVar s' = None.
Proof.
  intros Hact Hcache.
  destruct (task_reaches_detection taskFile) as (k & Htask & Hk).
  destruct (Hk "") as (k' & Hiso & Hk').
  destruct (Hk' 0) as (k'' & Hnow & k3 & Hread & Hk3).
  destruct (Hk3 home) as (k4 & Hhome).
  rewrite Htask in Hact.
  pose proof (step_effect maxJobs s before i NewDateISO k after "" Hact I) as Hstep1.
  rewrite Hiso in Hstep1.
  match type of Hstep1 with
  | step _ _ ?s1 =>
      pose proof (step_effect maxJobs s1 before i DateNow k' after 0 eq_refl I)
        as Hstep2
  end.
  rewrite Hnow in Hstep2.
  cbn [pending active settled successful failed claudePathVar rejection timeline
       written] in Hstep2.
  match type of Hstep2 with
  | step _ _ ?s2 =>
      pose proof (step_effect maxJobs s2 before i ReadClaudePath k'' after None
                    eq_refl) as Hstep3
  end.
  cbn [pending active settled successful failed claudePathVar rejection timeline
       written allowed] in Hstep3.
  specialize (Hstep3 (eq_sym Hcache)). rewrite Hread in Hstep3.
  match type of Hstep3 with
  | step _ _ ?s3 =>
      pose proof (step_effect maxJobs s3 before i ProcessEnvHome k3 after home
                    eq_refl I) as Hstep4
  end.
  rewrite Hhome in Hstep4.
  cbn [pending active settled successful failed claudePathVar rejection timeline
       written] in Hstep4.
  eexists _, k4. split; [|split].
  - eapply rtc_l; [exact Hstep1|]. eapply rtc_l; [exact Hstep2|].
    eapply rtc_l; [exact Hstep3|]. eapply rtc_once. exact Hstep4.
  - reflexivity.
  - exact Hcache.
Qed.

End RaceFacts.

(** X23. With two slots both units of a batch search for the
    executable.  [runTask] tests the module variable before the search
    and assigns it after, so that a unit entered while another one
    searches still finds the variable empty: the first callback runs up
    to its first [await], the check of the first candidate path, then
    the second callback does the same, and both are in
    [detectClaudePath] with the variable still empty. *)
Theorem detection_can_run_twice `{PathApi} (a b home : string) :
  let first := home +:+ "/.claude/local/node_modules/.bin/claude" in
  exists s k0 k1,
    Scheduler.reachable [a; b] 2 None s
    /\ Scheduler.active s
       = [(0%nat, Vis (FsPathExists first) k0); (1%nat, Vis (FsPathExists first) k1)]
    /\ Scheduler.claudePathVar s = None.
Proof.
  intros first.
  assert (exists s2,
            rtc (Scheduler.step 2) (Scheduler.submit [a; b] None) s2
            /\ Scheduler.active s2
               = [(0%nat, Scheduler.task a); (1%nat, Scheduler.task b)]
            /\ Scheduler.claudePathVar s2 = None)
    as (s2 & Hrun2 & Hact2 & Hcache2).
  { eexists. split.
    - eapply rtc_l.
      + apply (Scheduler.step_start 2 (Scheduler.submit [a; b] None) 0%nat a
                 [(1%nat, b)]);
          [reflexivity|unfold Scheduler.slot_free; simpl; lia].
      + apply rtc_once. eapply (Scheduler.step_start 2 _ 1%nat b []);
          [reflexivity|unfold Scheduler.slot_free; simpl; lia].
    - split; reflexivity. }
  destruct (advance_to_detection 2 s2 [] 0%nat a [(1%nat, Scheduler.task b)] home
              Hact2 Hcache2)
    as (s3 & k0 & Hrun3 & Hact3 & Hcache3).
  destruct (advance_to_detection 2 s3 [(0%nat, Vis (FsPathExists first) k0)]
              1%nat b [] home Hact3 Hcache3)
    as (s4 & k1 & Hrun4 & Hact4 & Hcache4).
  exists s4, k0, k1. split_and!; [|exact Hact4|exact Hcache4].
  unfold Scheduler.reachable. etrans; [exact Hrun2|]. etrans; eassumption.
Qed.


(** ** What precedes the agent process *)

Section SpawnFacts.
Import Runner.
Context `{PathApi}.

Lemma agent_prepared_quiet taskFile log tr :
  spawns tr = [] -> agent_prepared taskFile log tr.
Proof. intros Hs cmd out Hin. rewrite Hs in Hin. inversion Hin. Qed.

Lemma agent_prepared_frame taskFile log pre tr post :
  spawns pre = [] -> spawns post = [] ->
  agent_prepared taskFile log tr ->
  agent_prepared taskFile log (pre ++ tr ++ post).
Proof.
  intros Hpre Hpost Htr cmd out Hin.
  rewrite !spawns_app, Hpre, Hpost, app_nil_r in Hin. simpl in Hin.
  destruct (Htr cmd out Hin)
    as (cwd & content & exe & before & after & -> & -> & H1 & H2 & H3).
  exists cwd, content, exe, (pre ++ before), (after ++ post). split_and!.
  - reflexivity.
  - rewrite <- !app_assoc. reflexivity.
  - apply elem_of_app. right. exact H1.
  - apply elem_of_app. right. exact H2.
  - apply elem_of_app. right. exact H3.
Qed.

End SpawnFacts.

(** X24. [runTask] starts the agent only when everything is ready for
    it.  In every run, an agent process is started after
    [fs.pathExists] found its working directory, after the task file
    was read with the content it is given, and after the directory of
    the log file was ensured; its output goes to the resolved path of
    the log file. *)
Theorem runTask_prepares_the_agent `{PathApi} (taskFile log : string) :
  wp (Runner.runTask taskFile log) (fun tr _ => agent_prepared taskFile log tr).
Proof.
  unfold Runner.runTask.
  apply wp_bind. eapply wp_mono; [|apply formatTimestamp_wp].
  intros tr0 r [Hs0 [startTimestamp ->]].
  apply wp_bind. wp_trigger startTime.
  apply wp_catch.
  apply wp_bind. wp_trigger cached.
  apply wp_bind. eapply wp_mono; [|apply ensure_detected].
  intros tr1 r [Hs1 ->].
  eapply wp_mono with
    (Q := fun tr' r' => match r' with
                        | Fulfilled a => agent_prepared taskFile log tr'
                        | Rejected t => spawns tr' = []
                        end).
  { intros tr' [a|t] Hpost.
    - rewrite <- (app_nil_r tr').
      replace (tr0 ++ [Observed DateNow startTime]
               ++ [Observed ReadClaudePath cached] ++ tr1 ++ tr' ++ [])
        with ((tr0 ++ [Observed DateNow startTime]
               ++ [Observed ReadClaudePath cached] ++ tr1) ++ tr' ++ [])
        by (rewrite <- !app_assoc; reflexivity).
      apply agent_prepared_frame; [|reflexivity|exact Hpost].
      rewrite !spawns_app, Hs0, Hs1. reflexivity.
    - apply wp_bind. eapply wp_mono; [|apply stop_clock_wp].
      intros tr2 r [Hs2 (a & b & c & ->)]. wp_leaf.
      apply agent_prepared_quiet.
      rewrite !spawns_app, Hs0, Hs1, Hpost, Hs2. reflexivity. }
  apply wp_bind. unfold Runner.extractRepoPaths. apply wp_bind. wp_await; [|reflexivity].
  destruct (Runner.parseRepoPaths a) as [paths|t]; [|wp_leaf; reflexivity].
  wp_leaf. apply wp_bind. wp_await; [|reflexivity].
  destruct a0; cbn [negb]; [|wp_leaf; reflexivity].
  apply wp_bind. wp_await; [|reflexivity].
  apply wp_bind. wp_await; [|reflexivity].
  apply wp_bind. apply wp_catch. apply wp_bind. wp_trigger exe.
  apply wp_bind. unfold dollar. intros out.
  assert (Hready : forall tr2 T,
    spawns tr2 = [] ->
    T = [Observed (FsReadFile taskFile) (Fulfilled a);
         Observed (FsPathExists (Runner.repoCodePath paths)) (Fulfilled true);
         Observed (FsReadFile taskFile) (Fulfilled a0);
         Observed (FsEnsureDir (path_dirname log)) (Fulfilled a1);
         Observed ReadClaudePath exe]
        ++ Observed (Dollar (RunClaude (Runner.repoCodePath paths) a0 exe
                                       (path_resolve log))) out
        :: tr2 ->
    agent_prepared taskFile log T).
  { intros tr2 T Hs2 -> cmd out' Hin. rewrite spawns_app in Hin. simpl in Hin.
    rewrite Hs2 in Hin. apply list_elem_of_singleton in Hin. injection Hin as -> ->.
    eexists _, _, _, _, tr2. split; [reflexivity|]. split; [reflexivity|].
    destruct a1. split_and!; set_solver. }
  destruct (exitCode out =? 0); wp_leaf.
  - wp_leaf. apply wp_bind. eapply wp_mono; [|apply stop_clock_wp].
    intros tr2 r [Hs2 (x & y & z & ->)]. wp_leaf.
    apply (Hready tr2); [exact Hs2|].
    simpl. rewrite ?app_nil_r. reflexivity.
  - apply wp_bind. eapply wp_mono; [|apply stop_clock_wp].
    intros tr2 r [Hs2 (x & y & z & ->)]. wp_leaf. wp_leaf.
    apply (Hready tr2); [exact Hs2|].
    simpl. rewrite ?app_nil_r. reflexivity.
Qed.


Lemma runTask_prepares_the_agent_witness :
  exists tr o cwd content exe before after out,
    runs (Runner.runTask "/tasks/001_repo_main/task.md"
                         "/tasks/001_repo_main/execution.log") tr (Fulfilled o)
    /\ tr = before
            ++ Observed (Dollar (RunClaude cwd content exe
                                   "/tasks/001_repo_main/execution.log")) out
            :: after
    /\ Observed (FsPathExists cwd) (Fulfilled true) ∈ before.
Proof.
  destruct (interp (Examples.world true 0)
              (Runner.runTask "/tasks/001_repo_main/task.md"
                              "/tasks/001_repo_main/execution.log") Examples.boot)
    as [r m'] eqn:Hrun.
  destruct (interp_runs _ _ _ _ _ Hrun) as (tr & Hh & Hr).
  vm_compute in Hrun. injection Hrun as <- <-. simpl in Hh. subst tr.
  match type of Hr with
  | runs _ ?tr _ =>
      assert (exists cmd out, (cmd, out) ∈ spawns tr) as (cmd & out & Hin)
        by (simpl; eexists _, _; left);
      destruct (proj1 (wp_runs _ _)
                  (runTask_prepares_the_agent "/tasks/001_repo_main/task.md"
                     "/tasks/001_repo_main/execution.log") tr _ Hr cmd out Hin)
        as (cwd & content & exe & before & after & -> & Htr & Hthere & _)
  end.
  eexists _, _, cwd, content, exe, before, after, out.
  split; [exact Hr|]. split; [exact Htr|exact Hthere].
Defined.

(** ** The log files of a batch *)

(** X25. In the summary [executeWithConcurrency] returns, every result
    is of one of two kinds: it names as its log file [execution.log] in
    the directory of its task file (the task file at the same position)
    and carries no error detail; or it names no log file, is a failure
    and carries an error detail.  So a successful result always names
    the log file beside its task file. *)
Theorem results_name_the_log_beside_the_task_file `{PathApi}
    (taskFiles : list string) (maxJobs : nat) (cache : option string)
    (summary : Scheduler.ExecutionSummary) :
  Scheduler.executeWithConcurrency taskFiles maxJobs cache (Fulfilled summary) ->
  Forall2 (fun taskFile o =>
             let log := path_join (path_dirname taskFile) "execution.log" in
             (Runner.logFile o = Some log /\ Runner.error o = None)
             \/ (Runner.logFile o = None /\ Runner.success o = false
                 /\ is_Some (Runner.error o)))
          taskFiles (Scheduler.summary_results summary).
Proof.
  intros (s & Hreach & Hret).
  destruct (summary_correct _ _ _ _ _ Hreach Hret)
    as (summary' & Heq & _ & _ & _ & Hran & _).
  injection Heq as <-.
  eapply Forall2_impl; [exact Hran|].
  intros taskFile o [hist Hruns]. unfold Scheduler.task in Hruns.
  pose proof (runTask_wp taskFile
                (path_join (path_dirname taskFile) "execution.log")) as Hwp.
  rewrite wp_runs in Hwp.
  destruct (Hwp _ _ Hruns) as (o' & Ho & _ & Hcases).
  injection Ho as <-.
  destruct (spawns hist) as [|[c out] [|? ?]].
  - right. destruct Hcases as (Hs & Hl & t & He).
    split_and!; [exact Hl|exact Hs|rewrite He; eexists; reflexivity].
  - left. destruct Hcases as (_ & Hl & He). split; assumption.
  - destruct Hcases.
Qed.

Lemma results_name_the_log_beside_the_task_file_witness :
  let taskFiles := ["/tasks/001_repo_main/task.md"; "/tasks/002_repo_dev/task.md"] in
  exists summary,
    Scheduler.executeWithConcurrency taskFiles 2 None (Fulfilled summary)
    /\ Forall2 (fun taskFile o =>
                  let log := path_join (path_dirname taskFile) "execution.log" in
                  (Runner.logFile o = Some log /\ Runner.error o = None)
                  \/ (Runner.logFile o = None /\ Runner.success o = false
                      /\ is_Some (Runner.error o)))
               taskFiles (Scheduler.summary_results summary).
Proof.
  intros taskFiles.
  assert (Hjobs : (1 <= 2)%nat) by lia.
  destruct (completes taskFiles 2 None _ Hjobs (rtc_refl _ _))
    as (s & summary & _ & Hreach & Hret).
  assert (Hcall : Scheduler.executeWithConcurrency taskFiles 2 None
                    (Fulfilled summary)) by (exists s; split; assumption).
  exists summary. split; [exact Hcall|].
  exact (results_name_the_log_beside_the_task_file taskFiles 2%nat None
           summary Hcall).
Defined.
